(** * The podcast summarisation pipeline: job registry, orchestrator and
      service clients

    A shallow embedding of [api/src/services/processor.ts],
    [api/src/services/openai.ts] and the helper class at the end of
    [api/src/routes/upload.ts], with the properties of the design
    specification stated and settled against it.

    Conventions.
    - JavaScript numbers are IEEE binary64 values: Rocq's primitive [float];
      the [progress] of a job and the clock, which only take integer values,
      are in [Z].
    - The job registry ([Map<string, ProcessingJob>]) is a [gmap string _],
      the queue a [list string], the file system a [gmap] from the existing
      paths to their sizes.
    - Values typed [any] (what [JSON.parse] returns) are kept dynamically
      typed, with JavaScript's truthiness and property access.
    - Node's event loop is modelled by an executable step function.  An
      event is one turn of the loop: an HTTP handler calling [createJob] or
      [cancelJob], the settlement of the external call the worker awaits
      (the child processes and the two OpenAI calls), or another actor
      writing or removing a file.  Code between two such awaits runs to its
      end within the turn, as promise continuations do.
    - Logging has no effect on the service and is left out, as are the
      prompts sent to the chat model; [cleanupOldJobs], which has no caller
      in the repository, and [getQueueStatus], which only reads, are not
      events.
    - The housekeeping functions of the processor, the validation and upload
      middlewares, the status, cancel and queue routes and the query rules
      of the summaries list are embedded after the pipeline, with their
      properties at the end. *)

From Stdlib Require Import Ascii String ZArith QArith Qround Floats Lia.
From stdpp Require Import base option list strings gmap pretty sorting.

Open Scope Z_scope.

(* Decimal literals such as 0.7 denote the nearest binary64 value, as in
   JavaScript. *)
#[global] Set Warnings "-inexact-float,-register-all".

(** ** JavaScript numbers *)

Module JS.

(** [Math.round]: the nearest integer, ties towards +infinity; NaN, the
    infinities and the zeros are returned unchanged, and an argument in
    [-0.5, 0) gives -0.  The value is computed exactly from the mantissa
    and exponent of the argument (no intermediate floating-point sum). *)
Definition Math_round (x : float) : float :=
  match Prim2SF x with
  | S754_finite s m e =>
      if 0 <=? e then x
      else
        let v := if s then Z.opp (Z.pos m) else Z.pos m in
        let n := (2 * v + 2 ^ (- e)) / 2 ^ (- e + 1) in
        if n =? 0 then (if s then PrimFloat.neg_zero else PrimFloat.zero)
        else
          let a := of_uint63 (Uint63.of_Z (Z.abs n)) in
          if n <? 0 then PrimFloat.opp a else a
  | _ => x
  end.

(** The integer a finite float with an integral value stands for. *)
Definition to_integer (x : float) : option Z :=
  match Prim2SF x with
  | S754_zero _ => Some 0
  | S754_finite s m e =>
      if 0 <=? e then Some ((if s then -1 else 1) * Z.pos m * 2 ^ e)
      else if Z.pos m mod 2 ^ (- e) =? 0
           then Some ((if s then -1 else 1) * (Z.pos m / 2 ^ (- e)))
           else None
  | _ => None
  end.

End JS.

(** ** Types ([api/src/types]) *)

Inductive UploadType := file | url.
Inductive DetailLevel := brief | standard | deep.

#[global] Instance UploadType_eq_dec : EqDecision UploadType.
Proof. solve_decision. Defined.
#[global] Instance DetailLevel_eq_dec : EqDecision DetailLevel.
Proof. solve_decision. Defined.

Record UploadOptions := {
  lang : option string;
  detail : DetailLevel;
  timestamps : bool
}.

(** [file] is the Multer handle; only its [filename] is ever read. *)
Record MulterFile := { filename : string }.

Record UploadRequest := {
  req_type : UploadType;
  req_file : option MulterFile;
  req_url : option string;
  req_options : UploadOptions
}.

(** ** [routes/upload.ts]: the estimate returned with an accepted upload *)

(** [ProcessorService.estimateProcessingTime], upload.ts lines 337-364. *)
Definition estimateProcessingTime (request : UploadRequest) : float :=
  let baseTime := 60%float in
  let baseTime :=
    match detail (req_options request) with
    | brief => (baseTime * 0.7)%float
    | deep => (baseTime * 1.5)%float
    | standard => baseTime
    end in
  let baseTime :=
    if timestamps (req_options request) then (baseTime * 1.2)%float
    else baseTime in
  let baseTime :=
    if decide (req_type request = url) then (baseTime + 30)%float
    else baseTime in
  JS.Math_round baseTime.

(** The heuristic in the words of the specification, over exact rationals:
    base 60, times 7/10 for brief and 3/2 for deep, times 6/5 with
    timestamps, plus 30 for a url source, rounded half up. *)
Definition round_half_up (q : Q) : Z := Qfloor (q + (1 # 2))%Q.

Definition estimated_time_spec (request : UploadRequest) : Z :=
  let detail_factor :=
    match detail (req_options request) with
    | brief => (7 # 10)%Q
    | standard => 1%Q
    | deep => (3 # 2)%Q
    end in
  let timestamp_factor :=
    if timestamps (req_options request) then (6 # 5)%Q else 1%Q in
  let source_extra :=
    match req_type request with url => 30%Q | file => 0%Q end in
  round_half_up (60 * detail_factor * timestamp_factor + source_extra)%Q.

(** ** Exceptions and dynamically typed values *)

(** A thrown value: an [Error] object with its message, or anything else. *)
Inductive exn := JsError (message : string) | NonError.

(** [error instanceof Error ? error.message : 'Unknown error'] *)
Definition message_of (error : exn) : string :=
  match error with
  | JsError message => message
  | NonError => "Unknown error"
  end.

Inductive result (A : Type) := Ok (a : A) | Throw (error : exn).
Arguments Ok {A} a.
Arguments Throw {A} error.

Definition result_bind {A B} (r : result A) (k : A -> result B) : result B :=
  match r with
  | Ok a => k a
  | Throw error => Throw error
  end.

Fixpoint result_map {A B} (f : A -> result B) (l : list A) : result (list B) :=
  match l with
  | [] => Ok []
  | a :: l =>
      result_bind (f a) (fun b =>
      result_bind (result_map f l) (fun bs => Ok (b :: bs)))
  end.

(** What [JSON.parse] can return, together with [undefined]. *)
Inductive value :=
| VUndefined
| VNull
| VBool (b : bool)
| VNum (x : float)
| VStr (s : string)
| VArr (elements : list value)
| VObj (properties : list (string * value)).

Module Value.

Definition truthy (v : value) : bool :=
  match v with
  | VUndefined | VNull => false
  | VBool b => b
  | VNum x => negb (is_zero x || is_nan x)
  | VStr s => negb (String.eqb s "")
  | VArr _ | VObj _ => true
  end.

(** [v || d] *)
Definition or (v d : value) : value := if truthy v then v else d.

Fixpoint assoc (key : string) (properties : list (string * value)) : value :=
  match properties with
  | [] => VUndefined
  | (k, v) :: rest => if String.eqb k key then v else assoc key rest
  end.

(** [v.key] for a key that no prototype defines ([Object.prototype],
    [Array.prototype] and the prototypes of the primitive wrappers), as are
    the keys this program reads: reading from [null] or [undefined] throws a
    TypeError, an object gives its own property, and any other value gives
    [undefined].  The names [Object.prototype] defines are listed in
    [Object_prototype_names]. *)
Definition get (v : value) (key : string) : result value :=
  match v with
  | VUndefined =>
      Throw (JsError ("Cannot read properties of undefined (reading '"
                      +:+ key +:+ "')"))
  | VNull =>
      Throw (JsError ("Cannot read properties of null (reading '"
                      +:+ key +:+ "')"))
  | VObj properties => Ok (assoc key properties)
  | _ => Ok VUndefined
  end.

(** The property names every plain object inherits from
    [Object.prototype]. *)
Definition Object_prototype_names : list string :=
  ["constructor"; "__defineGetter__"; "__defineSetter__"; "hasOwnProperty";
   "__lookupGetter__"; "__lookupSetter__"; "isPrototypeOf";
   "propertyIsEnumerable"; "toString"; "valueOf"; "__proto__";
   "toLocaleString"].

Definition inherited (key : string) : bool :=
  bool_decide (key ∈ Object_prototype_names).

End Value.

(** ** [services/openai.ts] *)

Record Timestamp := {
  ts_start : float;
  ts_end : float;
  ts_text : string;
  ts_confidence : option float
}.

Record TranscriptionResponse := {
  tr_text : string;
  tr_language : string;
  tr_duration : float;
  tr_segments : option (list Timestamp);
  tr_confidence : float
}.

Record KeyPoint := {
  kp_title : value;
  kp_description : value;
  kp_timestamp : value;
  kp_importance : value
}.

Record Chapter := {
  ch_title : value;
  ch_start : value;
  ch_end : value;
  ch_summary : value;
  ch_keyPoints : value
}.

(** The fields copied from the parsed reply are typed [any] at run time;
    [chapters?: Chapter[]] is optional, [None] standing for [undefined]. *)
Record SummarizationResponse := {
  sr_overview : value;
  sr_keyTakeaways : value;
  sr_keyPoints : list KeyPoint;
  sr_actionItems : value;
  sr_quotes : value;
  sr_chapters : option (list Chapter);
  sr_tags : value;
  sr_confidence : float
}.

Record SummarizationMetadata := {
  md_title : option string;
  md_duration : option float;
  md_language : option string
}.

Record SummarizationRequest := {
  sq_transcript : string;
  sq_detailLevel : DetailLevel;
  sq_options : UploadOptions;
  sq_metadata : option SummarizationMetadata
}.

(** *** The chat completion as the client library hands it over *)

(** [completion.choices[0]?.message?.content], seen through [JSON.parse].
    A completion without a first choice has no content either. *)
Inductive chat_content :=
| ContentMissing                          (* null, undefined or '' *)
| ContentMalformed                        (* JSON.parse throws *)
| ContentParsed (parsedResponse : value).

Record ChatChoice := {
  content : chat_content;
  finish_reason : string
}.

Inductive chat_outcome :=
| ChatRejected (error : exn)
| ChatResolved (choice0 : ChatChoice).

Definition float_of_nat (n : nat) : float :=
  of_uint63 (Uint63.of_Z (Z.of_nat n)).

(** openai.ts lines 256-267. *)
Definition calculateOverallConfidence (segments : option (list Timestamp))
  : float :=
  match segments with
  | None => 0.8%float
  | Some segments =>
      if decide (length segments = 0%nat)
      then 0.8%float (* Default confidence *)
      else
        (* .map(segment => segment.confidence)
           .filter(confidence => confidence !== undefined) *)
        let confidences := omap ts_confidence segments in
        if decide (length confidences = 0%nat) then 0.8%float
        else
          let average :=
            (foldl (fun sum conf => sum + conf) 0 confidences
             / float_of_nat (length confidences))%float in
          (JS.Math_round (average * 100) / 100)%float
  end.

(** openai.ts lines 272-277. *)
Definition calculateSummaryConfidence (choice : ChatChoice) : float :=
  if String.eqb (finish_reason choice) "stop" then 0.95%float
  else if String.eqb (finish_reason choice) "length" then 0.8%float
  else 0.7%float.

(** [array.map(f)] on a value typed [any[]]: on anything but an array the
    property [map] is read, which throws on [null] and [undefined], and
    what is read is not a function. *)
Definition map_any {A} (callee : string) (f : value -> result A) (v : value)
  : result (list A) :=
  match v with
  | VArr elements => result_map f elements
  | _ =>
      result_bind (Value.get v "map") (fun _ =>
      Throw (JsError (callee +:+ ".map is not a function")))
  end.

(** openai.ts lines 231-238. *)
Definition processKeyPoints (keyPoints : value) : result (list KeyPoint) :=
  map_any "keyPoints" (fun point =>
    result_bind (Value.get point "title") (fun title =>
    result_bind (Value.get point "description") (fun description =>
    result_bind (Value.get point "timestamp") (fun timestamp =>
    result_bind (Value.get point "importance") (fun importance =>
    Ok {| kp_title := Value.or title (VStr "");
          kp_description := Value.or description (VStr "");
          kp_timestamp := Value.or timestamp VUndefined;
          kp_importance := Value.or importance (VStr "medium") |})))))
    keyPoints.

(** openai.ts lines 243-251. *)
Definition processChapters (chapters : value) : result (list Chapter) :=
  map_any "chapters" (fun chapter =>
    result_bind (Value.get chapter "title") (fun title =>
    result_bind (Value.get chapter "start") (fun start =>
    result_bind (Value.get chapter "end") (fun end_ =>
    result_bind (Value.get chapter "summary") (fun summary =>
    result_bind (Value.get chapter "keyPoints") (fun keyPoints =>
    Ok {| ch_title := Value.or title (VStr "");
          ch_start := Value.or start (VNum 0);
          ch_end := Value.or end_ (VNum 0);
          ch_summary := Value.or summary (VStr "");
          ch_keyPoints := Value.or keyPoints (VArr []) |}))))))
    chapters.

(** The body of the [try] block of [generateSummary], from the settlement of
    [chat.completions.create] on (openai.ts lines 114-160). *)
Definition generateSummary_body (request : SummarizationRequest)
    (completion : chat_outcome) : result SummarizationResponse :=
  let options := sq_options request in
  match completion with
  | ChatRejected error => Throw error
  | ChatResolved choice0 =>
      match content choice0 with
      | ContentMissing => Throw (JsError "No response content from OpenAI")
      | ContentMalformed => Throw (JsError "Invalid JSON response from OpenAI")
      | ContentParsed parsedResponse =>
          result_bind (Value.get parsedResponse "overview") (fun overview =>
          result_bind (Value.get parsedResponse "keyTakeaways")
            (fun keyTakeaways =>
          result_bind (Value.get parsedResponse "keyPoints")
            (fun keyPoints =>
          result_bind (processKeyPoints (Value.or keyPoints (VArr [])))
            (fun keyPoints =>
          result_bind (Value.get parsedResponse "actionItems")
            (fun actionItems =>
          result_bind (Value.get parsedResponse "quotes") (fun quotes =>
          result_bind
            (if timestamps options
             then result_bind (Value.get parsedResponse "chapters")
                    (fun chapters =>
                  result_bind (processChapters (Value.or chapters (VArr [])))
                    (fun chapters => Ok (Some chapters)))
             else Ok None)
            (fun chapters =>
          result_bind (Value.get parsedResponse "tags") (fun tags =>
          Ok {| sr_overview := Value.or overview (VStr "");
                sr_keyTakeaways := Value.or keyTakeaways (VArr []);
                sr_keyPoints := keyPoints;
                sr_actionItems := Value.or actionItems (VArr []);
                sr_quotes := Value.or quotes (VArr []);
                sr_chapters := chapters;
                sr_tags := Value.or tags (VArr []);
                sr_confidence := calculateSummaryConfidence choice0 |}
          ))))))))
      end
  end.

(** With the [catch] that wraps every error (openai.ts lines 161-166). *)
Definition generateSummary (request : SummarizationRequest)
    (completion : chat_outcome) : result SummarizationResponse :=
  match generateSummary_body request completion with
  | Ok response => Ok response
  | Throw error =>
      Throw (JsError ("Summarization failed: " +:+ message_of error))
  end.

(** *** [transcribeAudio], from the settlement of the Whisper call on *)

Record WhisperSegment := {
  ws_start : float;
  ws_end : float;
  ws_text : string;
  ws_avg_logprob : option float
}.

Record WhisperTranscription := {
  wt_text : string;
  wt_language : option string;
  wt_duration : option float;
  wt_segments : option (list WhisperSegment)
}.

Record TranscriptionRequest := {
  tq_language : option string;
  tq_prompt : option string
}.

Definition truthy_string (s : option string) : option string :=
  match s with
  | Some s => if String.eqb s "" then None else Some s
  | None => None
  end.

Definition truthy_number (x : option float) : option float :=
  match x with
  | Some x => if is_zero x || is_nan x then None else Some x
  | None => None
  end.

Section Transcription.

(** [Math.exp] and [String.prototype.trim] are the engine's.  The copy of
    the audio the function writes under [/tmp] is removed again whether the
    call succeeds or fails, and is not part of the model. *)
Variable Math_exp : float -> float.
Variable trim : string -> string.

(** openai.ts lines 29-93. *)
Definition transcribeAudio (request : TranscriptionRequest)
    (transcription : result WhisperTranscription)
  : result TranscriptionResponse :=
  match transcription with
  | Throw error =>
      Throw (JsError ("Transcription failed: " +:+ message_of error))
  | Ok transcription =>
      let segments :=
        default []
          (fmap (M := option)
             (map (fun segment =>
                {| ts_start := ws_start segment;
                   ts_end := ws_end segment;
                   ts_text := trim (ws_text segment);
                   ts_confidence :=
                     fmap (M := option) Math_exp
                       (truthy_number (ws_avg_logprob segment)) |}))
             (wt_segments transcription)) in
      Ok {| tr_text := wt_text transcription;
            tr_language :=
              default "en"
                (match truthy_string (wt_language transcription) with
                 | Some l => Some l
                 | None => truthy_string (tq_language request)
                 end);
            tr_duration := default 0%float
                             (truthy_number (wt_duration transcription));
            tr_segments := Some segments;
            tr_confidence := calculateOverallConfidence (Some segments) |}
  end.

End Transcription.

(** ** Strings and paths

    Strings are taken to be ASCII: a character is one UTF-16 code unit. *)

Module Str.

Definition is_space (c : ascii) : bool :=
  let n := nat_of_ascii c in
  (n =? 32)%nat || ((9 <=? n)%nat && (n <=? 13)%nat).

Definition lower (c : ascii) : ascii :=
  let n := nat_of_ascii c in
  if (65 <=? n)%nat && (n <=? 90)%nat then ascii_of_nat (n + 32) else c.

Fixpoint toLowerCase (s : string) : string :=
  match s with
  | EmptyString => EmptyString
  | String c rest => String (lower c) (toLowerCase rest)
  end.

(** [s.includes(c)] for a one-character needle. *)
Fixpoint includes (c : ascii) (s : string) : bool :=
  match s with
  | EmptyString => false
  | String d rest => Ascii.eqb c d || includes c rest
  end.

(** [s.split(c)[0]]: the part before the first [c]. *)
Fixpoint before (c : ascii) (s : string) : string :=
  match s with
  | EmptyString => EmptyString
  | String d rest => if Ascii.eqb c d then EmptyString
                     else String d (before c rest)
  end.

(** [s.substring(0, n)] *)
Fixpoint take (n : nat) (s : string) : string :=
  match n, s with
  | S n, String c rest => String c (take n rest)
  | _, _ => EmptyString
  end.

(** [s.substring(n)] *)
Fixpoint drop (n : nat) (s : string) : string :=
  match n, s with
  | S n, String _ rest => drop n rest
  | _, _ => s
  end.

(** [s.replace(pattern, replacement)] with a string pattern: the first
    occurrence only; the replacements used here contain no [$]. *)
Fixpoint replace (s pattern replacement : string) : string :=
  if String.prefix pattern s
  then replacement +:+ drop (String.length pattern) s
  else match s with
       | EmptyString => EmptyString
       | String c rest => String c (replace rest pattern replacement)
       end.

(** [s.split(/\s+/).length]: one more than the number of maximal runs of
    white space. *)
Fixpoint count_runs (in_run : bool) (s : string) : nat :=
  match s with
  | EmptyString => 0
  | String c rest =>
      if is_space c
      then (if in_run then 0 else 1) + count_runs true rest
      else count_runs false rest
  end%nat.

Definition split_whitespace_length (s : string) : nat := S (count_runs false s).

Definition truthy (s : option string) : bool :=
  match s with
  | Some s => negb (String.eqb s "")
  | None => false
  end.

End Str.

(** Node's [path] module, POSIX flavour. *)
Module Path.

Fixpoint split_slash (acc : string) (s : string) : list string :=
  match s with
  | EmptyString => [acc]
  | String c rest =>
      if Ascii.eqb c "/" then acc :: split_slash "" rest
      else split_slash (acc +:+ String c "") rest
  end.

Definition segments (p : string) : list string := split_slash "" p.

(** [normalizeString]: the stack of segments, innermost first. *)
Fixpoint resolve (allowAboveRoot : bool) (stack : list string)
    (segs : list string) : list string :=
  match segs with
  | [] => stack
  | seg :: segs =>
      if String.eqb seg "" || String.eqb seg "." then
        resolve allowAboveRoot stack segs
      else if String.eqb seg ".." then
        match stack with
        | top :: below =>
            if String.eqb top ".."
            then resolve allowAboveRoot (".." :: stack) segs
            else resolve allowAboveRoot below segs
        | [] =>
            resolve allowAboveRoot
              (if allowAboveRoot then [".."] else []) segs
        end
      else resolve allowAboveRoot (seg :: stack) segs
  end.

Fixpoint join_slash (segs : list string) : string :=
  match segs with
  | [] => ""
  | [seg] => seg
  | seg :: segs => seg +:+ "/" +:+ join_slash segs
  end.

Definition ends_with_slash (p : string) : bool :=
  match reverse (segments p) with
  | last :: _ :: _ => String.eqb last ""
  | _ => false
  end.

Definition normalize (p : string) : string :=
  if String.eqb p "" then "."
  else
    let isAbsolute := String.prefix "/" p in
    let trailingSeparator := ends_with_slash p in
    let body := join_slash (reverse (resolve (negb isAbsolute) []
                                               (segments p))) in
    if String.eqb body "" then
      if isAbsolute then "/" else if trailingSeparator then "./" else "."
    else
      let body := if trailingSeparator then body +:+ "/" else body in
      if isAbsolute then "/" +:+ body else body.

(** [path.join(a, b)] *)
Definition join (a b : string) : string :=
  let joined :=
    if String.eqb a "" then b
    else if String.eqb b "" then a
    else a +:+ "/" +:+ b in
  normalize joined.

(** The last non-empty segment (trailing separators are ignored). *)
Definition basename (p : string) : string :=
  default "" (head (filter (fun seg => seg <> "") (reverse (segments p)))).

(** The part of [seg] from its last dot on, if it has a dot. *)
Fixpoint from_last_dot (seg : string) : option string :=
  match seg with
  | EmptyString => None
  | String c rest =>
      match from_last_dot rest with
      | Some ext => Some ext
      | None => if Ascii.eqb c "." then Some seg else None
      end
  end.

(** [path.extname(p)]: from the last dot of the last segment to its end;
    empty when there is no dot, when the only dot starts the segment, or
    when the segment is [..]. *)
Definition extname (p : string) : string :=
  let seg := basename p in
  match from_last_dot seg with
  | None => ""
  | Some ext =>
      if String.eqb ext seg || String.eqb seg ".." then ""
      else ext
  end.

End Path.

(** ** [services/processor.ts]: data *)

Inductive JobStatus := queued | processing | completed | failed.

#[global] Instance JobStatus_eq_dec : EqDecision JobStatus.
Proof. solve_decision. Defined.

Record User := { user_id : string }.

Record ProcessingJob := {
  job_id : string;
  job_userId : string;
  job_type : UploadType;
  job_status : JobStatus;
  job_progress : Z;
  job_originalFile : option string;
  job_url : option string;
  job_options : UploadOptions;
  job_error : option string;
  job_createdAt : Z;
  job_updatedAt : Z;
  job_completedAt : option Z
}.

(** [Partial<ProcessingJob>]: the properties an update carries. *)
Record Updates := {
  upd_id : option string;
  upd_userId : option string;
  upd_type : option UploadType;
  upd_status : option JobStatus;
  upd_progress : option Z;
  upd_originalFile : option string;
  upd_url : option string;
  upd_options : option UploadOptions;
  upd_error : option string;
  upd_createdAt : option Z;
  upd_updatedAt : option Z;
  upd_completedAt : option Z
}.

Definition no_updates : Updates :=
  {| upd_id := None; upd_userId := None; upd_type := None;
     upd_status := None; upd_progress := None; upd_originalFile := None;
     upd_url := None; upd_options := None; upd_error := None;
     upd_createdAt := None; upd_updatedAt := None; upd_completedAt := None |}.

(** [{ status }], [{ progress }], ... object literals, built up by field. *)
Definition status_ (st : JobStatus) (u : Updates) : Updates :=
  {| upd_id := upd_id u; upd_userId := upd_userId u; upd_type := upd_type u;
     upd_status := Some st; upd_progress := upd_progress u;
     upd_originalFile := upd_originalFile u; upd_url := upd_url u;
     upd_options := upd_options u; upd_error := upd_error u;
     upd_createdAt := upd_createdAt u; upd_updatedAt := upd_updatedAt u;
     upd_completedAt := upd_completedAt u |}.

Definition progress_ (p : Z) (u : Updates) : Updates :=
  {| upd_id := upd_id u; upd_userId := upd_userId u; upd_type := upd_type u;
     upd_status := upd_status u; upd_progress := Some p;
     upd_originalFile := upd_originalFile u; upd_url := upd_url u;
     upd_options := upd_options u; upd_error := upd_error u;
     upd_createdAt := upd_createdAt u; upd_updatedAt := upd_updatedAt u;
     upd_completedAt := upd_completedAt u |}.

Definition error_ (e : string) (u : Updates) : Updates :=
  {| upd_id := upd_id u; upd_userId := upd_userId u; upd_type := upd_type u;
     upd_status := upd_status u; upd_progress := upd_progress u;
     upd_originalFile := upd_originalFile u; upd_url := upd_url u;
     upd_options := upd_options u; upd_error := Some e;
     upd_createdAt := upd_createdAt u; upd_updatedAt := upd_updatedAt u;
     upd_completedAt := upd_completedAt u |}.

Definition completedAt_ (t : Z) (u : Updates) : Updates :=
  {| upd_id := upd_id u; upd_userId := upd_userId u; upd_type := upd_type u;
     upd_status := upd_status u; upd_progress := upd_progress u;
     upd_originalFile := upd_originalFile u; upd_url := upd_url u;
     upd_options := upd_options u; upd_error := upd_error u;
     upd_createdAt := upd_createdAt u; upd_updatedAt := upd_updatedAt u;
     upd_completedAt := Some t |}.

(** [Object.assign(job, updates, { updatedAt: new Date() })] *)
Definition assign (job : ProcessingJob) (updates : Updates) (now : Z)
  : ProcessingJob :=
  {| job_id := default (job_id job) (upd_id updates);
     job_userId := default (job_userId job) (upd_userId updates);
     job_type := default (job_type job) (upd_type updates);
     job_status := default (job_status job) (upd_status updates);
     job_progress := default (job_progress job) (upd_progress updates);
     job_originalFile :=
       match upd_originalFile updates with
       | Some f => Some f
       | None => job_originalFile job
       end;
     job_url :=
       match upd_url updates with Some u => Some u | None => job_url job end;
     job_options := default (job_options job) (upd_options updates);
     job_error :=
       match upd_error updates with
       | Some e => Some e
       | None => job_error job
       end;
     job_createdAt := default (job_createdAt job) (upd_createdAt updates);
     job_updatedAt := now;
     job_completedAt :=
       match upd_completedAt updates with
       | Some t => Some t
       | None => job_completedAt job
       end |}.

Record AudioMetadata := {
  am_format : string;
  am_duration : float;
  am_size : Z
}.

Record ProcessingOptions := {
  convertToWav : option bool;
  normalizeAudio : option bool
}.

Record Summary := {
  sum_id : string;
  sum_userId : string;
  sum_jobId : string;
  sum_title : string;
  sum_originalUrl : option string;
  sum_originalFileName : option string;
  sum_duration : float;
  sum_language : string;
  sum_detailLevel : DetailLevel;
  sum_overview : value;
  sum_keyTakeaways : value;
  sum_keyPoints : list KeyPoint;
  sum_actionItems : value;
  sum_quotes : value;
  sum_transcript : string;
  sum_timestamps : list Timestamp;
  sum_chapters : option (list Chapter);
  sum_processingTime : Z;
  sum_wordCount : nat;
  sum_confidence : float;
  sum_tags : value;
  sum_createdAt : Z;
  sum_updatedAt : Z
}.

(** ** The processor service and its environment *)

(** The locals of [processJob] at each of its awaits on an external call. *)
Inductive suspended :=
| AwaitMetadata (jobId : string) (job : ProcessingJob)
    (audioFilePath : string) (shouldCleanup : bool)
| AwaitProcessAudio (jobId : string) (job : ProcessingJob)
    (audioFilePath : string) (shouldCleanup : bool)
| AwaitTranscription (jobId : string) (job : ProcessingJob)
    (audioFilePath : string) (shouldCleanup : bool)
    (processedAudioPath : string)
| AwaitSummary (jobId : string) (job : ProcessingJob)
    (audioFilePath : string) (shouldCleanup : bool)
    (processedAudioPath : string) (transcription : TranscriptionResponse).

(** The [jobId] argument of the suspended call. *)
Definition suspended_jobId (k : suspended) : string :=
  match k with
  | AwaitMetadata jobId _ _ _ | AwaitProcessAudio jobId _ _ _
  | AwaitTranscription jobId _ _ _ _ | AwaitSummary jobId _ _ _ _ _ => jobId
  end.

(** Its local [job], as read at line 115.  In the source this is a reference
    to the object held in the registry, which [updateJob] mutates in place;
    here it is the record as it was when [processJob] started.  The two
    agree on every field [processJob] reads from [job] afterwards ([type],
    [originalFile], [url], [options], [userId], [id], [createdAt]):
    [updateJob] is never handed one of these fields, see [same_inputs] and
    the lemma [captured_job_is_live]. *)
Definition suspended_job (k : suspended) : ProcessingJob :=
  match k with
  | AwaitMetadata _ job _ _ | AwaitProcessAudio _ job _ _
  | AwaitTranscription _ job _ _ _ | AwaitSummary _ job _ _ _ _ => job
  end.

(** One registry write, as observed from outside: a record entering the
    map, or an [updateJob] call with the record before and after it. *)
Inductive entry :=
| Created (job : ProcessingJob)
| Updated (before : ProcessingJob) (updates : Updates) (after : ProcessingJob).

Definition entry_after (e : entry) : ProcessingJob :=
  match e with
  | Created job => job
  | Updated _ _ after => after
  end.

(** [jobs], [jobQueue] and [isProcessing] are the fields of
    [ProcessorService]; [fs] maps the existing paths to their sizes;
    [stored] lists the summaries handed to [storeSummary]; [worker] is the
    suspended [processQueue] coroutine, if any; [journal] is a history
    variable listing every registry write, newest first. *)
Record machine := {
  jobs : gmap string ProcessingJob;
  jobQueue : list string;
  isProcessing : bool;
  fs : gmap string Z;
  stored : list Summary;
  worker : option suspended;
  journal : list entry
}.

Definition set_jobs (f : gmap string ProcessingJob -> gmap string ProcessingJob)
    (e : list entry -> list entry) (s : machine) : machine :=
  {| jobs := f (jobs s); jobQueue := jobQueue s;
     isProcessing := isProcessing s; fs := fs s; stored := stored s;
     worker := worker s; journal := e (journal s) |}.

Definition set_jobQueue (q : list string) (s : machine) : machine :=
  {| jobs := jobs s; jobQueue := q; isProcessing := isProcessing s;
     fs := fs s; stored := stored s; worker := worker s;
     journal := journal s |}.

Definition set_isProcessing (b : bool) (s : machine) : machine :=
  {| jobs := jobs s; jobQueue := jobQueue s; isProcessing := b;
     fs := fs s; stored := stored s; worker := worker s;
     journal := journal s |}.

Definition set_fs (f : gmap string Z -> gmap string Z) (s : machine)
  : machine :=
  {| jobs := jobs s; jobQueue := jobQueue s; isProcessing := isProcessing s;
     fs := f (fs s); stored := stored s; worker := worker s;
     journal := journal s |}.

Definition set_stored (l : list Summary) (s : machine) : machine :=
  {| jobs := jobs s; jobQueue := jobQueue s; isProcessing := isProcessing s;
     fs := fs s; stored := l; worker := worker s; journal := journal s |}.

Definition set_worker (w : option suspended) (s : machine) : machine :=
  {| jobs := jobs s; jobQueue := jobQueue s; isProcessing := isProcessing s;
     fs := fs s; stored := stored s; worker := w; journal := journal s |}.

(** A fresh service in a given file system. *)
Definition boot (files : gmap string Z) : machine :=
  {| jobs := ∅; jobQueue := []; isProcessing := false; fs := files;
     stored := []; worker := None; journal := [] |}.

(** Synchronous code: it runs on the machine and returns or throws. *)
Definition M (A : Type) : Type := machine -> result A * machine.

Definition ret {A} (a : A) : M A := fun s => (Ok a, s).
Definition throw {A} (error : exn) : M A := fun s => (Throw error, s).
Definition bind {A B} (m : M A) (k : A -> M B) : M B :=
  fun s => match m s with
           | (Ok a, s') => k a s'
           | (Throw error, s') => (Throw error, s')
           end.
Definition lift {A} (r : result A) : M A := fun s => (r, s).
Definition when (b : bool) (m : M unit) : M unit := if b then m else ret tt.

(** A statement that changes the machine and cannot throw. *)
Definition act (f : machine -> machine) : M unit := fun s => (Ok tt, f s).

Notation "x <- m ;; k" := (bind m (fun x => k))
  (at level 100, m at next level, right associativity).
Notation "m ;;; k" := (bind m (fun _ => k))
  (at level 100, right associativity).

(** [try { body } catch (error) { handler(error) }] *)
Definition try_catch {A} (body : M A) (handler : exn -> M A) : M A :=
  fun s => match body s with
           | (Ok a, s') => (Ok a, s')
           | (Throw error, s') => handler error s'
           end.

(** *** The [fs] module *)

Definition existsSync (path : string) : M bool :=
  fun s => (Ok (bool_decide (is_Some (fs s !! path))), s).

Definition enoent (syscall path : string) : exn :=
  JsError ("ENOENT: no such file or directory, " +:+ syscall +:+ " '"
           +:+ path +:+ "'").

Definition unlinkSync (path : string) : M unit :=
  fun s => match fs s !! path with
           | Some _ => (Ok tt, set_fs (delete path) s)
           | None => (Throw (enoent "unlink" path), s)
           end.

(** The contents read are only passed on to the transcription service. *)
Definition readFileSync (path : string) : M unit :=
  fun s => match fs s !! path with
           | Some _ => (Ok tt, s)
           | None => (Throw (enoent "open" path), s)
           end.

Definition statSync (path : string) : M Z :=
  fun s => match fs s !! path with
           | Some size => (Ok size, s)
           | None => (Throw (enoent "stat" path), s)
           end.

(** The settlement of [execAsync(command)]. *)
Inductive exec_outcome :=
| ExecResolved (stdout stderr : string)
| ExecRejected (error : exn).

(** *** Parsing the probe's diagnostics *)

Definition digit (c : ascii) : option Z :=
  let n := Z.of_nat (nat_of_ascii c) in
  if (48 <=? n) && (n <=? 57) then Some (n - 48) else None.

Definition two_digits (a b : ascii) : option Z :=
  match digit a, digit b with
  | Some x, Some y => Some (10 * x + y)
  | _, _ => None
  end.

Definition of_Z (n : Z) : float := of_uint63 (Uint63.of_Z n).

(** [/Duration: (\d{2}):(\d{2}):(\d{2}\.\d{2})/] anchored at the start of
    [s]; the groups through [parseInt], [parseInt] and [parseFloat] (the
    decimal [dd.dd] is the correctly rounded quotient of an integer by
    100). *)
Definition duration_here (s : string) : option (float * float * float) :=
  if String.prefix "Duration: " s then
    match list_ascii_of_string (Str.drop 10 s) with
    | h1 :: h2 :: c1 :: m1 :: m2 :: c2 :: s1 :: s2 :: d :: f1 :: f2 :: _ =>
        if Ascii.eqb c1 ":" && Ascii.eqb c2 ":" && Ascii.eqb d "." then
          match two_digits h1 h2, two_digits m1 m2, two_digits s1 s2,
                two_digits f1 f2 with
          | Some h, Some m, Some sec, Some frac =>
              Some (of_Z h, of_Z m, (of_Z (100 * sec + frac) / 100)%float)
          | _, _, _, _ => None
          end
        else None
    | _ => None
    end
  else None.

(** [stderr.match(...)]: the leftmost match. *)
Fixpoint duration_match (stderr : string) : option (float * float * float) :=
  match duration_here stderr with
  | Some groups => Some groups
  | None =>
      match stderr with
      | EmptyString => None
      | String _ rest => duration_match rest
      end
  end.

(** *** The service *)

Record Config := { uploadDir : string }.

(** What happens in one turn of the event loop.  [now] is the clock during
    the turn and [rand] the suffix [Math.random().toString(36).substring(2, 9)]
    drawn in it, if one is drawn.  [WhisperSettled] carries what
    [openaiService.transcribeAudio] resolves to or rejects with, and
    [ChatSettled] the settlement of the chat completion inside
    [openaiService.generateSummary].  The last two events are the other actors
    on the file system: the upload middleware storing a file, and the
    deletion of one ([deleteFile], [cleanupOnError], [cleanupOldFiles]). *)
Inductive event :=
| CreateJob (now : Z) (rand : string) (user : User) (request : UploadRequest)
| CancelJob (now : Z) (jobId : string)
| ProbeSettled (now : Z) (outcome : exec_outcome)
| FfmpegSettled (now : Z) (outcome : exec_outcome) (outputSize : Z)
| WhisperSettled (now : Z) (outcome : result TranscriptionResponse)
| ChatSettled (now : Z) (rand : string) (outcome : chat_outcome)
| FileWritten (now : Z) (path : string) (size : Z)
| FileRemoved (now : Z) (path : string).

Section Processor.

Variable config : Config.

(** processor.ts lines 359-368. *)
Definition generateJobId (now : Z) (rand : string) : string :=
  "job_" +:+ pretty now +:+ "_" +:+ rand.

Definition generateSummaryId (now : Z) (rand : string) : string :=
  "summary_" +:+ pretty now +:+ "_" +:+ rand.

(** processor.ts lines 67-69. *)
Definition getJob (jobId : string) (s : machine) : option ProcessingJob :=
  jobs s !! jobId.

(** processor.ts lines 74-80; the journal entry is the history variable's. *)
Definition updateJob (now : Z) (jobId : string) (updates : Updates)
    (s : machine) : machine :=
  match jobs s !! jobId with
  | Some job =>
      let job' := assign job updates now in
      set_jobs <[jobId := job']> (cons (Updated job updates job')) s
  | None => s
  end.

(** processor.ts lines 249-253: a placeholder that always throws. *)
Definition downloadAudioFromUrl (url jobId : string) : result string :=
  Throw (JsError "URL download not implemented yet").

(** processor.ts lines 259-291, from the settlement of [execAsync] on. *)
Definition getAudioMetadata (filePath : string) (outcome : exec_outcome)
  : M (option AudioMetadata) :=
  try_catch
    match outcome with
    | ExecRejected error => throw error
    | ExecResolved stdout stderr =>
        size <- statSync filePath ;;
        let ext := Str.toLowerCase (Path.extname filePath) in
        let duration :=
          match duration_match stderr with
          | Some (hours, minutes, seconds) =>
              (hours * 3600 + minutes * 60 + seconds)%float
          | None => 0%float
          end in
        ret (Some {| am_format := Str.drop 1 ext; am_duration := duration;
                     am_size := size |})
    end
    (fun error => ret None).

(** processor.ts lines 297-341, from the settlement of [execAsync] on.
    [outputSize] is the size of the file the tool writes when it succeeds. *)
Definition processAudio (inputPath : string) (options : ProcessingOptions)
    (outcome : exec_outcome) (outputSize : Z) : M string :=
  let convertToWav := default false (convertToWav options) in
  let normalizeAudio := default false (normalizeAudio options) in
  (* If no processing needed, return original path *)
  if negb convertToWav && negb normalizeAudio then ret inputPath
  else
    let outputPath :=
      Str.replace inputPath (Path.extname inputPath) "_processed.wav" in
    try_catch
      match outcome with
      | ExecResolved _ _ =>
          fun s => (Ok outputPath, set_fs <[outputPath := outputSize]> s)
      | ExecRejected error => throw error
      end
      (* Return original path if processing fails *)
      (fun error => ret inputPath).

(** processor.ts lines 346-354: the summary is only logged; [stored] keeps
    what was handed over. *)
Definition storeSummary (summary : Summary) (s : machine) : machine :=
  set_stored (summary :: stored s) s.

(** processor.ts lines 373-380.  On anything but a string the property
    [split] is read, which throws on [null] and [undefined], and what is
    read is not a function. *)
Definition generateTitle (overview : value) : result string :=
  match overview with
  | VStr overview =>
      let firstSentence := Str.before "." overview in
      if (60 <? String.length firstSentence)%nat
      then Ok (Str.take 57 firstSentence +:+ "...")
      else Ok (firstSentence
               +:+ (if Str.includes "." overview then "" else "..."))
  | _ =>
      result_bind (Value.get overview "split") (fun _ =>
      Throw (JsError "overview.split is not a function"))
  end.

(** [Math.min] of two numbers. *)
Definition Math_min (a b : float) : float :=
  if is_nan a || is_nan b then nan
  else if (a <? b)%float then a
  else if (b <? a)%float then b
  else if get_sign a then a else b.

(** The [catch] block of [processJob] (processor.ts lines 230-242). *)
Definition processJob_catch (now : Z) (jobId : string) (error : exn)
  : M (option suspended) :=
  let errorMessage := message_of error in
  act (updateJob now jobId
         (status_ failed (error_ errorMessage no_updates))) ;;;
  ret None.

(** [processJob] (processor.ts lines 114-243), cut at its awaits on external
    calls.  First, up to the await on [getAudioMetadata] (lines 115-141).
    [None] is returned when the function has run to its end.  The promise
    of [downloadAudioFromUrl] is already rejected when it is awaited, so the
    [catch] block runs in the same turn. *)
Definition processJob (now : Z) (jobId : string) : M (option suspended) :=
  fun s =>
    match jobs s !! jobId with
    | None => (Ok None, s)
    | Some job =>
        try_catch
          (act (updateJob now jobId
                  (status_ processing (progress_ 0 no_updates))) ;;;
           (* Step 1: Get audio file *)
           if bool_decide (job_type job = file)
              && Str.truthy (job_originalFile job)
           then
             let audioFilePath :=
               Path.join (uploadDir config)
                 (default "" (job_originalFile job)) in
             act (updateJob now jobId (progress_ 10 no_updates)) ;;;
             ret (Some (AwaitMetadata jobId job audioFilePath false))
           else if bool_decide (job_type job = url) && Str.truthy (job_url job)
           then
             audioFilePath <-
               lift (downloadAudioFromUrl (default "" (job_url job)) jobId) ;;
             act (updateJob now jobId (progress_ 20 no_updates)) ;;;
             ret (Some (AwaitMetadata jobId job audioFilePath true))
           else throw (JsError "No valid audio source provided"))
          (processJob_catch now jobId) s
    end.

(** After [getAudioMetadata] has settled (lines 141-148). *)
Definition processJob_metadata (now : Z) (jobId : string)
    (job : ProcessingJob)
    (audioFilePath : string) (shouldCleanup : bool) (outcome : exec_outcome)
  : M (option suspended) :=
  try_catch
    ((* Step 2: Validate and get metadata *)
     metadata <- getAudioMetadata audioFilePath outcome ;;
     match metadata with
     | None => throw (JsError "Unable to read audio metadata")
     | Some _ =>
         act (updateJob now jobId (progress_ 30 no_updates)) ;;;
         ret (Some (AwaitProcessAudio jobId job audioFilePath shouldCleanup))
     end)
    (processJob_catch now jobId).

(** After [processAudio] has settled (lines 148-156). *)
Definition processJob_processAudio (now : Z) (jobId : string)
    (job : ProcessingJob)
    (audioFilePath : string) (shouldCleanup : bool) (outcome : exec_outcome)
    (outputSize : Z) : M (option suspended) :=
  try_catch
    ((* Step 3: Process audio if needed *)
     processedAudioPath <-
       processAudio audioFilePath
         {| convertToWav := Some true; normalizeAudio := Some true |}
         outcome outputSize ;;
     act (updateJob now jobId (progress_ 50 no_updates)) ;;;
     (* Step 4: Transcribe audio *)
     readFileSync processedAudioPath ;;;
     ret (Some (AwaitTranscription jobId job audioFilePath shouldCleanup
                  processedAudioPath)))
    (processJob_catch now jobId).

(** After [openaiService.transcribeAudio] has settled (lines 156-163). *)
Definition processJob_transcription (now : Z) (jobId : string)
    (job : ProcessingJob)
    (audioFilePath : string) (shouldCleanup : bool)
    (processedAudioPath : string) (outcome : result TranscriptionResponse)
  : M (option suspended) :=
  try_catch
    (transcription <- lift outcome ;;
     act (updateJob now jobId (progress_ 70 no_updates)) ;;;
     (* Step 5: Generate summary *)
     ret (Some (AwaitSummary jobId job audioFilePath shouldCleanup
                  processedAudioPath transcription)))
    (processJob_catch now jobId).

(** The argument of [generateSummary] (lines 163-171). *)
Definition summarizationRequest (job : ProcessingJob)
    (transcription : TranscriptionResponse) : SummarizationRequest :=
  {| sq_transcript := tr_text transcription;
     sq_detailLevel := detail (job_options job);
     sq_options := job_options job;
     sq_metadata :=
       Some {| md_title := None;
               md_duration := Some (tr_duration transcription);
               md_language := Some (tr_language transcription) |} |}.

(** Step 6: the [finalSummary] object literal (lines 175-203). *)
Definition finalSummary (now : Z) (rand : string) (job : ProcessingJob)
    (transcription : TranscriptionResponse) (summary : SummarizationResponse)
  : result Summary :=
  result_bind (generateTitle (sr_overview summary)) (fun title =>
  Ok {| sum_id := generateSummaryId now rand;
        sum_userId := job_userId job;
        sum_jobId := job_id job;
        sum_title := title;
        sum_originalUrl := job_url job;
        sum_originalFileName := job_originalFile job;
        sum_duration := tr_duration transcription;
        sum_language := tr_language transcription;
        sum_detailLevel := detail (job_options job);
        sum_overview := sr_overview summary;
        sum_keyTakeaways := sr_keyTakeaways summary;
        sum_keyPoints := sr_keyPoints summary;
        sum_actionItems := sr_actionItems summary;
        sum_quotes := sr_quotes summary;
        sum_transcript := tr_text transcription;
        sum_timestamps := default [] (tr_segments transcription);
        sum_chapters := sr_chapters summary;
        sum_processingTime := now - job_createdAt job;
        sum_wordCount := Str.split_whitespace_length (tr_text transcription);
        sum_confidence :=
          Math_min (tr_confidence transcription) (sr_confidence summary);
        sum_tags := sr_tags summary;
        sum_createdAt := now;
        sum_updatedAt := now |}).

(** After the chat completion has settled, to the end of [processJob]
    (lines 163-228). *)
Definition processJob_summary (now : Z) (rand : string) (jobId : string)
    (job : ProcessingJob)
    (audioFilePath : string) (shouldCleanup : bool)
    (processedAudioPath : string) (transcription : TranscriptionResponse)
    (outcome : chat_outcome) : M (option suspended) :=
  try_catch
    (summary <-
       lift (generateSummary (summarizationRequest job transcription)
               outcome) ;;
     act (updateJob now jobId (progress_ 90 no_updates)) ;;;
     (* Step 6: Create final summary object *)
     final <- lift (finalSummary now rand job transcription summary) ;;
     (* Step 7: Store summary *)
     act (storeSummary final) ;;;
     (* Clean up temporary files *)
     (present <- existsSync audioFilePath ;;
      when (shouldCleanup && present) (unlinkSync audioFilePath)) ;;;
     (present <- existsSync processedAudioPath ;;
      when (negb (String.eqb processedAudioPath audioFilePath) && present)
        (unlinkSync processedAudioPath)) ;;;
     (* Mark job as completed *)
     act (updateJob now jobId
            (status_ completed
               (progress_ 100 (completedAt_ now no_updates)))) ;;;
     ret None)
    (processJob_catch now jobId).

(** The [while] loop of [processQueue] with its [catch] and [finally]
    (processor.ts lines 92-106), run
    until [processJob] suspends or the queue is empty.  [queue] is
    [this.jobQueue]. *)
Fixpoint processQueue_loop (now : Z) (queue : list string) (s : machine)
  : machine :=
  match queue with
  | [] => set_worker None (set_isProcessing false (set_jobQueue [] s))
  | jobId :: rest =>
      let s := set_jobQueue rest s in
      if String.eqb jobId "" then processQueue_loop now rest s
      else
        match processJob now jobId s with
        | (Ok (Some k), s') => set_worker (Some k) s'
        | (Ok None, s') => processQueue_loop now rest s'
        | (Throw error, s') => set_worker None (set_isProcessing false s')
        end
  end.

(** processor.ts lines 85-107. *)
Definition processQueue (now : Z) (s : machine) : machine :=
  if isProcessing s || bool_decide (jobQueue s = []) then s
  else processQueue_loop now (jobQueue s) (set_isProcessing true s).

(** processor.ts lines 29-62.  The function returns the object it has
    entered in the registry, which [processJob] goes on writing to: the
    model returns the key under which the registry holds it.  The machine is
    the service at the end of the turn in which [createJob] is called.  The
    call itself returns earlier, as soon as [processQueue] reaches its first
    [await]: what [processQueue] and [processJob] do in promise
    continuations of the same turn (the [catch] block of a url job, the
    reset of [isProcessing]) comes after the return and before any other
    request or settlement. *)
Definition createJob (now : Z) (rand : string) (user : User)
    (request : UploadRequest) (s : machine) : string * machine :=
  let jobId := generateJobId now rand in
  let job :=
    {| job_id := jobId;
       job_userId := user_id user;
       job_type := req_type request;
       job_status := queued;
       job_progress := 0;
       job_originalFile := fmap (M := option) filename (req_file request);
       job_url := req_url request;
       job_options := req_options request;
       job_error := None;
       job_createdAt := now;
       job_updatedAt := now;
       job_completedAt := None |} in
  let s := set_jobs <[jobId := job]> (cons (Created job)) s in
  let s := set_jobQueue (jobQueue s ++ [jobId]) s in
  (* Start processing if not already running *)
  (jobId, if isProcessing s then s else processQueue now s).

(** [jobQueue.indexOf] and [splice(queueIndex, 1)]: the first occurrence. *)
Fixpoint remove_first (jobId : string) (queue : list string) : list string :=
  match queue with
  | [] => []
  | j :: rest => if String.eqb j jobId then rest
                 else j :: remove_first jobId rest
  end.

(** processor.ts lines 424-442. *)
Definition cancelJob (now : Z) (jobId : string) (s : machine)
  : bool * machine :=
  match jobs s !! jobId with
  | None => (false, s)
  | Some job =>
      if bool_decide (job_status job = completed)
         || bool_decide (job_status job = failed)
      then (false, s)
      else
        let s :=
          if bool_decide (job_status job = queued)
          then set_jobQueue (remove_first jobId (jobQueue s)) s
          else s in
        let s :=
          updateJob now jobId
            (status_ failed (error_ "Cancelled by user" no_updates)) s in
        (true, s)
  end.

(** The worker after a part of [processJob] has run. *)
Definition resume (now : Z) (r : result (option suspended) * machine)
  : machine :=
  match r with
  | (Ok (Some k), s) => set_worker (Some k) s
  | (Ok None, s) => processQueue_loop now (jobQueue s) s
  | (Throw error, s) => set_worker None (set_isProcessing false s)
  end.

(** One turn of the event loop.  A settlement that is not the one the
    worker awaits does not occur. *)
Definition step (s : machine) (e : event) : machine :=
  match e, worker s with
  | CreateJob now rand user request, _ =>
      snd (createJob now rand user request s)
  | CancelJob now jobId, _ => snd (cancelJob now jobId s)
  | ProbeSettled now outcome,
    Some (AwaitMetadata jobId job audioFilePath shouldCleanup) =>
      resume now (processJob_metadata now jobId job audioFilePath shouldCleanup
                    outcome s)
  | FfmpegSettled now outcome outputSize,
    Some (AwaitProcessAudio jobId job audioFilePath shouldCleanup) =>
      resume now (processJob_processAudio now jobId job audioFilePath
                    shouldCleanup outcome outputSize s)
  | WhisperSettled now outcome,
    Some (AwaitTranscription jobId job audioFilePath shouldCleanup
            processedAudioPath) =>
      resume now (processJob_transcription now jobId job audioFilePath
                    shouldCleanup processedAudioPath outcome s)
  | ChatSettled now rand outcome,
    Some (AwaitSummary jobId job audioFilePath shouldCleanup processedAudioPath
            transcription) =>
      resume now (processJob_summary now rand jobId job audioFilePath
                    shouldCleanup processedAudioPath transcription outcome s)
  | FileWritten now path size, _ => set_fs <[path := size]> s
  | FileRemoved now path, _ => set_fs (delete path) s
  | _, _ => s
  end.

Definition run (s : machine) (events : list event) : machine :=
  foldl step s events.

End Processor.

(** ** Specification-level notions *)

(** "The average of the available segment confidences", "rounded to two
    decimal places". *)
Definition available_confidences (segments : list Timestamp) : list float :=
  omap ts_confidence segments.

Definition average (xs : list float) : float :=
  (foldl (fun sum x => sum + x) 0 xs / float_of_nat (length xs))%float.

Definition round_to_two_decimals (x : float) : float :=
  (JS.Math_round (x * 100) / 100)%float.

(** The exact value of a binary64 number that is neither infinite nor NaN:
    its mantissa scaled by the power of two of its exponent, with its
    sign. *)
Definition exact_value (x : float) : option Q :=
  match Prim2SF x with
  | S754_zero _ => Some 0%Q
  | S754_finite negative mantissa exponent =>
      let v := if negative then Z.neg mantissa else Z.pos mantissa in
      Some (if 0 <=? exponent then inject_Z (v * 2 ^ exponent)
            else v # 2 ^ Z.to_pos (- exponent))%Q
  | _ => None
  end.

(** "Rounded": to the nearest integer, a tie going up. *)
Definition nearest_integer (x : float) : option Z :=
  round_half_up <$> exact_value x.

(** The binary64 number of an integer, a zero keeping the sign of what was
    rounded. *)
Definition integer_float (negative : bool) (n : Z) : float :=
  if n =? 0 then (if negative then PrimFloat.neg_zero else PrimFloat.zero)
  else if n <? 0 then PrimFloat.opp (of_uint63 (Uint63.of_Z (Z.abs n)))
  else of_uint63 (Uint63.of_Z (Z.abs n)).

(** The confidences [transcribeAudio] derives from the service's segments:
    the exponential of the average log probability, for the segments that
    carry one (zero and NaN count as none). *)
Definition reported_confidences (Math_exp : float -> float)
    (transcription : WhisperTranscription) : list float :=
  omap (fun segment =>
          match ws_avg_logprob segment with
          | Some x => if is_zero x || is_nan x then None else Some (Math_exp x)
          | None => None
          end)
    (default [] (wt_segments transcription)).

(** The registry after the job [jobId], whose record is [job], has been
    marked failed with [message] at time [now]: its status, error and
    update time change, nothing else does. *)
Definition failed_record (job : ProcessingJob) (message : string) (now : Z)
  : ProcessingJob :=
  {| job_id := job_id job;
     job_userId := job_userId job;
     job_type := job_type job;
     job_status := failed;
     job_progress := job_progress job;
     job_originalFile := job_originalFile job;
     job_url := job_url job;
     job_options := job_options job;
     job_error := Some message;
     job_createdAt := job_createdAt job;
     job_updatedAt := now;
     job_completedAt := job_completedAt job |}.

Definition failure_update (message : string) : Updates :=
  status_ failed (error_ message no_updates).

Definition mark_failed (now : Z) (jobId : string) (job : ProcessingJob)
    (message : string) (s : machine) : machine :=
  set_jobs <[jobId := failed_record job message now]>
    (cons (Updated job (failure_update message)
             (failed_record job message now))) s.

(** The statuses and progress values a job has gone through, oldest first,
    read off the journal. *)
Definition records (jobId : string) (jn : list entry) : list ProcessingJob :=
  filter (fun job => job_id job = jobId) (entry_after <$> jn).

Definition history (jobId : string) (s : machine) : list ProcessingJob :=
  reverse (records jobId (journal s)).

Definition status_history (jobId : string) (s : machine) : list JobStatus :=
  job_status <$> history jobId s.

Definition progress_history (jobId : string) (s : machine) : list Z :=
  job_progress <$> history jobId s.

(** The record last written for [jobId]. *)
Definition latest (jobId : string) (jn : list entry) : option ProcessingJob :=
  head (records jobId jn).

(** Each update in the journal starts from the record the previous write
    for the same job left, and a creation is the first entry of its job. *)
Fixpoint linked (jn : list entry) : Prop :=
  match jn with
  | [] => True
  | e :: older =>
      match e with
      | Created job => latest (job_id job) older = None
      | Updated before updates after =>
          latest (job_id after) older = Some before
      end /\ linked older
  end.

(** The ids [generateJobId] hands out along a sequence of events. *)
Definition created_ids (events : list event) : list string :=
  omap (fun e => match e with
                 | CreateJob now rand _ _ => Some (generateJobId now rand)
                 | _ => None
                 end) events.

(** The successive values of [progress]: a write either repeats the value
    at the start of processing or moves to the next stage boundary. *)
Definition progress_chain : list (Z * Z) :=
  [(0, 0); (0, 10); (0, 20); (10, 30); (20, 30); (30, 50); (50, 70);
   (70, 90); (90, 100)].

Definition progress_ok (before : Z) (written : option Z) : Prop :=
  match written with
  | None => True
  | Some p => (before, p) ∈ progress_chain
  end.

(** The error [processJob] stores for a job whose source is a URL. *)
Definition url_failure_message (job : ProcessingJob) : string :=
  if Str.truthy (job_url job) then "URL download not implemented yet"
  else "No valid audio source provided".

(** The writes a job whose source is a URL undergoes: it is started, it
    fails in acquisition once started, or it is cancelled while queued. *)
Definition url_move (before : ProcessingJob) (updates : Updates)
    (after : ProcessingJob) : Prop :=
  job_status before = queued /\ job_status after = processing \/
  job_status before = processing /\
    updates = failure_update (url_failure_message before) \/
  job_status before = queued /\
    updates = failure_update "Cancelled by user".

(** The two records agree on the fields [processJob] reads from its local
    [job]: the id, the owner, the source and the options of the job, and
    its creation time. *)
Definition same_inputs (a b : ProcessingJob) : Prop :=
  job_id a = job_id b /\ job_userId a = job_userId b /\
  job_type a = job_type b /\ job_originalFile a = job_originalFile b /\
  job_url a = job_url b /\ job_options a = job_options b /\
  job_createdAt a = job_createdAt b.

(** The updates leave these fields out. *)
Definition leaves_inputs (updates : Updates) : Prop :=
  upd_id updates = None /\ upd_userId updates = None /\
  upd_type updates = None /\ upd_originalFile updates = None /\
  upd_url updates = None /\ upd_options updates = None /\
  upd_createdAt updates = None.

(** The registry holds a record for [jobId] that agrees with [job] on the
    fields [processJob] reads. *)
Definition captured (jobId : string) (job : ProcessingJob) (s : machine)
  : Prop :=
  exists r, jobs s !! jobId = Some r /\ same_inputs r job.

(** The local [job] of the suspended [processJob] agrees with the record in
    the registry. *)
Definition captured_ok (s : machine) : Prop :=
  match worker s with
  | Some k => captured (suspended_jobId k) (suspended_job k) s
  | None => True
  end.

(** What holds of every registry write. *)
Definition entry_ok (e : entry) : Prop :=
  match e with
  | Created job => job_status job = queued /\ job_progress job = 0
  | Updated before updates after =>
      after = assign before updates (job_updatedAt after) /\
      upd_id updates = None /\
      upd_type updates = None /\
      progress_ok (job_progress before) (upd_progress updates) /\
      job_status before <> completed /\
      (upd_status updates = Some completed -> job_type before = file) /\
      (upd_status updates = Some failed ->
       exists message, updates = failure_update message) /\
      (job_type before = url -> url_move before updates after) /\
      same_inputs after before
  end.

(** The registry and the queue agree: records sit under their own id, the
    queue has no duplicates and holds queued jobs that have not started. *)
Record registry_ok (s : machine) : Prop := {
  ok_ids : forall j r, jobs s !! j = Some r -> job_id r = j;
  ok_nodup : NoDup (jobQueue s);
  ok_nonempty : forall j, j ∈ jobQueue s -> j <> "";
  ok_queue : forall j, j ∈ jobQueue s ->
             exists r, jobs s !! j = Some r /\ job_status r = queued /\
                       job_progress r = 0;
  ok_journal : Forall entry_ok (journal s);
  ok_latest : forall j, latest j (journal s) = jobs s !! j;
  ok_linked : linked (journal s)
}.

(** The value of [progress] while [processJob] awaits at [k]. *)
Definition stage_progress (k : suspended) : Z :=
  match k with
  | AwaitMetadata _ _ _ shouldCleanup => if shouldCleanup then 20 else 10
  | AwaitProcessAudio _ _ _ _ => 30
  | AwaitTranscription _ _ _ _ _ => 50
  | AwaitSummary _ _ _ _ _ _ => 70
  end.

(** The job [jobId], of type [t], is being processed and has reached [p];
    only a file job can have been cancelled (marked failed) meanwhile. *)
Definition in_flight (jobId : string) (p : Z) (t : UploadType) (s : machine)
  : Prop :=
  (jobId ∉ jobQueue s) /\
  exists r, jobs s !! jobId = Some r /\ job_progress r = p /\
            job_type r = t /\
            (job_status r = processing \/
             job_status r = failed /\ t = file).

Definition worker_ok (s : machine) : Prop :=
  match worker s with
  | None => isProcessing s = false /\ jobQueue s = []
  | Some k => isProcessing s = true /\
              in_flight (suspended_jobId k) (stage_progress k) file s
  end.

Definition invariant (s : machine) : Prop := registry_ok s /\ worker_ok s.

(** No job other than [current] has status [processing]. *)
Definition only_processing (current : option string) (s : machine) : Prop :=
  forall j r, jobs s !! j = Some r -> job_status r = processing ->
              current = Some j.

(** At most one job is being processed: the one the worker is suspended
    on. *)
Definition single_worker (s : machine) : Prop :=
  only_processing (suspended_jobId <$> worker s) s.

(** The file system after the clean-up at the end of [processJob]. *)
Definition cleaned_up (audioFilePath : string) (shouldCleanup : bool)
    (processedAudioPath : string) (files : gmap string Z) : gmap string Z :=
  let files := if shouldCleanup then delete audioFilePath files else files in
  if String.eqb processedAudioPath audioFilePath then files
  else delete processedAudioPath files.

(** The path [processAudio] writes to. *)
Definition output_path (inputPath : string) : string :=
  Str.replace inputPath (Path.extname inputPath) "_processed.wav".

(** The tool is run unless neither conversion nor normalisation is asked
    for. *)
Definition tool_invoked (options : ProcessingOptions) : bool :=
  default false (convertToWav options)
  || default false (normalizeAudio options).

(** The record [createJob] enters, and the machine once it is entered and
    queued (before the worker is started). *)
Definition new_job (now : Z) (rand : string) (user : User)
    (request : UploadRequest) : ProcessingJob :=
  {| job_id := generateJobId now rand;
     job_userId := user_id user;
     job_type := req_type request;
     job_status := queued;
     job_progress := 0;
     job_originalFile := filename <$> req_file request;
     job_url := req_url request;
     job_options := req_options request;
     job_error := None;
     job_createdAt := now;
     job_updatedAt := now;
     job_completedAt := None |}.

Definition enqueued (now : Z) (rand : string) (user : User)
    (request : UploadRequest) (s : machine) : machine :=
  set_jobQueue (jobQueue s ++ [generateJobId now rand])
    (set_jobs <[generateJobId now rand := new_job now rand user request]>
       (cons (Created (new_job now rand user request))) s).

(** The event creates no job under an id already in the registry:
    [generateJobId] "generates a unique job ID". *)
Definition fresh (s : machine) (e : event) : Prop :=
  match e with
  | CreateJob now rand _ _ => jobs s !! generateJobId now rand = None
  | _ => True
  end.

(** The states the service can be in: those a run from a fresh service
    leads to, [generateJobId] never repeating itself. *)
Definition reachable (config : Config) (s : machine) : Prop :=
  exists files events,
    NoDup (created_ids events) /\ s = run config (boot files) events.

(** [throws k e s error p]: with the worker suspended at [k] in [s], the
    settlement [e] makes [processJob] throw [error] before its next await,
    the job's progress being [p] by then. *)
Inductive throws : suspended -> event -> machine -> exn -> Z -> Prop :=
| throws_probe jobId job audioFilePath shouldCleanup now outcome s :
    fst (getAudioMetadata audioFilePath outcome s) = Ok None ->
    throws (AwaitMetadata jobId job audioFilePath shouldCleanup)
      (ProbeSettled now outcome) s
      (JsError "Unable to read audio metadata")
      (if shouldCleanup then 20 else 10)
| throws_read jobId job audioFilePath shouldCleanup now outcome outputSize s :
    fs (snd (processAudio audioFilePath
               {| convertToWav := Some true; normalizeAudio := Some true |}
               outcome outputSize s))
    !! match outcome with
       | ExecResolved _ _ => output_path audioFilePath
       | ExecRejected _ => audioFilePath
       end = None ->
    throws (AwaitProcessAudio jobId job audioFilePath shouldCleanup)
      (FfmpegSettled now outcome outputSize) s
      (enoent "open"
         match outcome with
         | ExecResolved _ _ => output_path audioFilePath
         | ExecRejected _ => audioFilePath
         end) 50
| throws_transcription jobId job audioFilePath shouldCleanup processedAudioPath
    now error s :
    throws
      (AwaitTranscription jobId job audioFilePath shouldCleanup
         processedAudioPath)
      (WhisperSettled now (Throw error)) s error 50
| throws_summary jobId job audioFilePath shouldCleanup processedAudioPath
    transcription now rand outcome error s :
    generateSummary (summarizationRequest job transcription) outcome
    = Throw error ->
    throws
      (AwaitSummary jobId job audioFilePath shouldCleanup processedAudioPath
         transcription)
      (ChatSettled now rand outcome) s error 70
| throws_assembly jobId job audioFilePath shouldCleanup processedAudioPath
    transcription now rand outcome summary error s :
    generateSummary (summarizationRequest job transcription) outcome
    = Ok summary ->
    finalSummary now rand job transcription summary = Throw error ->
    throws
      (AwaitSummary jobId job audioFilePath shouldCleanup processedAudioPath
         transcription)
      (ChatSettled now rand outcome) s error 90.

Definition event_time (e : event) : Z :=
  match e with
  | CreateJob now _ _ _ | CancelJob now _ | ProbeSettled now _
  | FfmpegSettled now _ _ | WhisperSettled now _ | ChatSettled now _ _
  | FileWritten now _ _ | FileRemoved now _ => now
  end.

(** ** A worked scenario *)

Module Scenario.

Definition config : Config := {| uploadDir := "/srv/uploads" |}.

Definition files : gmap string Z := {[ "/srv/uploads/u1_1_2.mp3" := 1000 ]}.

Definition alice : User := {| user_id := "u1" |}.

Definition options : UploadOptions :=
  {| lang := None; detail := brief; timestamps := false |}.

Definition upload : UploadRequest :=
  {| req_type := file;
     req_file := Some {| filename := "u1_1_2.mp3" |};
     req_url := None;
     req_options := options |}.

Definition link : UploadRequest :=
  {| req_type := url;
     req_file := None;
     req_url := Some "https://example.org/episode.mp3";
     req_options := options |}.

Definition jobId : string := "job_100_k3x9q2a".

Definition probe : exec_outcome :=
  ExecResolved "" "  Duration: 00:01:02.50, start: 0.000000".

Definition transcription : TranscriptionResponse :=
  {| tr_text := "hello world";
     tr_language := "en";
     tr_duration := 62.5;
     tr_segments := Some [];
     tr_confidence := 0.8 |}.

(** A reply that carries chapter data. *)
Definition reply : value :=
  VObj [("overview", VStr "A short talk. Nothing else.");
        ("chapters",
         VArr [VObj [("title", VStr "Opening"); ("start", VNum 0);
                     ("end", VNum 60)]])].

Definition chat : chat_outcome :=
  ChatResolved {| content := ContentParsed reply; finish_reason := "stop" |}.

(** The upload is accepted and probed. *)
Definition started : machine :=
  run config (boot files)
    [CreateJob 100 "k3x9q2a" alice upload; ProbeSettled 101 probe].

(** The rest of a run in which every external call succeeds. *)
Definition rest_of_pipeline : list event :=
  [FfmpegSettled 103 (ExecResolved "" "") 500;
   WhisperSettled 104 (Ok transcription);
   ChatSettled 105 "p0o9i8u" chat].

(** A run in which the transcription service fails after normalisation. *)
Definition transcription_fails : list event :=
  [CreateJob 100 "k3x9q2a" alice upload;
   ProbeSettled 101 probe;
   FfmpegSettled 103 (ExecResolved "" "") 500;
   WhisperSettled 104 (Throw (JsError "Transcription failed: 429"))].

Definition processed : string := "/srv/uploads/u1_1_2_processed.wav".

Definition original : string := "/srv/uploads/u1_1_2.mp3".

(** The record [createJob] enters for the upload; [processJob] keeps a
    reference to it. *)
Definition job : ProcessingJob := new_job 100 "k3x9q2a" alice upload.

(** A whole run in which every external call succeeds. *)
Definition full_run : list event :=
  CreateJob 100 "k3x9q2a" alice upload :: ProbeSettled 101 probe
  :: rest_of_pipeline.

(** The upload is accepted, probed and normalised: the worker awaits the
    transcription. *)
Definition normalised : machine :=
  run config (boot files)
    [CreateJob 100 "k3x9q2a" alice upload; ProbeSettled 101 probe;
     FfmpegSettled 103 (ExecResolved "" "") 500].

Definition awaiting_transcription : suspended :=
  AwaitTranscription jobId job original false processed.

Definition whisper_error : exn := JsError "Transcription failed: 429".

(** A link is submitted to an idle service. *)
Definition link_run : list event := [CreateJob 100 "k3x9q2a" alice link].

Definition link_job : ProcessingJob := new_job 100 "k3x9q2a" alice link.

(** The link job as [processJob] leaves it. *)
Definition link_failed : ProcessingJob :=
  failed_record
    (assign link_job (status_ processing (progress_ 0 no_updates)) 100)
    "URL download not implemented yet" 100.

(** A link is submitted while the worker is busy with the upload, and its
    owner cancels it before the worker gets to it. *)
Definition link_jobId : string := "job_101_m4n5b6v".

Definition link_cancelled_run : list event :=
  [CreateJob 100 "k3x9q2a" alice upload;
   CreateJob 101 "m4n5b6v" alice link;
   CancelJob 102 link_jobId].

(** The service with the link job queued and the worker about to take it. *)
Definition link_queued : machine :=
  set_isProcessing true (enqueued 100 "k3x9q2a" alice link (boot files)).

(** What [generateSummary] makes of [reply] for [job]. *)
Definition summary : SummarizationResponse :=
  {| sr_overview := VStr "A short talk. Nothing else.";
     sr_keyTakeaways := VArr [];
     sr_keyPoints := [];
     sr_actionItems := VArr [];
     sr_quotes := VArr [];
     sr_chapters := None;
     sr_tags := VArr [];
     sr_confidence := 0.95 |}.

Definition segments_without_confidence : list Timestamp :=
  [{| ts_start := 0; ts_end := 1.5; ts_text := "hello";
      ts_confidence := None |}].

Definition segments_with_confidence : list Timestamp :=
  [{| ts_start := 0; ts_end := 1.5; ts_text := "hello";
      ts_confidence := Some 0.9%float |};
   {| ts_start := 1.5; ts_end := 2; ts_text := "world";
      ts_confidence := None |};
   {| ts_start := 2; ts_end := 3; ts_text := "again";
      ts_confidence := Some 0.8%float |}].

End Scenario.

(** * The rest of the service

    The parts of the code base around the pipeline: the housekeeping
    functions of the processor, the validation and upload middlewares, and
    the routes that call the processor. *)

(** ** [services/processor.ts]: housekeeping *)

(** processor.ts lines 385-402.  The entries are visited in the order of the
    map; what is removed and how many does not depend on it.  A removal is
    not an entry of the journal. *)
Definition cleanupOldJobs (now : Z) (maxAgeMs : option Z) (s : machine)
  : nat * machine :=
  let maxAgeMs := default (24 * 60 * 60 * 1000) maxAgeMs in
  let sweep :=
    foldl (fun acc entry =>
             let cleanedCount := fst acc in
             let jobId := fst entry in
             let job := snd entry in
             if bool_decide (now - job_createdAt job > maxAgeMs)
             then (S cleanedCount, delete jobId (snd acc))
             else acc)
      (0%nat, jobs s) (map_to_list (jobs s)) in
  (fst sweep, set_jobs (fun _ => snd sweep) (fun entries => entries) s).

Record JobOverview := {
  jo_id : string;
  jo_status : JobStatus;
  jo_progress : Z;
  jo_createdAt : Z
}.

Record QueueStatus := {
  queueLength : nat;
  totalJobs : nat;
  qs_isProcessing : bool;
  qs_jobs : list JobOverview
}.

(** processor.ts lines 407-419.  The code lists the jobs in the order in
    which they entered the registry; the model lists the same jobs in the
    order of their keys, and nothing below depends on the order. *)
Definition getQueueStatus (s : machine) : QueueStatus :=
  {| queueLength := length (jobQueue s);
     totalJobs := size (jobs s);
     qs_isProcessing := isProcessing s;
     qs_jobs :=
       (fun job => {| jo_id := job_id job;
                      jo_status := job_status job;
                      jo_progress := job_progress job;
                      jo_createdAt := job_createdAt job |})
       <$> (map_to_list (jobs s)).*2 |}.

(** ** [middleware/validation.ts] *)

Inductive RuleType :=
| TString | TNumber | TBoolean | TArray | TObject | TEmail | TUrl.

(** What a [custom] check returns: a boolean or a message. *)
Inductive custom_result := CustomBool (b : bool) | CustomMessage (m : string).

(** A [ValidationRule].  The bounds are the integers the rules of this code
    base use; [pattern] is the test of the rule's regular expression. *)
Record ValidationRule := {
  rule_field : string;
  rule_required : option bool;
  rule_type : option RuleType;
  rule_minLength : option Z;
  rule_maxLength : option Z;
  rule_min : option Z;
  rule_max : option Z;
  rule_pattern : option (string -> bool);
  rule_enum : option (list string);
  rule_custom : option (value -> result custom_result)
}.

Record ValidationError := {
  ve_field : string;
  ve_message : string;
  ve_value : value
}.

(** [list.join(', ')] *)
Fixpoint join_comma (l : list string) : string :=
  match l with
  | [] => ""
  | [x] => x
  | x :: l => x +:+ ", " +:+ join_comma l
  end.

(** [value === undefined || value === null || value === ''] *)
Definition not_provided (v : value) : bool :=
  match v with
  | VUndefined | VNull => true
  | VStr s => String.eqb s ""
  | _ => false
  end.

Section Validation.

(** [isValidEmail] and [isValidUrl] test a string against a regular
    expression and against the engine's URL parser. *)
Variable isValidEmail : string -> bool.
Variable isValidUrl : string -> bool.

(** validation.ts lines 194-243. *)
Definition validateType (v : value) (type : RuleType) (field : string)
  : option ValidationError :=
  let error message :=
    Some {| ve_field := field; ve_message := field +:+ message;
            ve_value := v |} in
  match type with
  | TString =>
      match v with VStr _ => None | _ => error " must be a string" end
  | TNumber =>
      match v with
      | VNum x => if is_nan x then error " must be a number" else None
      | _ => error " must be a number"
      end
  | TBoolean =>
      match v with VBool _ => None | _ => error " must be a boolean" end
  | TArray =>
      match v with VArr _ => None | _ => error " must be an array" end
  | TObject =>
      match v with VObj _ => None | _ => error " must be an object" end
  | TEmail =>
      match v with
      | VStr s => if isValidEmail s then None
                  else error " must be a valid email address"
      | _ => error " must be a valid email address"
      end
  | TUrl =>
      match v with
      | VStr s => if isValidUrl s then None
                  else error " must be a valid URL"
      | _ => error " must be a valid URL"
      end
  end.

(** The checks of [validateField] are made in order and the first that
    fails is reported. *)
Definition check (failed : bool) (message : string)
    (next : result (option string)) : result (option string) :=
  if failed then Ok (Some message) else next.

(** An integer bound as a number. *)
Definition number_of (n : Z) : float :=
  if n <? 0 then (- of_Z (- n))%float else of_Z n.

(** validation.ts lines 98-189. *)
Definition validateField (v : value) (rule : ValidationRule)
  : result (option ValidationError) :=
  let field := rule_field rule in
  let error message :=
    Some {| ve_field := field; ve_message := message; ve_value := v |} in
  (* Check if required *)
  if default false (rule_required rule) && not_provided v then
    Ok (error (field +:+ " is required"))
  (* Skip validation if value is not provided and not required *)
  else if not_provided v then Ok None
  else
    (* Type validation *)
    match match rule_type rule with
          | Some type => validateType v type field
          | None => None
          end with
    | Some typeError => Ok (Some typeError)
    | None =>
        let length :=
          match v with
          | VStr s => Some (Z.of_nat (String.length s))
          | _ => None
          end in
        let text := match v with VStr s => Some s | _ => None end in
        let number := match v with VNum x => Some x | _ => None end in
        result_bind
          ((* String validations *)
           check
             (match length, rule_minLength rule with
              | Some length, Some minLength => length <? minLength
              | _, _ => false
              end)
             (field +:+ " must be at least "
              +:+ pretty (default 0 (rule_minLength rule))
              +:+ " characters long")
          (check
             (match length, rule_maxLength rule with
              | Some length, Some maxLength => maxLength <? length
              | _, _ => false
              end)
             (field +:+ " must be no more than "
              +:+ pretty (default 0 (rule_maxLength rule))
              +:+ " characters long")
          (check
             (match text, rule_pattern rule with
              | Some text, Some pattern => negb (pattern text)
              | _, _ => false
              end)
             (field +:+ " format is invalid")
          (* Number validations *)
          (check
             (match number, rule_min rule with
              | Some x, Some min => (x <? number_of min)%float
              | _, _ => false
              end)
             (field +:+ " must be at least "
              +:+ pretty (default 0 (rule_min rule)))
          (check
             (match number, rule_max rule with
              | Some x, Some max => (number_of max <? x)%float
              | _, _ => false
              end)
             (field +:+ " must be no more than "
              +:+ pretty (default 0 (rule_max rule)))
          (* Enum validation *)
          (check
             (match rule_enum rule with
              | Some enumValues =>
                  negb match v with
                       | VStr s => bool_decide (s ∈ enumValues)
                       | _ => false
                       end
              | None => false
              end)
             (field +:+ " must be one of: "
              +:+ join_comma (default [] (rule_enum rule)))
          (* Custom validation *)
          match rule_custom rule with
          | Some custom =>
              result_bind (custom v) (fun customResult =>
                match customResult with
                | CustomBool true => Ok None
                | CustomBool false => Ok (Some (field +:+ " is invalid"))
                | CustomMessage message => Ok (Some message)
                end)
          | None => Ok None
          end))))))
          (fun message => Ok (message ≫= error))
    end.

(** validation.ts lines 80-93: [obj[rule.field]] is read as [Value.get]
    reads it. *)
Fixpoint validateObject (obj : value) (rules : list ValidationRule)
  : result (list ValidationError) :=
  match rules with
  | [] => Ok []
  | rule :: rules =>
      result_bind (Value.get obj (rule_field rule)) (fun v =>
      result_bind (validateField v rule) (fun error =>
      result_bind (validateObject obj rules) (fun errors =>
      Ok (match error with
          | Some error => error :: errors
          | None => errors
          end))))
  end.

End Validation.

(** ** Responses *)

(** [ErrorResponse], with the [details] the upload middleware adds.  The
    [timestamp] is kept as the clock value it is printed from. *)
Record ErrorResponse := {
  er_error : string;
  er_message : string;
  er_statusCode : Z;
  er_timestamp : Z;
  er_path : option string;
  er_validation : option (list ValidationError);
  er_details : option (list string)
}.

Record JobStatusResponse := {
  jsr_jobId : string;
  jsr_status : JobStatus;
  jsr_progress : Z;
  jsr_message : string;
  jsr_error : option string
}.

Inductive response_data :=
| JobStatusData (data : JobStatusResponse)
| QueueData (data : QueueStatus).

(** [ApiResponse]: [{ success, data, message, timestamp }]. *)
Record ApiResponse := {
  api_success : bool;
  api_data : option response_data;
  api_message : option string;
  api_timestamp : Z
}.

Inductive body := ErrorBody (e : ErrorResponse) | ApiBody (a : ApiResponse).

(** [res.status(code).json(body)]; the status is 200 when none is set. *)
Record response := {
  res_status : Z;
  res_body : body
}.

(** [res.status(statusCode).json({ error, message, statusCode, timestamp })] *)
Definition error_response (now statusCode : Z) (error message : string)
  : response :=
  {| res_status := statusCode;
     res_body :=
       ErrorBody {| er_error := error; er_message := message;
                    er_statusCode := statusCode; er_timestamp := now;
                    er_path := None; er_validation := None;
                    er_details := None |} |}.

(** [res.json({ success: true, data, message, timestamp })] *)
Definition success_response (now : Z) (data : option response_data)
    (message : option string) : response :=
  {| res_status := 200;
     res_body :=
       ApiBody {| api_success := true; api_data := data;
                  api_message := message; api_timestamp := now |} |}.

(** What a middleware does: it answers the request, or it calls [next()]. *)
Inductive handled := Next | Sent (res : response).

Section ValidationMiddleware.

Variable isValidEmail : string -> bool.
Variable isValidUrl : string -> bool.

(** validation.ts lines 23-50; [path] is [req.path]. *)
Definition validateBody (rules : list ValidationRule) (now : Z)
    (path : string) (body : value) : result handled :=
  result_bind (validateObject isValidEmail isValidUrl body rules)
    (fun errors =>
  if (0 <? length errors)%nat
  then Ok (Sent {| res_status := 400;
                   res_body :=
                     ErrorBody
                       {| er_error := "Validation Error";
                          er_message := "Request validation failed";
                          er_statusCode := 400;
                          er_timestamp := now;
                          er_path := Some path;
                          er_validation := Some errors;
                          er_details := None |} |})
  else Ok Next).

(** validation.ts lines 55-75. *)
Definition validateQuery (rules : list ValidationRule) (now : Z)
    (path : string) (query : value) : result handled :=
  result_bind (validateObject isValidEmail isValidUrl query rules)
    (fun errors =>
  if (0 <? length errors)%nat
  then Ok (Sent {| res_status := 400;
                   res_body :=
                     ErrorBody
                       {| er_error := "Validation Error";
                          er_message := "Query parameter validation failed";
                          er_statusCode := 400;
                          er_timestamp := now;
                          er_path := Some path;
                          er_validation := Some errors;
                          er_details := None |} |})
  else Ok Next).

End ValidationMiddleware.

(** The rules of [POST /api/upload] (upload.ts lines 19-56). *)
Definition type_rule : ValidationRule :=
  {| rule_field := "type"; rule_required := Some true;
     rule_type := Some TString;
     rule_minLength := None; rule_maxLength := None; rule_min := None;
     rule_max := None; rule_pattern := None;
     rule_enum := Some ["file"; "url"]; rule_custom := None |}.

Definition url_rule : ValidationRule :=
  {| rule_field := "url"; rule_required := None; rule_type := Some TUrl;
     rule_minLength := None; rule_maxLength := None; rule_min := None;
     rule_max := None; rule_pattern := None; rule_enum := None;
     rule_custom :=
       Some (fun value =>
               let body := value in
               result_bind (Value.get body "type") (fun type =>
               Ok (if match type with
                      | VStr type => String.eqb type "url"
                      | _ => false
                      end && negb (Value.truthy value)
                   then CustomMessage "URL is required when type is url"
                   else CustomBool true))) |}.

Definition options_rule : ValidationRule :=
  {| rule_field := "options"; rule_required := None;
     rule_type := Some TObject;
     rule_minLength := None; rule_maxLength := None; rule_min := None;
     rule_max := None; rule_pattern := None; rule_enum := None;
     rule_custom := None |}.

Definition detail_rule : ValidationRule :=
  {| rule_field := "options.detail"; rule_required := None;
     rule_type := Some TString;
     rule_minLength := None; rule_maxLength := None; rule_min := None;
     rule_max := None; rule_pattern := None;
     rule_enum := Some ["brief"; "standard"; "deep"];
     rule_custom := None |}.

Definition timestamps_rule : ValidationRule :=
  {| rule_field := "options.timestamps"; rule_required := None;
     rule_type := Some TBoolean;
     rule_minLength := None; rule_maxLength := None; rule_min := None;
     rule_max := None; rule_pattern := None; rule_enum := None;
     rule_custom := None |}.

Definition lang_rule : ValidationRule :=
  {| rule_field := "options.lang"; rule_required := None;
     rule_type := Some TString;
     rule_minLength := Some 2; rule_maxLength := Some 5; rule_min := None;
     rule_max := None; rule_pattern := None; rule_enum := None;
     rule_custom := None |}.

Definition upload_rules : list ValidationRule :=
  [type_rule; url_rule; options_rule; detail_rule; timestamps_rule;
   lang_rule].

(** The rules of [GET /api/summaries] (routes/summaries.ts lines 18-55). *)
Definition page_rule : ValidationRule :=
  {| rule_field := "page"; rule_required := None; rule_type := Some TNumber;
     rule_minLength := None; rule_maxLength := None; rule_min := Some 1;
     rule_max := None; rule_pattern := None; rule_enum := None;
     rule_custom := None |}.

Definition limit_rule : ValidationRule :=
  {| rule_field := "limit"; rule_required := None;
     rule_type := Some TNumber;
     rule_minLength := None; rule_maxLength := None; rule_min := Some 1;
     rule_max := Some 100; rule_pattern := None; rule_enum := None;
     rule_custom := None |}.

Definition search_rule : ValidationRule :=
  {| rule_field := "search"; rule_required := None;
     rule_type := Some TString;
     rule_minLength := None; rule_maxLength := Some 200; rule_min := None;
     rule_max := None; rule_pattern := None; rule_enum := None;
     rule_custom := None |}.

Definition sort_rule : ValidationRule :=
  {| rule_field := "sort"; rule_required := None; rule_type := Some TString;
     rule_minLength := None; rule_maxLength := None; rule_min := None;
     rule_max := None; rule_pattern := None;
     rule_enum := Some ["createdAt"; "updatedAt"; "title"; "duration"];
     rule_custom := None |}.

Definition order_rule : ValidationRule :=
  {| rule_field := "order"; rule_required := None;
     rule_type := Some TString;
     rule_minLength := None; rule_maxLength := None; rule_min := None;
     rule_max := None; rule_pattern := None;
     rule_enum := Some ["asc"; "desc"]; rule_custom := None |}.

Definition language_rule : ValidationRule :=
  {| rule_field := "language"; rule_required := None;
     rule_type := Some TString;
     rule_minLength := Some 2; rule_maxLength := Some 5; rule_min := None;
     rule_max := None; rule_pattern := None; rule_enum := None;
     rule_custom := None |}.

Definition detailLevel_rule : ValidationRule :=
  {| rule_field := "detailLevel"; rule_required := None;
     rule_type := Some TString;
     rule_minLength := None; rule_maxLength := None; rule_min := None;
     rule_max := None; rule_pattern := None;
     rule_enum := Some ["brief"; "standard"; "deep"];
     rule_custom := None |}.

Definition list_rules : list ValidationRule :=
  [page_rule; limit_rule; search_rule; sort_rule; order_rule;
   language_rule; detailLevel_rule].

(** ** [middleware/upload.ts] *)

(** The part of the configuration the upload middleware reads. *)
Record UploadLimits := {
  maxFileSize : Z;
  maxFileSizeMB : Z
}.

(** [req.file] as Multer fills it in: the name it stored the file under,
    the path of the stored file and the number of bytes it received. *)
Record StoredFile := {
  sf_filename : string;
  sf_path : string;
  sf_size : Z
}.

(** What Multer hands to the callback of [upload.single]: one of its own
    errors, with its code, or another error. *)
Inductive upload_error :=
| MulterError (code message : string)
| OtherError (message : string).

(** upload.ts (middleware) lines 84-149, from Multer's callback on. *)
Definition singleFileUpload (fieldName : string) (limits : UploadLimits)
    (now : Z) (error : option upload_error) : handled :=
  match error with
  | Some error =>
      let statusCode := 400 in
      let message :=
        match error with
        | MulterError code message =>
            if String.eqb code "LIMIT_FILE_SIZE" then
              "File too large. Maximum size is "
              +:+ pretty (maxFileSizeMB limits) +:+ "MB"
            else if String.eqb code "LIMIT_FILE_COUNT" then
              "Too many files. Only one file is allowed"
            else if String.eqb code "LIMIT_UNEXPECTED_FILE" then
              "Unexpected field name. Expected '" +:+ fieldName +:+ "'"
            else if String.eqb code "LIMIT_FIELD_COUNT" then
              "Too many form fields"
            else if String.eqb code "LIMIT_FIELD_KEY" then
              "Field name too long"
            else if String.eqb code "LIMIT_FIELD_VALUE" then
              "Field value too long"
            else "Upload error: " +:+ message
        | OtherError message => message
        end in
      Sent (error_response now statusCode "Upload Error" message)
  | None => Next
  end.

(** A number with an integral value, in decimal. *)
Definition show_integral (x : float) : string :=
  match JS.to_integer x with
  | Some n => pretty n
  | None => "NaN"
  end.

(** upload.ts (middleware) lines 154-214. *)
Definition validateUploadedFile (limits : UploadLimits) (now : Z)
    (upload : option StoredFile) : M handled :=
  match upload with
  | None =>
      ret (Sent (error_response now 400 "Validation Error"
                   "No file uploaded"))
  | Some uploaded =>
      (* Additional file validation *)
      let errors := [] in
      (* Check file size *)
      let errors :=
        if maxFileSize limits <? sf_size uploaded
        then errors ++
             ["File size "
              +:+ show_integral
                    (JS.Math_round (of_Z (sf_size uploaded) / 1024 / 1024))
              +:+ "MB exceeds maximum of "
              +:+ pretty (maxFileSizeMB limits) +:+ "MB"]
        else errors in
      (* Check file exists on disk *)
      present <- existsSync (sf_path uploaded) ;;
      let errors :=
        if negb present
        then errors ++ ["Uploaded file not found on server"]
        else errors in
      (* Validate file content (basic check) *)
      errors <-
        try_catch
          (size <- statSync (sf_path uploaded) ;;
           ret (if size =? 0 then errors ++ ["Uploaded file is empty"]
                else errors))
          (fun error => ret (errors ++ ["Cannot validate uploaded file"])) ;;
      if (0 <? length errors)%nat then
        (* Clean up invalid file *)
        (present <- existsSync (sf_path uploaded) ;;
         when present (unlinkSync (sf_path uploaded))) ;;;
        ret (Sent {| res_status := 400;
                     res_body :=
                       ErrorBody
                         {| er_error := "Validation Error";
                            er_message := "File validation failed";
                            er_statusCode := 400;
                            er_timestamp := now;
                            er_path := None;
                            er_validation := None;
                            er_details := Some errors |} |})
      else ret Next
  end.

(** upload.ts (middleware) lines 288-304. *)
Definition deleteFile (filePath : string) : M bool :=
  try_catch
    (present <- existsSync filePath ;;
     if present then unlinkSync filePath ;;; ret true
     else ret false)
    (fun error => ret false).

(** ** [routes/upload.ts]: the routes *)

(** The middlewares of [POST /api/upload] between [requireAuth] and the
    handler (upload.ts lines 17-56), run in order until one of them answers:
    [uploadSingle], [validateFile] and [validateBody] with the rules of the
    route.  [error] and [upload] are what Multer made of the request. *)
Definition upload_guards (isValidEmail isValidUrl : string -> bool)
    (limits : UploadLimits) (now : Z) (path : string)
    (error : option upload_error) (upload : option StoredFile)
    (body : value) : M handled :=
  match singleFileUpload "file" limits now error with
  | Sent res => ret (Sent res)
  | Next =>
      outcome <- validateUploadedFile limits now upload ;;
      match outcome with
      | Sent res => ret (Sent res)
      | Next =>
          lift (validateBody isValidEmail isValidUrl upload_rules now path
                  body)
      end
  end.

(** [ProcessorService.getStatusMessage], upload.ts lines 369-390; the
    [default] branch is for a status outside [JobStatus]. *)
Definition getStatusMessage (job : ProcessingJob) : string :=
  match job_status job with
  | queued => "Your request is in the processing queue"
  | processing =>
      if job_progress job <? 30 then "Preparing audio file for processing"
      else if job_progress job <? 70 then "Transcribing audio using AI"
      else if job_progress job <? 90 then "Generating summary and insights"
      else "Finalizing results"
  | completed => "Processing completed successfully"
  | failed =>
      match job_error job with
      | Some error =>
          if String.eqb error ""
          then "Processing failed due to an unknown error"
          else error
      | None => "Processing failed due to an unknown error"
      end
  end.

(** [GET /status/:jobId] after [requireAuth] (upload.ts lines 153-219);
    nothing in the [try] block throws. *)
Definition get_status (now : Z) (user : User) (jobId : string) (s : machine)
  : response :=
  match getJob jobId s with
  | None => error_response now 404 "Not Found" "Processing job not found"
  | Some job =>
      (* Check if user owns the job *)
      if negb (String.eqb (job_userId job) (user_id user)) then
        error_response now 403 "Forbidden"
          "You do not have permission to access this job"
      else
        let response :=
          {| jsr_jobId := job_id job;
             jsr_status := job_status job;
             jsr_progress := job_progress job;
             jsr_message := getStatusMessage job;
             jsr_error := job_error job |} in
        (* If job is completed, include the result *)
        let response :=
          if bool_decide (job_status job = completed)
          then {| jsr_jobId := jsr_jobId response;
                  jsr_status := jsr_status response;
                  jsr_progress := jsr_progress response;
                  jsr_message :=
                    "Processing completed. Use /api/summaries to get results.";
                  jsr_error := jsr_error response |}
          else response in
        success_response now (Some (JobStatusData response)) None
  end.

(** [DELETE /cancel/:jobId] after [requireAuth] (upload.ts lines 228-297). *)
Definition delete_cancel (now : Z) (user : User) (jobId : string)
    (s : machine) : response * machine :=
  match getJob jobId s with
  | None => (error_response now 404 "Not Found" "Processing job not found", s)
  | Some job =>
      (* Check if user owns the job *)
      if negb (String.eqb (job_userId job) (user_id user)) then
        (error_response now 403 "Forbidden"
           "You do not have permission to cancel this job", s)
      else
        (* Try to cancel the job *)
        let (cancelled, s) := cancelJob now jobId s in
        if negb cancelled then
          (error_response now 400 "Bad Request"
             "Job cannot be cancelled (already completed or failed)", s)
        else
          (success_response now None (Some "Job cancelled successfully"), s)
  end.

(** [GET /queue] after [requireAuth] (upload.ts lines 306-329). *)
Definition get_queue (now : Z) (user : User) (s : machine) : response :=
  success_response now (Some (QueueData (getQueueStatus s))) None.

(** ** Notions used in the further properties *)

(** A job that has reached a terminal status. *)
Definition settled (r : ProcessingJob) : Prop :=
  job_status r = completed \/ job_status r = failed.

(** The job [j] is not the one the worker is suspended on. *)
Definition not_in_flight (j : string) (s : machine) : Prop :=
  forall k, worker s = Some k -> suspended_jobId k <> j.

(** [v.key] for a [v] that is neither null nor undefined. *)
Definition property (v : value) (key : string) : value :=
  match v with
  | VObj properties => Value.assoc key properties
  | _ => VUndefined
  end.

Definition nullish (v : value) : Prop := v = VUndefined \/ v = VNull.

(** The TypeError of a property read on null or undefined. *)
Definition cannot_read (v : value) (key : string) : exn :=
  JsError ("Cannot read properties of "
           +:+ match v with VNull => "null" | _ => "undefined" end
           +:+ " (reading '" +:+ key +:+ "')").

(** A key point and a chapter with the defaults filled in. *)
Definition keyPoint_of (point : value) : KeyPoint :=
  {| kp_title := Value.or (property point "title") (VStr "");
     kp_description := Value.or (property point "description") (VStr "");
     kp_timestamp := Value.or (property point "timestamp") VUndefined;
     kp_importance := Value.or (property point "importance") (VStr "medium") |}.

Definition chapter_of (chapter : value) : Chapter :=
  {| ch_title := Value.or (property chapter "title") (VStr "");
     ch_start := Value.or (property chapter "start") (VNum 0);
     ch_end := Value.or (property chapter "end") (VNum 0);
     ch_summary := Value.or (property chapter "summary") (VStr "");
     ch_keyPoints := Value.or (property chapter "keyPoints") (VArr []) |}.

(** The error a required field gives when it is not provided. *)
Definition required_error (rule : ValidationRule) (v : value)
  : ValidationError :=
  {| ve_field := rule_field rule;
     ve_message := rule_field rule +:+ " is required";
     ve_value := v |}.

(** The message of a job being processed, by the stage the worker awaits. *)
Definition stage_message (k : suspended) : string :=
  match k with
  | AwaitMetadata _ _ _ _ => "Preparing audio file for processing"
  | AwaitProcessAudio _ _ _ _ | AwaitTranscription _ _ _ _ _ =>
      "Transcribing audio using AI"
  | AwaitSummary _ _ _ _ _ _ => "Generating summary and insights"
  end.

(** The complaint about a file over the size limit, if it is. *)
Definition too_large (limits : UploadLimits) (uploaded : StoredFile)
  : list string :=
  if maxFileSize limits <? sf_size uploaded
  then ["File size "
        +:+ show_integral
              (JS.Math_round (of_Z (sf_size uploaded) / 1024 / 1024))
        +:+ "MB exceeds maximum of "
        +:+ pretty (maxFileSizeMB limits) +:+ "MB"]
  else [].

(** The error of a field whose value is not a number. *)
Definition not_a_number (field : string) (v : value) : ValidationError :=
  {| ve_field := field; ve_message := field +:+ " must be a number";
     ve_value := v |}.

(** The 400 answer to a query that fails validation. *)
Definition query_rejected (now : Z) (path : string)
    (errors : list ValidationError) : response :=
  {| res_status := 400;
     res_body :=
       ErrorBody {| er_error := "Validation Error";
                    er_message := "Query parameter validation failed";
                    er_statusCode := 400; er_timestamp := now;
                    er_path := Some path; er_validation := Some errors;
                    er_details := None |} |}.

(** The 400 answer to a file that fails validation. *)
Definition file_rejected (now : Z) (errors : list string) : response :=
  {| res_status := 400;
     res_body :=
       ErrorBody {| er_error := "Validation Error";
                    er_message := "File validation failed";
                    er_statusCode := 400; er_timestamp := now;
                    er_path := None; er_validation := None;
                    er_details := Some errors |} |}.

(** Every job that is completed in [s'] was already completed in [s]. *)
Definition completed_before (s' s : machine) : Prop :=
  forall j r, jobs s' !! j = Some r -> job_status r = completed ->
              exists r0, jobs s !! j = Some r0 /\ job_status r0 = completed.

(** The summaries handed to [storeSummary] and the completed jobs
    correspond. *)
Definition archive_ok (s : machine) : Prop :=
  (forall summary,
     summary ∈ stored s ->
     exists r, jobs s !! sum_jobId summary = Some r /\
               job_status r = completed /\
               sum_userId summary = job_userId r) /\
  (forall j r,
     jobs s !! j = Some r -> job_status r = completed ->
     exists summary, summary ∈ stored s /\ sum_jobId summary = j).

(** * Properties *)

(** C5: [estimateProcessingTime] is the documented heuristic (base 60, x0.7
    brief, x1.5 deep, x1.2 with timestamps, +30 for url, rounded to an
    integer) on every request; it gives 60 for (standard, no timestamps,
    file) and 138 for (deep, timestamps, url). *)
Theorem estimateProcessingTime_spec :
  (forall request,
     JS.to_integer (estimateProcessingTime request)
     = Some (estimated_time_spec request)) /\
  (forall f u l,
     estimateProcessingTime
       {| req_type := file; req_file := f; req_url := u;
          req_options := {| lang := l; detail := standard;
                            timestamps := false |} |} = 60%float) /\
  (forall f u l,
     estimateProcessingTime
       {| req_type := url; req_file := f; req_url := u;
          req_options := {| lang := l; detail := deep;
                            timestamps := true |} |} = 138%float).
Proof.
  split; [|split; intros; reflexivity].
  intros [[] f u [l [] []]]; vm_compute; reflexivity.
Qed.

(** ** The summarisation and transcription clients *)

Lemma omap_confidence_nil (segments : list Timestamp) :
  Forall (fun segment => ts_confidence segment = None) segments ->
  available_confidences segments = [].
Proof.
  induction 1 as [|segment segments Hnone _ IH]; [reflexivity|].
  unfold available_confidences in *. cbn. rewrite Hnone. exact IH.
Qed.

Lemma calculateOverallConfidence_default (segments : list Timestamp) :
  available_confidences segments = [] ->
  calculateOverallConfidence (Some segments) = 0.8%float.
Proof.
  intros Hnone. unfold calculateOverallConfidence.
  destruct (decide (length segments = 0%nat)); [reflexivity|].
  fold (available_confidences segments). rewrite Hnone. reflexivity.
Qed.

Lemma calculateOverallConfidence_average (segments : list Timestamp) :
  available_confidences segments <> [] ->
  calculateOverallConfidence (Some segments)
  = round_to_two_decimals (average (available_confidences segments)).
Proof.
  intros Hsome. unfold calculateOverallConfidence.
  destruct (decide (length segments = 0%nat)) as [Hlen|_].
  - destruct segments; [now destruct Hsome | discriminate Hlen].
  - fold (available_confidences segments).
    destruct (decide (length (available_confidences segments) = 0%nat))
      as [Hlen|_]; [|reflexivity].
    destruct (available_confidences segments);
      [now destruct Hsome | discriminate Hlen].
Qed.

Lemma round_half_up_nearest (q : Q) :
  (inject_Z (round_half_up q) - (1 # 2) <= q)%Q /\
  (q < inject_Z (round_half_up q) + (1 # 2))%Q.
Proof.
  unfold round_half_up.
  pose proof (Qfloor_le (q + (1 # 2))) as Hle.
  pose proof (Qlt_floor (q + (1 # 2))) as Hlt.
  rewrite inject_Z_plus in Hlt. split.
  - apply (Qplus_le_l _ _ (1 # 2)). ring_simplify.
    ring_simplify in Hle. exact Hle.
  - apply (Qplus_lt_l _ _ (1 # 2)).
    eapply Qlt_le_trans; [exact Hlt|]. ring_simplify. apply Qle_refl.
Qed.

Lemma round_half_up_scaled (v : Z) (e : Z) :
  e < 0 ->
  round_half_up (v # 2 ^ Z.to_pos (- e))
  = (2 * v + 2 ^ (- e)) / 2 ^ (- e + 1).
Proof.
  intros He. unfold round_half_up, Qfloor, Qplus. cbn [Qnum Qden].
  assert (Hp : Z.pos (2 ^ Z.to_pos (- e)) = 2 ^ (- e)).
  { rewrite Pos2Z.inj_pow, Z2Pos.id by lia. reflexivity. }
  rewrite Pos2Z.inj_mul, Hp, Z.pow_add_r by lia.
  f_equal; lia.
Qed.

Lemma Math_round_nearest (x : float) (negative : bool) (mantissa : positive)
    (exponent : Z) :
  Prim2SF x = S754_finite negative mantissa exponent ->
  exponent < 0 ->
  exists n,
    nearest_integer x = Some n /\
    JS.Math_round x = integer_float negative n.
Proof.
  intros Hx He. unfold nearest_integer, exact_value, JS.Math_round.
  rewrite Hx. cbv zeta.
  destruct (0 <=? exponent) eqn:Hsign; [apply Z.leb_le in Hsign; lia|].
  eexists. split; [reflexivity|].
  rewrite round_half_up_scaled by assumption.
  unfold integer_float. destruct negative; reflexivity.
Qed.

Lemma transcribeAudio_confidences (Math_exp : float -> float)
    (trim : string -> string) (request : TranscriptionRequest)
    (transcription : WhisperTranscription) :
  exists response segments,
    transcribeAudio Math_exp trim request (Ok transcription) = Ok response /\
    tr_segments response = Some segments /\
    available_confidences segments
    = reported_confidences Math_exp transcription /\
    tr_confidence response = calculateOverallConfidence (Some segments).
Proof.
  eexists. eexists. split; [reflexivity|]. cbn [tr_segments tr_confidence].
  split; [reflexivity|]. split; [|reflexivity].
  unfold available_confidences, reported_confidences.
  destruct (wt_segments transcription) as [segments|]; [|reflexivity].
  cbn [fmap option_fmap option_map default from_option id].
  induction segments as [|segment segments IH]; [reflexivity|].
  cbn [map omap list_omap ts_confidence]. cbn [omap list_omap] in IH.
  rewrite IH. unfold truthy_number.
  destruct (ws_avg_logprob segment) as [x|]; [|reflexivity].
  destruct (is_zero x || is_nan x); reflexivity.
Qed.

(** C9: with no segments, or with no segment carrying a confidence, the
    overall confidence is the default 0.8 (which is neither zero nor NaN);
    otherwise it is the average of the confidences present, rounded to two
    decimal places: the product of the average and 100 is replaced by the
    integer nearest to its exact value, a tie going up, before it is
    divided by 100 again.  [transcribeAudio] reports this value for the
    confidences it derives from the segments the service returned, whatever
    they are. *)
Theorem overall_confidence_default_or_rounded_average :
  calculateOverallConfidence None = 0.8%float /\
  calculateOverallConfidence (Some []) = 0.8%float /\
  (forall segments,
     Forall (fun segment => ts_confidence segment = None) segments ->
     calculateOverallConfidence (Some segments) = 0.8%float) /\
  (is_zero 0.8 = false /\ is_nan 0.8 = false) /\
  (forall segments,
     available_confidences segments <> [] ->
     calculateOverallConfidence (Some segments)
     = round_to_two_decimals (average (available_confidences segments))) /\
  (forall x negative mantissa exponent,
     Prim2SF (x * 100) = S754_finite negative mantissa exponent ->
     exponent < 0 ->
     exists q n,
       exact_value (x * 100) = Some q /\
       (inject_Z n - (1 # 2) <= q)%Q /\ (q < inject_Z n + (1 # 2))%Q /\
       round_to_two_decimals x = (integer_float negative n / 100)%float) /\
  (forall Math_exp trim request transcription,
     exists response,
       transcribeAudio Math_exp trim request (Ok transcription) = Ok response
       /\ (reported_confidences Math_exp transcription = [] ->
           tr_confidence response = 0.8%float)
       /\ (reported_confidences Math_exp transcription <> [] ->
           tr_confidence response
           = round_to_two_decimals
               (average (reported_confidences Math_exp transcription)))).
Proof.
  split; [reflexivity|]. split; [reflexivity|].
  split.
  { intros segments Hnone.
    apply calculateOverallConfidence_default, omap_confidence_nil, Hnone. }
  split; [split; reflexivity|].
  split; [exact calculateOverallConfidence_average|].
  split.
  { intros x negative mantissa exponent Hx He.
    destruct (Math_round_nearest _ _ _ _ Hx He) as (n & Hn & Hround).
    unfold nearest_integer in Hn.
    destruct (exact_value (x * 100)) as [q|]; [|discriminate].
    injection Hn as <-. exists q, (round_half_up q).
    split; [reflexivity|].
    destruct (round_half_up_nearest q) as [Hle Hlt].
    split; [exact Hle|]. split; [exact Hlt|].
    unfold round_to_two_decimals. rewrite Hround. reflexivity. }
  intros Math_exp trim request transcription.
  destruct (transcribeAudio_confidences Math_exp trim request transcription)
    as (response & segments & Hresponse & _ & Hsegments & Hconfidence).
  exists response. split; [exact Hresponse|].
  rewrite Hconfidence, <- Hsegments. split.
  - apply calculateOverallConfidence_default.
  - apply calculateOverallConfidence_average.
Qed.

Lemma overall_confidence_witness :
  calculateOverallConfidence (Some Scenario.segments_without_confidence)
  = 0.8%float /\
  calculateOverallConfidence (Some Scenario.segments_with_confidence)
  = 0.85%float.
Proof.
  pose proof overall_confidence_default_or_rounded_average
    as (_ & _ & Hnone & _ & Havg & _).
  split.
  - apply Hnone. repeat constructor.
  - rewrite Havg; [vm_compute; reflexivity | discriminate].
Defined.

(** *** Chapters *)

Lemma generateSummary_chapters (request : SummarizationRequest)
    (outcome : chat_outcome) (summary : SummarizationResponse) :
  timestamps (sq_options request) = false ->
  generateSummary request outcome = Ok summary ->
  sr_chapters summary = None.
Proof.
  intros Hts. unfold generateSummary, generateSummary_body. rewrite Hts.
  destruct outcome as [error|choice0]; [discriminate|].
  destruct (content choice0) as [| |parsedResponse]; try discriminate.
  repeat match goal with
         | |- context [result_bind ?r _] =>
             destruct r; cbn [result_bind]; try discriminate
         end.
  intros [= <-]. reflexivity.
Qed.

Lemma finalSummary_chapters (now : Z) (rand : string)
    (job : ProcessingJob)
    (transcription : TranscriptionResponse) (summary : SummarizationResponse)
    (final : Summary) :
  finalSummary now rand job transcription summary = Ok final ->
  sum_chapters final = sr_chapters summary.
Proof.
  unfold finalSummary.
  destruct (generateTitle (sr_overview summary)); cbn; [|discriminate].
  intros [= <-]. reflexivity.
Qed.

(** ** The parts of [processJob], in closed form *)

Section Pipeline.

Variable config : Config.

Lemma processJob_catch_eq (now : Z) (jobId : string) (error : exn)
    (s : machine) :
  processJob_catch now jobId error s
  = (Ok None, updateJob now jobId (failure_update (message_of error)) s).
Proof. reflexivity. Qed.

Lemma updateJob_present (now : Z) (jobId : string) (updates : Updates)
    (s : machine) (job : ProcessingJob) :
  jobs s !! jobId = Some job ->
  updateJob now jobId updates s
  = set_jobs <[jobId := assign job updates now]>
      (cons (Updated job updates (assign job updates now))) s.
Proof. intros Hjob. unfold updateJob. rewrite Hjob. reflexivity. Qed.

Lemma updateJob_failure (now : Z) (jobId : string) (message : string)
    (s : machine) (job : ProcessingJob) :
  jobs s !! jobId = Some job ->
  updateJob now jobId (failure_update message) s
  = mark_failed now jobId job message s.
Proof.
  intros Hjob. rewrite (updateJob_present _ _ _ _ _ Hjob). reflexivity.
Qed.

Lemma processJob_transcription_eq (now : Z) (jobId : string)
    (job : ProcessingJob)
    (audioFilePath : string) (shouldCleanup : bool)
    (processedAudioPath : string) (outcome : result TranscriptionResponse)
    (s : machine) :
  processJob_transcription now jobId job audioFilePath shouldCleanup
    processedAudioPath outcome s
  = match outcome with
    | Ok transcription =>
        (Ok (Some (AwaitSummary jobId job audioFilePath shouldCleanup
                     processedAudioPath transcription)),
         updateJob now jobId (progress_ 70 no_updates) s)
    | Throw error =>
        (Ok None,
         updateJob now jobId (failure_update (message_of error)) s)
    end.
Proof. destruct outcome; reflexivity. Qed.

Lemma getAudioMetadata_eq (filePath : string) (outcome : exec_outcome)
    (s : machine) :
  exists metadata,
    getAudioMetadata filePath outcome s = (Ok metadata, s) /\
    (is_Some metadata <->
     (exists stdout stderr, outcome = ExecResolved stdout stderr) /\
     is_Some (fs s !! filePath)).
Proof.
  unfold getAudioMetadata, try_catch, bind, statSync, throw, ret.
  destruct outcome as [stdout stderr|error].
  - destruct (fs s !! filePath) as [size|] eqn:Hfile.
    + eexists. split; [reflexivity|]. split; [eauto|]. intros _. eauto.
    + exists None. split; [reflexivity|].
      split; [intros []; discriminate | intros [_ []]; discriminate].
  - exists None. split; [reflexivity|].
    split; [intros []; discriminate | intros [(? & ? & ?) _]; discriminate].
Qed.

Lemma processJob_metadata_eq (now : Z) (jobId : string)
    (job : ProcessingJob)
    (audioFilePath : string) (shouldCleanup : bool) (outcome : exec_outcome)
    (s : machine) :
  processJob_metadata now jobId job audioFilePath shouldCleanup outcome s
  = match getAudioMetadata audioFilePath outcome s with
    | (Ok (Some _), _) =>
        (Ok (Some (AwaitProcessAudio jobId job audioFilePath shouldCleanup)),
         updateJob now jobId (progress_ 30 no_updates) s)
    | _ =>
        (Ok None,
         updateJob now jobId
           (failure_update "Unable to read audio metadata") s)
    end.
Proof.
  destruct (getAudioMetadata_eq audioFilePath outcome s)
    as (metadata & Heq & _).
  unfold processJob_metadata, try_catch, bind. rewrite Heq.
  destruct metadata; reflexivity.
Qed.

Lemma processAudio_eq (inputPath : string) (options : ProcessingOptions)
    (outcome : exec_outcome) (outputSize : Z) (s : machine) :
  processAudio inputPath options outcome outputSize s
  = if tool_invoked options then
      match outcome with
      | ExecResolved _ _ =>
          (Ok (output_path inputPath),
           set_fs <[output_path inputPath := outputSize]> s)
      | ExecRejected _ => (Ok inputPath, s)
      end
    else (Ok inputPath, s).
Proof.
  unfold processAudio, tool_invoked.
  destruct (default false (convertToWav options)),
    (default false (normalizeAudio options)), outcome; reflexivity.
Qed.

Lemma processJob_processAudio_eq (now : Z) (jobId : string)
    (job : ProcessingJob)
    (audioFilePath : string) (shouldCleanup : bool) (outcome : exec_outcome)
    (outputSize : Z) (s : machine) :
  processJob_processAudio now jobId job audioFilePath shouldCleanup outcome
    outputSize s
  = let '(processedAudioPath, s1) :=
      match outcome with
      | ExecResolved _ _ =>
          (output_path audioFilePath,
           set_fs <[output_path audioFilePath := outputSize]> s)
      | ExecRejected _ => (audioFilePath, s)
      end in
    let s2 := updateJob now jobId (progress_ 50 no_updates) s1 in
    match fs s2 !! processedAudioPath with
    | Some _ =>
        (Ok (Some (AwaitTranscription jobId job audioFilePath shouldCleanup
                     processedAudioPath)), s2)
    | None =>
        (Ok None,
         updateJob now jobId
           (failure_update (message_of (enoent "open" processedAudioPath)))
           s2)
    end.
Proof.
  unfold processJob_processAudio, try_catch, bind at 1.
  rewrite processAudio_eq.
  change (tool_invoked _) with true. cbv iota.
  destruct outcome as [stdout stderr|error];
    unfold bind, act, readFileSync, ret;
    match goal with
    | |- context [fs ?s2 !! ?p] => destruct (fs s2 !! p); reflexivity
    end.
Qed.

Lemma fs_updateJob (now : Z) (jobId : string) (updates : Updates)
    (s : machine) :
  fs (updateJob now jobId updates s) = fs s.
Proof. unfold updateJob. destruct (jobs s !! jobId); reflexivity. Qed.

Lemma stored_updateJob (now : Z) (jobId : string) (updates : Updates)
    (s : machine) :
  stored (updateJob now jobId updates s) = stored s.
Proof. unfold updateJob. destruct (jobs s !! jobId); reflexivity. Qed.

Lemma guarded_unlink_eq (guard : bool) (path : string) (s : machine) :
  (present <- existsSync path ;; when (guard && present) (unlinkSync path)) s
  = (Ok tt, set_fs (fun files => if guard then delete path files else files)
              s).
Proof.
  destruct s as [js q b files st w jn].
  unfold bind, existsSync, when, unlinkSync, ret, set_fs.
  cbn [fs jobs jobQueue isProcessing stored worker journal].
  destruct guard; cbn [andb]; [|reflexivity].
  destruct (files !! path) as [size|] eqn:Hpath.
  - rewrite bool_decide_true by eauto.
    cbn [fs jobs jobQueue isProcessing stored worker journal].
    rewrite Hpath. reflexivity.
  - rewrite bool_decide_false by (intros []; discriminate).
    rewrite (delete_id _ _ Hpath). reflexivity.
Qed.

Lemma cleanup_eq {A} (audioFilePath : string) (shouldCleanup : bool)
    (processedAudioPath : string) (k : M A) (s : machine) :
  ((present <- existsSync audioFilePath ;;
    when (shouldCleanup && present) (unlinkSync audioFilePath)) ;;;
   (present <- existsSync processedAudioPath ;;
    when (negb (String.eqb processedAudioPath audioFilePath) && present)
      (unlinkSync processedAudioPath)) ;;;
   k) s
  = k (set_fs (cleaned_up audioFilePath shouldCleanup processedAudioPath) s).
Proof.
  unfold bind at 1. rewrite guarded_unlink_eq.
  unfold bind at 1. rewrite guarded_unlink_eq.
  unfold cleaned_up. destruct s as [js q b files st w jn].
  destruct shouldCleanup,
    (String.eqb processedAudioPath audioFilePath); reflexivity.
Qed.

Lemma processJob_summary_eq (now : Z) (rand : string) (jobId : string)
    (job : ProcessingJob)
    (audioFilePath : string) (shouldCleanup : bool)
    (processedAudioPath : string) (transcription : TranscriptionResponse)
    (outcome : chat_outcome) (s : machine) :
  processJob_summary now rand jobId job audioFilePath shouldCleanup
    processedAudioPath transcription outcome s
  = (Ok None,
     match generateSummary (summarizationRequest job transcription) outcome
     with
     | Throw error =>
         updateJob now jobId (failure_update (message_of error)) s
     | Ok summary =>
         let s := updateJob now jobId (progress_ 90 no_updates) s in
         match finalSummary now rand job transcription summary with
         | Throw error =>
             updateJob now jobId (failure_update (message_of error)) s
         | Ok final =>
             updateJob now jobId
               (status_ completed
                  (progress_ 100 (completedAt_ now no_updates)))
               (set_fs (cleaned_up audioFilePath shouldCleanup
                          processedAudioPath)
                  (storeSummary final s))
         end
     end).
Proof.
  unfold processJob_summary, try_catch, bind at 1, lift.
  destruct (generateSummary _ outcome) as [summary|error]; [|reflexivity].
  unfold bind at 1, act. unfold bind at 1, lift.
  destruct (finalSummary now rand job transcription summary)
    as [final|error]; [|reflexivity].
  unfold bind at 1. rewrite cleanup_eq. reflexivity.
Qed.

Lemma processJob_eq (now : Z) (jobId : string) (s : machine) :
  processJob config now jobId s
  = match jobs s !! jobId with
    | None => (Ok None, s)
    | Some job =>
        let s1 :=
          updateJob now jobId (status_ processing (progress_ 0 no_updates)) s
        in
        if bool_decide (job_type job = file)
           && Str.truthy (job_originalFile job)
        then
          (Ok (Some (AwaitMetadata jobId job
                       (Path.join (uploadDir config)
                          (default "" (job_originalFile job))) false)),
           updateJob now jobId (progress_ 10 no_updates) s1)
        else if bool_decide (job_type job = url) && Str.truthy (job_url job)
        then
          (Ok None,
           updateJob now jobId
             (failure_update "URL download not implemented yet") s1)
        else
          (Ok None,
           updateJob now jobId
             (failure_update "No valid audio source provided") s1)
    end.
Proof.
  unfold processJob. destruct (jobs s !! jobId) as [job|]; [|reflexivity].
  unfold try_catch, bind at 1, act.
  destruct (bool_decide (job_type job = file)
            && Str.truthy (job_originalFile job)); [reflexivity|].
  destruct (bool_decide (job_type job = url) && Str.truthy (job_url job));
    reflexivity.
Qed.

(** No part of [processJob] lets an exception escape. *)
Lemma processJob_never_throws (now : Z) (jobId : string) (s : machine) :
  exists k, fst (processJob config now jobId s) = Ok k.
Proof.
  rewrite processJob_eq. destruct (jobs s !! jobId) as [job|]; [|eauto].
  cbv zeta.
  destruct (bool_decide (job_type job = file)
            && Str.truthy (job_originalFile job)); [eauto|].
  destruct (bool_decide (job_type job = url) && Str.truthy (job_url job));
    eauto.
Qed.

End Pipeline.

(** ** What [updateJob] touches *)

Lemma jobQueue_updateJob (now : Z) (jobId : string) (updates : Updates)
    (s : machine) :
  jobQueue (updateJob now jobId updates s) = jobQueue s.
Proof. unfold updateJob. destruct (jobs s !! jobId); reflexivity. Qed.

Lemma isProcessing_updateJob (now : Z) (jobId : string) (updates : Updates)
    (s : machine) :
  isProcessing (updateJob now jobId updates s) = isProcessing s.
Proof. unfold updateJob. destruct (jobs s !! jobId); reflexivity. Qed.

Lemma worker_updateJob (now : Z) (jobId : string) (updates : Updates)
    (s : machine) :
  worker (updateJob now jobId updates s) = worker s.
Proof. unfold updateJob. destruct (jobs s !! jobId); reflexivity. Qed.

Lemma jobs_updateJob_ne (now : Z) (jobId : string) (updates : Updates)
    (s : machine) (j : string) :
  j <> jobId -> jobs (updateJob now jobId updates s) !! j = jobs s !! j.
Proof.
  intros Hne. unfold updateJob. destruct (jobs s !! jobId); [|reflexivity].
  cbn. apply lookup_insert_ne. congruence.
Qed.

Lemma jobs_updateJob_eq (now : Z) (jobId : string) (updates : Updates)
    (s : machine) :
  jobs (updateJob now jobId updates s) !! jobId
  = (fun job => assign job updates now) <$> jobs s !! jobId.
Proof.
  unfold updateJob. destruct (jobs s !! jobId) as [job|] eqn:Hjob.
  - cbn. apply lookup_insert_eq.
  - rewrite Hjob. reflexivity.
Qed.

Lemma jobs_updateJob_None (now : Z) (jobId : string) (updates : Updates)
    (s : machine) (j : string) :
  jobs (updateJob now jobId updates s) !! j = None <-> jobs s !! j = None.
Proof.
  destruct (decide (j = jobId)) as [->|Hne].
  - rewrite jobs_updateJob_eq. destruct (jobs s !! jobId); cbn; split;
      congruence.
  - rewrite jobs_updateJob_ne by assumption. reflexivity.
Qed.

Create Rewrite HintDb frame.
#[local] Hint Rewrite jobQueue_updateJob isProcessing_updateJob
  worker_updateJob fs_updateJob stored_updateJob : frame.

(** ** The invariant *)

Ltac in_chain := unfold progress_chain; repeat constructor.

Lemma records_cons (jobId : string) (e : entry) (jn : list entry) :
  records jobId (e :: jn)
  = if decide (job_id (entry_after e) = jobId)
    then entry_after e :: records jobId jn
    else records jobId jn.
Proof.
  unfold records. cbn [fmap list_fmap]. rewrite filter_cons.
  destruct (decide (job_id (entry_after e) = jobId)); reflexivity.
Qed.

Lemma latest_cons (jobId : string) (e : entry) (jn : list entry) :
  latest jobId (e :: jn)
  = if decide (job_id (entry_after e) = jobId)
    then Some (entry_after e)
    else latest jobId jn.
Proof.
  unfold latest. rewrite records_cons.
  destruct (decide (job_id (entry_after e) = jobId)); reflexivity.
Qed.

Lemma entry_ok_progress (r : ProcessingJob) (p : Z) (now : Z) :
  (job_progress r, p) ∈ progress_chain ->
  job_status r <> completed ->
  job_type r = file ->
  entry_ok (Updated r (progress_ p no_updates)
              (assign r (progress_ p no_updates) now)).
Proof.
  intros Hchain Hstatus Htype. cbn.
  repeat split; try assumption; try discriminate. congruence.
Qed.

Lemma entry_ok_failure (r : ProcessingJob) (message : string) (now : Z) :
  job_status r <> completed ->
  (job_type r = url ->
   job_status r = processing /\ message = url_failure_message r \/
   job_status r = queued /\ message = "Cancelled by user") ->
  entry_ok (Updated r (failure_update message)
              (assign r (failure_update message) now)).
Proof.
  intros Hstatus Hurl. cbn.
  repeat split; try discriminate; eauto.
  intros Htype. unfold url_move.
  destruct (Hurl Htype) as [[Hst ->]|[Hst ->]]; auto.
Qed.

Lemma registry_ok_updateJob (now : Z) (jobId : string) (updates : Updates)
    (s : machine) (r : ProcessingJob) :
  registry_ok s ->
  jobs s !! jobId = Some r ->
  jobId ∉ jobQueue s ->
  entry_ok (Updated r updates (assign r updates now)) ->
  registry_ok (updateJob now jobId updates s).
Proof.
  intros [Hids Hnodup Hnonempty Hqueue Hjournal Hlatest Hlinked]
    Hjob Hnotin Hentry.
  rewrite (updateJob_present _ _ _ _ _ Hjob).
  assert (Hid : job_id (assign r updates now) = jobId).
  { destruct Hentry as (_ & Hid & _). cbn. rewrite Hid. cbn. eauto. }
  split; cbn [jobs jobQueue journal set_jobs linked].
  - intros j r' Hlookup.
    apply lookup_insert_Some in Hlookup as [[<- <-]|[Hne Hlookup]]; eauto.
  - assumption.
  - assumption.
  - intros j Hj. destruct (Hqueue j Hj) as (r' & Hr' & Hst & Hpr).
    exists r'. rewrite lookup_insert_ne by (intros ->; contradiction).
    auto.
  - constructor; assumption.
  - intros j. rewrite latest_cons. cbn [entry_after]. rewrite Hid.
    destruct (decide (jobId = j)) as [->|Hne].
    + rewrite lookup_insert_eq. reflexivity.
    + rewrite lookup_insert_ne by assumption. apply Hlatest.
  - split; [|assumption]. rewrite Hid, Hlatest. assumption.
Qed.

Lemma in_flight_updateJob (now : Z) (jobId : string) (updates : Updates)
    (s : machine) (p : Z) (t : UploadType) :
  in_flight jobId p t s ->
  upd_type updates = None ->
  upd_status updates = None \/ upd_status updates = Some failed /\ t = file ->
  in_flight jobId (default p (upd_progress updates)) t
    (updateJob now jobId updates s).
Proof.
  intros (Hnotin & r & Hjob & Hp & Ht & Hst) Htype Hstatus.
  split; [rewrite jobQueue_updateJob; assumption|].
  exists (assign r updates now). rewrite jobs_updateJob_eq, Hjob. cbn.
  rewrite Htype, Hp. cbn. repeat split; try assumption.
  destruct Hstatus as [-> | [-> Hfile]]; cbn; auto.
Qed.

(** A progress write on the file job in flight. *)
Lemma advance_ok (now : Z) (jobId : string) (s : machine) (p p' : Z) :
  registry_ok s ->
  in_flight jobId p file s ->
  (p, p') ∈ progress_chain ->
  registry_ok (updateJob now jobId (progress_ p' no_updates) s) /\
  in_flight jobId p' file (updateJob now jobId (progress_ p' no_updates) s).
Proof.
  intros Hreg Hfl Hchain. split.
  - destruct Hfl as (Hnotin & r & Hjob & Hp & Ht & Hst).
    eapply registry_ok_updateJob; eauto.
    apply entry_ok_progress; [rewrite Hp; assumption| |assumption].
    destruct Hst as [Hst|[Hst _]]; rewrite Hst; discriminate.
  - apply (in_flight_updateJob now jobId (progress_ p' no_updates) s p file);
      auto.
Qed.

(** The failure write on the job in flight. *)
Lemma failure_ok (now : Z) (jobId : string) (message : string) (s : machine)
    (p : Z) (t : UploadType) :
  registry_ok s ->
  in_flight jobId p t s ->
  (t = url ->
   forall r, jobs s !! jobId = Some r -> message = url_failure_message r) ->
  registry_ok (updateJob now jobId (failure_update message) s) /\
  (t = file ->
   in_flight jobId p t (updateJob now jobId (failure_update message) s)).
Proof.
  intros Hreg Hfl Hmessage. split.
  - destruct Hfl as (Hnotin & r & Hjob & Hp & Ht & Hst).
    eapply registry_ok_updateJob; eauto.
    apply entry_ok_failure.
    + destruct Hst as [Hst|[Hst _]]; rewrite Hst; discriminate.
    + intros Hurl. left. rewrite Ht in Hurl.
      destruct Hst as [Hst|[_ Hfile]]; [|congruence]. eauto.
  - intros Hfile.
    apply (in_flight_updateJob now jobId (failure_update message) s p t);
      auto.
Qed.

(** The same on a file job. *)
Lemma file_failure_ok (now : Z) (jobId : string) (message : string)
    (s : machine) (p : Z) :
  registry_ok s ->
  in_flight jobId p file s ->
  registry_ok (updateJob now jobId (failure_update message) s) /\
  in_flight jobId p file (updateJob now jobId (failure_update message) s).
Proof.
  intros Hreg Hfl.
  destruct (failure_ok now jobId message s p file Hreg Hfl) as [Hreg' Hfl'];
    [discriminate|auto].
Qed.

(** The completion write on a file job that has reached 90. *)
Lemma completion_ok (now : Z) (jobId : string) (s : machine) :
  registry_ok s ->
  in_flight jobId 90 file s ->
  registry_ok
    (updateJob now jobId
       (status_ completed (progress_ 100 (completedAt_ now no_updates))) s).
Proof.
  intros Hreg (Hnotin & r & Hjob & Hp & Ht & Hst).
  eapply registry_ok_updateJob; eauto.
  assert (job_status r <> completed)
    by (destruct Hst as [Hst|[Hst _]]; rewrite Hst; discriminate).
  cbn. rewrite Hp. repeat split; try discriminate; auto; [in_chain|].
  congruence.
Qed.

Lemma registry_ok_frame (s s' : machine) :
  jobs s' = jobs s -> jobQueue s' = jobQueue s -> journal s' = journal s ->
  registry_ok s -> registry_ok s'.
Proof.
  intros Hjobs Hqueue Hjournal [Hids Hnodup Hne Hq Hj Hlatest Hlinked].
  split; rewrite ?Hjobs, ?Hqueue, ?Hjournal; assumption.
Qed.

Lemma in_flight_frame (jobId : string) (p : Z) (t : UploadType)
    (s s' : machine) :
  jobs s' = jobs s -> jobQueue s' = jobQueue s ->
  in_flight jobId p t s -> in_flight jobId p t s'.
Proof. unfold in_flight. intros -> ->. auto. Qed.

Lemma registry_ok_dequeue (jobId : string) (rest : list string)
    (s : machine) :
  registry_ok s ->
  jobQueue s = jobId :: rest ->
  registry_ok (set_jobQueue rest s) /\
  (jobId ∉ rest) /\
  exists r, jobs s !! jobId = Some r /\ job_status r = queued /\
            job_progress r = 0.
Proof.
  intros [Hids Hnodup Hnonempty Hqueue Hjournal Hlatest Hlinked] Hq.
  rewrite Hq in Hnodup, Hqueue, Hnonempty.
  apply NoDup_cons in Hnodup as [Hnotin Hnodup].
  split; [|split; [assumption | apply Hqueue; left]].
  split; cbn; auto.
  - intros j Hj. apply Hnonempty. right. assumption.
  - intros j Hj. apply Hqueue. right. assumption.
Qed.

(** The first write of [processJob], on a job just taken off the queue. *)
Lemma start_ok (now : Z) (jobId : string) (s : machine) (r : ProcessingJob) :
  registry_ok s ->
  jobId ∉ jobQueue s ->
  jobs s !! jobId = Some r ->
  job_status r = queued ->
  job_progress r = 0 ->
  let s1 :=
    updateJob now jobId (status_ processing (progress_ 0 no_updates)) s in
  registry_ok s1 /\ in_flight jobId 0 (job_type r) s1.
Proof.
  intros Hreg Hnotin Hjob Hst Hpr. cbv zeta. split.
  - eapply registry_ok_updateJob; eauto.
    cbn. rewrite Hpr, Hst.
    repeat split; try discriminate; [in_chain|].
    intros _. left. rewrite Hst. auto.
  - split; [rewrite jobQueue_updateJob; assumption|].
    eexists. rewrite jobs_updateJob_eq, Hjob. cbn. eauto.
Qed.

Section Invariant.

Variable config : Config.

(** [processJob] on the job at the head of the queue. *)
Lemma processJob_ok (now : Z) (jobId : string) (rest : list string)
    (s : machine) :
  registry_ok s ->
  jobQueue s = jobId :: rest ->
  let out := processJob config now jobId (set_jobQueue rest s) in
  registry_ok (snd out) /\
  jobQueue (snd out) = rest /\
  isProcessing (snd out) = isProcessing s /\
  match fst out with
  | Ok (Some k) =>
      in_flight (suspended_jobId k) (stage_progress k) file (snd out)
  | Ok None => True
  | Throw _ => False
  end.
Proof.
  intros Hreg Hq. cbv zeta.
  destruct (registry_ok_dequeue _ _ _ Hreg Hq)
    as (Hreg0 & Hnotin & r & Hjob & Hst & Hpr).
  rewrite processJob_eq. cbn [jobs set_jobQueue]. rewrite Hjob. cbv zeta.
  destruct (start_ok now jobId (set_jobQueue rest s) r Hreg0 Hnotin Hjob
              Hst Hpr) as [Hreg1 Hfl1].
  destruct (bool_decide (job_type r = file)
            && Str.truthy (job_originalFile r)) eqn:Hfile.
  - apply andb_prop in Hfile as [Hfile _].
    apply bool_decide_eq_true in Hfile. rewrite Hfile in Hfl1.
    destruct (advance_ok now jobId _ 0 10 Hreg1 Hfl1) as [Hreg2 Hfl2];
      [in_chain|].
    cbn [fst snd suspended_jobId stage_progress].
    autorewrite with frame. auto.
  - assert (Hurl1 : forall r1,
              jobs (updateJob now jobId
                      (status_ processing (progress_ 0 no_updates))
                      (set_jobQueue rest s)) !! jobId = Some r1 ->
              job_url r1 = job_url r).
    { intros r1. rewrite jobs_updateJob_eq. cbn [jobs set_jobQueue].
      rewrite Hjob. intros [= <-]. reflexivity. }
    destruct (bool_decide (job_type r = url) && Str.truthy (job_url r))
      eqn:Hlink; cbn [fst snd];
      match goal with
      | |- context [failure_update ?m] =>
          destruct (failure_ok now jobId m _ 0 _ Hreg1 Hfl1) as [Hreg2 _]
      end;
      autorewrite with frame; auto;
      intros Htype r1 Hr1; unfold url_failure_message;
      rewrite (Hurl1 r1 Hr1); rewrite Htype in Hlink;
      rewrite bool_decide_true in Hlink by reflexivity;
      cbn [andb] in Hlink; rewrite Hlink; reflexivity.
Qed.

(** The drain loop re-establishes the invariant: it stops either with the
    worker suspended on a job in flight, or idle with the queue empty. *)
Lemma processQueue_loop_ok (now : Z) (queue : list string) (s : machine) :
  registry_ok s ->
  jobQueue s = queue ->
  isProcessing s = true ->
  invariant (processQueue_loop config now queue s).
Proof.
  revert s. induction queue as [|jobId rest IH]; intros s Hreg Hq Hbusy.
  - cbn. split; [|split; reflexivity].
    eapply registry_ok_frame; [..|exact Hreg]; try reflexivity.
    cbn. symmetry. assumption.
  - cbn [processQueue_loop].
    destruct (String.eqb_spec jobId "") as [->|Hne].
    + destruct (registry_ok_dequeue _ _ _ Hreg Hq) as (Hreg0 & _).
      apply IH; auto.
    + pose proof (processJob_ok now jobId rest s Hreg Hq) as Hout.
      cbv zeta in Hout.
      destruct (processJob config now jobId (set_jobQueue rest s))
        as [[[k|]|error] s']; cbn [fst snd] in Hout;
        destruct Hout as (Hreg' & Hq' & Hbusy' & Hk).
      * split.
        -- eapply registry_ok_frame; [..|exact Hreg']; reflexivity.
        -- unfold worker_ok. cbn. split; [congruence|].
           eapply in_flight_frame; [..|exact Hk]; reflexivity.
      * apply IH; auto. congruence.
      * contradiction.
Qed.

End Invariant.

Section Steps.

Variable config : Config.

Lemma resume_ok (now : Z) (out : result (option suspended) * machine) :
  registry_ok (snd out) ->
  isProcessing (snd out) = true ->
  match fst out with
  | Ok (Some k) =>
      in_flight (suspended_jobId k) (stage_progress k) file (snd out)
  | Ok None => True
  | Throw _ => False
  end ->
  invariant (resume config now out).
Proof.
  destruct out as [[[k|]|error] s']; cbn [fst snd resume];
    intros Hreg Hbusy Hk.
  - split.
    + eapply registry_ok_frame; [..|exact Hreg]; reflexivity.
    + unfold worker_ok. cbn. split; [assumption|].
      eapply in_flight_frame; [..|exact Hk]; reflexivity.
  - apply processQueue_loop_ok; auto.
  - contradiction.
Qed.

Lemma metadata_ok (now : Z) (jobId : string)
    (job : ProcessingJob) (audioFilePath : string)
    (shouldCleanup : bool) (outcome : exec_outcome) (s : machine) :
  registry_ok s ->
  isProcessing s = true ->
  in_flight jobId
    (stage_progress (AwaitMetadata jobId job audioFilePath shouldCleanup))
    file s ->
  invariant
    (resume config now
       (processJob_metadata now jobId job audioFilePath shouldCleanup outcome
          s)).
Proof.
  intros Hreg Hbusy Hfl. rewrite processJob_metadata_eq.
  destruct (getAudioMetadata_eq audioFilePath outcome s)
    as (metadata & -> & _).
  destruct metadata as [metadata|].
  - destruct (advance_ok now jobId s _ 30 Hreg Hfl)
      as [Hreg' Hfl']; [cbn; destruct shouldCleanup; in_chain|].
    apply resume_ok; cbn [fst snd]; autorewrite with frame; auto.
  - destruct (file_failure_ok now jobId
                "Unable to read audio metadata" s _ Hreg Hfl) as [Hreg' _].
    apply resume_ok; cbn [fst snd]; autorewrite with frame; auto.
Qed.

Lemma processAudio_ok (now : Z) (jobId : string)
    (job : ProcessingJob) (audioFilePath : string)
    (shouldCleanup : bool) (outcome : exec_outcome) (outputSize : Z)
    (s : machine) :
  registry_ok s ->
  isProcessing s = true ->
  in_flight jobId 30 file s ->
  invariant
    (resume config now
       (processJob_processAudio now jobId job audioFilePath shouldCleanup
          outcome outputSize s)).
Proof.
  intros Hreg Hbusy Hfl. rewrite processJob_processAudio_eq.
  set (out := match outcome with
              | ExecResolved _ _ =>
                  (output_path audioFilePath,
                   set_fs <[output_path audioFilePath := outputSize]> s)
              | ExecRejected _ => (audioFilePath, s)
              end).
  assert (Hframe : jobs (snd out) = jobs s /\
                   jobQueue (snd out) = jobQueue s /\
                   journal (snd out) = journal s /\
                   isProcessing (snd out) = isProcessing s).
  { subst out. destruct outcome; cbn; auto. }
  destruct out as [processedAudioPath s1]. cbn [snd] in Hframe.
  destruct Hframe as (Hjobs & Hqueue & Hjournal & Hproc).
  assert (Hreg1 : registry_ok s1) by (eapply registry_ok_frame; eauto).
  assert (Hfl1 : in_flight jobId 30 file s1)
    by (eapply in_flight_frame; eauto).
  destruct (advance_ok now jobId s1 30 50 Hreg1 Hfl1)
    as [Hreg2 Hfl2]; [in_chain|].
  cbv zeta.
  destruct (fs _ !! processedAudioPath).
  - apply resume_ok; cbn [fst snd]; autorewrite with frame; auto. congruence.
  - match goal with
    | |- context [failure_update ?m] =>
        destruct (file_failure_ok now jobId m _ 50 Hreg2 Hfl2)
          as [Hreg3 _]
    end.
    apply resume_ok; cbn [fst snd]; autorewrite with frame; auto. congruence.
Qed.

Lemma transcription_ok (now : Z) (jobId : string)
    (job : ProcessingJob)
    (audioFilePath : string) (shouldCleanup : bool)
    (processedAudioPath : string) (outcome : result TranscriptionResponse)
    (s : machine) :
  registry_ok s ->
  isProcessing s = true ->
  in_flight jobId 50 file s ->
  invariant
    (resume config now
       (processJob_transcription now jobId job audioFilePath shouldCleanup
          processedAudioPath outcome s)).
Proof.
  intros Hreg Hbusy Hfl. rewrite processJob_transcription_eq.
  destruct outcome as [transcription|error].
  - destruct (advance_ok now jobId s 50 70 Hreg Hfl)
      as [Hreg' Hfl']; [in_chain|].
    apply resume_ok; cbn [fst snd]; autorewrite with frame; auto.
  - destruct (file_failure_ok now jobId (message_of error) s 50
                Hreg Hfl) as [Hreg' _].
    apply resume_ok; cbn [fst snd]; autorewrite with frame; auto.
Qed.

Lemma summary_ok (now : Z) (rand : string) (jobId : string)
    (job : ProcessingJob)
    (audioFilePath : string) (shouldCleanup : bool)
    (processedAudioPath : string) (transcription : TranscriptionResponse)
    (outcome : chat_outcome) (s : machine) :
  registry_ok s ->
  isProcessing s = true ->
  in_flight jobId 70 file s ->
  invariant
    (resume config now
       (processJob_summary now rand jobId job audioFilePath shouldCleanup
          processedAudioPath transcription outcome s)).
Proof.
  intros Hreg Hbusy Hfl. rewrite processJob_summary_eq.
  destruct (generateSummary _ outcome) as [summary|error].
  - destruct (advance_ok now jobId s 70 90 Hreg Hfl)
      as [Hreg1 Hfl1]; [in_chain|].
    cbv zeta.
    destruct (finalSummary now rand job transcription summary)
      as [final|error].
    + apply resume_ok; cbn [fst snd]; autorewrite with frame; cbn;
        autorewrite with frame; auto.
      apply completion_ok.
      * eapply registry_ok_frame; [..|exact Hreg1]; reflexivity.
      * eapply in_flight_frame; [..|exact Hfl1]; reflexivity.
    + destruct (file_failure_ok now jobId (message_of error) _ 90
                  Hreg1 Hfl1) as [Hreg2 _].
      apply resume_ok; cbn [fst snd]; autorewrite with frame; auto.
  - destruct (file_failure_ok now jobId (message_of error) s 70
                Hreg Hfl) as [Hreg' _].
    apply resume_ok; cbn [fst snd]; autorewrite with frame; auto.
Qed.

End Steps.

(** *** The queue under [cancelJob] *)

Lemma remove_first_subset (jobId j : string) (queue : list string) :
  j ∈ remove_first jobId queue -> j ∈ queue.
Proof.
  induction queue as [|x queue IH]; cbn; [auto|].
  destruct (String.eqb_spec x jobId) as [->|Hne]; intros Hj.
  - right. assumption.
  - apply elem_of_cons in Hj as [->|Hj]; [left | right; auto].
Qed.

Lemma remove_first_NoDup (jobId : string) (queue : list string) :
  NoDup queue -> NoDup (remove_first jobId queue).
Proof.
  induction 1 as [|x queue Hx Hnodup IH]; cbn; [constructor|].
  destruct (String.eqb_spec x jobId) as [->|Hne]; [assumption|].
  constructor; [|assumption].
  intros Hin. apply Hx. eapply remove_first_subset, Hin.
Qed.

Lemma remove_first_gone (jobId : string) (queue : list string) :
  NoDup queue -> jobId ∉ remove_first jobId queue.
Proof.
  induction 1 as [|x queue Hx Hnodup IH]; cbn; [apply not_elem_of_nil|].
  destruct (String.eqb_spec x jobId) as [->|Hne]; [assumption|].
  apply not_elem_of_cons. split; [congruence | assumption].
Qed.

Section Requests.

Variable config : Config.

Lemma cancelJob_ok (now : Z) (jobId : string) (s : machine) :
  invariant s -> single_worker s -> invariant (snd (cancelJob now jobId s)).
Proof.
  intros [Hreg Hworker] Hone. unfold cancelJob.
  destruct (jobs s !! jobId) as [job|] eqn:Hjob; [|split; assumption].
  destruct (bool_decide (job_status job = completed)
            || bool_decide (job_status job = failed)) eqn:Hterminal;
    [split; assumption|].
  apply orb_false_elim in Hterminal as [Hc Hf].
  apply bool_decide_eq_false in Hc, Hf. cbn [snd].
  set (s0 := if bool_decide (job_status job = queued)
             then set_jobQueue (remove_first jobId (jobQueue s)) s else s).
  assert (Hjobs0 : jobs s0 = jobs s)
    by (subst s0; destruct (bool_decide _); reflexivity).
  assert (Hjournal0 : journal s0 = journal s)
    by (subst s0; destruct (bool_decide _); reflexivity).
  assert (Hproc0 : isProcessing s0 = isProcessing s)
    by (subst s0; destruct (bool_decide _); reflexivity).
  assert (Hworker0 : worker s0 = worker s)
    by (subst s0; destruct (bool_decide _); reflexivity).
  assert (Hsub : forall j, j ∈ jobQueue s0 -> j ∈ jobQueue s).
  { subst s0. destruct (bool_decide _); cbn; [|auto].
    intros j. apply remove_first_subset. }
  assert (Hgone : jobId ∉ jobQueue s0).
  { subst s0. case_bool_decide as Hq; cbn.
    - apply remove_first_gone, Hreg.
    - intros Hin. destruct (ok_queue _ Hreg _ Hin) as (r & Hr & Hst & _).
      congruence. }
  assert (Hidle : jobQueue s = [] -> jobQueue s0 = []).
  { subst s0. destruct (bool_decide _); cbn; [|auto]. intros ->. reflexivity. }
  assert (Hreg0 : registry_ok s0).
  { destruct Hreg as [Hids Hnodup Hnonempty Hqueue Hjournal Hlatest Hlinked].
    split; rewrite ?Hjobs0, ?Hjournal0; auto.
    subst s0. destruct (bool_decide _); cbn; [|assumption].
    apply remove_first_NoDup. assumption. }
  rewrite <- Hjobs0 in Hjob.
  split.
  - eapply registry_ok_updateJob; eauto.
    apply entry_ok_failure; [assumption|].
    intros Hurl. right. split; [|reflexivity].
    destruct (job_status job) eqn:Hst; try congruence.
    rewrite Hjobs0 in Hjob.
    specialize (Hone jobId job Hjob Hst). unfold worker_ok in Hworker.
    destruct (worker s) as [k|]; [|discriminate].
    injection Hone as Hk. cbn in Hk.
    destruct Hworker as (_ & _ & r & Hr & _ & Hfile & _).
    rewrite Hk in Hr. congruence.
  - unfold worker_ok in *. autorewrite with frame.
    rewrite Hworker0, Hproc0.
    destruct (worker s) as [k|].
    + destruct Hworker as (Hbusy & Hnotin & r & Hr & Hp & Ht & Hst).
      split; [assumption|].
      assert (Hfl0 : in_flight (suspended_jobId k) (stage_progress k)
                       file s0).
      { split; [intros Hin; apply Hnotin, Hsub, Hin|].
        exists r. rewrite Hjobs0. auto. }
      destruct (decide (suspended_jobId k = jobId)) as [Heq|Hne].
      * rewrite Heq in *. eapply file_failure_ok; eauto.
      * destruct Hfl0 as (Hnotin0 & r0 & Hr0 & Hrest).
        split; [autorewrite with frame; assumption|].
        exists r0. rewrite jobs_updateJob_ne by assumption. auto.
    + destruct Hworker as [Hidle' Hempty]. auto.
Qed.

Lemma createJob_eq (now : Z) (rand : string) (user : User)
    (request : UploadRequest) (s : machine) :
  createJob config now rand user request s
  = (generateJobId now rand,
     if isProcessing s then enqueued now rand user request s
     else processQueue_loop config now [generateJobId now rand]
            (set_isProcessing true (enqueued now rand user request s))) \/
  isProcessing s = false /\ jobQueue s <> [].
Proof.
  destruct (isProcessing s) eqn:Hbusy.
  - left. unfold createJob. cbv zeta. cbn [isProcessing set_jobQueue set_jobs].
    rewrite Hbusy. reflexivity.
  - destruct (jobQueue s) as [|j q] eqn:Hq; [left|right; split; congruence].
    unfold createJob. cbv zeta. cbn [isProcessing set_jobQueue set_jobs].
    rewrite Hbusy. unfold processQueue.
    cbn [isProcessing jobQueue set_jobQueue set_jobs]. rewrite Hbusy, Hq.
    reflexivity.
Qed.

Lemma enqueued_ok (now : Z) (rand : string) (user : User)
    (request : UploadRequest) (s : machine) :
  registry_ok s ->
  jobs s !! generateJobId now rand = None ->
  registry_ok (enqueued now rand user request s) /\
  (generateJobId now rand ∉ jobQueue s).
Proof.
  intros Hreg Hfresh.
  set (jobId := generateJobId now rand) in *.
  assert (Hnotin : jobId ∉ jobQueue s).
  { intros Hin. destruct (ok_queue _ Hreg _ Hin) as (r & Hr & _). congruence. }
  split; [|assumption].
  destruct Hreg as [Hids Hnodup Hnonempty Hqueue Hjournal Hlatest Hlinked].
  unfold enqueued. fold jobId. split; cbn.
  - intros j r Hlookup.
    apply lookup_insert_Some in Hlookup as [[<- <-]|[_ Hlookup]]; eauto.
  - apply NoDup_app. repeat split; [assumption| |apply NoDup_singleton].
    intros j Hj Hj'. apply list_elem_of_singleton in Hj' as ->.
    contradiction.
  - intros j Hj. apply elem_of_app in Hj as [Hj|Hj]; [auto|].
    apply list_elem_of_singleton in Hj as ->. discriminate.
  - intros j Hj. apply elem_of_app in Hj as [Hj|Hj].
    + destruct (Hqueue j Hj) as (r & Hr & Hrest). exists r.
      rewrite lookup_insert_ne by congruence. auto.
    + apply list_elem_of_singleton in Hj as ->. eexists.
      rewrite lookup_insert_eq. eauto.
  - constructor; [split; reflexivity | assumption].
  - intros j. rewrite latest_cons. cbn [entry_after job_id new_job].
    fold jobId. destruct (decide (jobId = j)) as [->|Hne].
    + rewrite lookup_insert_eq. reflexivity.
    + rewrite lookup_insert_ne by assumption. apply Hlatest.
  - split; [|assumption]. cbn [job_id new_job]. fold jobId.
    rewrite Hlatest. assumption.
Qed.

Lemma createJob_ok (now : Z) (rand : string) (user : User)
    (request : UploadRequest) (s : machine) :
  invariant s ->
  jobs s !! generateJobId now rand = None ->
  invariant (snd (createJob config now rand user request s)).
Proof.
  intros [Hreg Hworker] Hfresh.
  destruct (enqueued_ok now rand user request s Hreg Hfresh)
    as [Hreg2 Hnotin].
  unfold worker_ok in Hworker.
  destruct (createJob_eq now rand user request s) as [->|[Hidle Hq]].
  2:{ destruct (worker s); destruct Hworker; congruence. }
  cbn [snd]. destruct (isProcessing s) eqn:Hbusy.
  - split; [assumption|]. unfold worker_ok.
    change (worker (enqueued now rand user request s)) with (worker s).
    destruct (worker s) as [k|]; [|destruct Hworker; discriminate].
    destruct Hworker as (_ & Hnotin' & r & Hr & Hrest).
    split; [exact Hbusy|]. split.
    + cbn. intros Hin. apply elem_of_app in Hin as [Hin|Hin];
        [contradiction|].
      apply list_elem_of_singleton in Hin. congruence.
    + exists r. cbn. rewrite lookup_insert_ne by congruence. auto.
  - destruct (worker s) as [k|]; [destruct Hworker; congruence|].
    destruct Hworker as [_ Hq].
    apply processQueue_loop_ok; [|cbn; rewrite Hq; reflexivity|reflexivity].
    eapply registry_ok_frame; [..|exact Hreg2]; reflexivity.
Qed.

End Requests.

(** *** The registry only grows by [createJob] *)

Section Ids.

Variable config : Config.

Lemma processJob_ids (now : Z) (jobId : string) (s : machine) (j : string) :
  jobs (snd (processJob config now jobId s)) !! j = None
  <-> jobs s !! j = None.
Proof.
  rewrite processJob_eq. destruct (jobs s !! jobId) as [job|]; [|reflexivity].
  cbv zeta.
  destruct (bool_decide (job_type job = file)
            && Str.truthy (job_originalFile job));
    [|destruct (bool_decide (job_type job = url)
                && Str.truthy (job_url job))];
    cbn [snd]; rewrite !jobs_updateJob_None; reflexivity.
Qed.

Lemma processQueue_loop_ids (now : Z) (queue : list string) (s : machine)
    (j : string) :
  jobs (processQueue_loop config now queue s) !! j = None
  <-> jobs s !! j = None.
Proof.
  revert s. induction queue as [|jobId rest IH]; intros s; [reflexivity|].
  cbn [processQueue_loop].
  destruct (String.eqb jobId ""); [rewrite IH; reflexivity|].
  pose proof (processJob_ids now jobId (set_jobQueue rest s) j) as Hids.
  destruct (processJob config now jobId (set_jobQueue rest s))
    as [[[k|]|error] s']; cbn [snd] in Hids; rewrite ?IH; exact Hids.
Qed.

Lemma resume_ids (now : Z) (out : result (option suspended) * machine)
    (j : string) :
  jobs (resume config now out) !! j = None <-> jobs (snd out) !! j = None.
Proof.
  destruct out as [[[k|]|error] s']; cbn [resume snd];
    rewrite ?processQueue_loop_ids; reflexivity.
Qed.

Lemma step_ids (s : machine) (e : event) (j : string) :
  j ∉ created_ids [e] ->
  jobs s !! j = None ->
  jobs (step config s e) !! j = None.
Proof.
  intros Hnew Hnone.
  destruct e as [now rand user request|now jobId|now outcome
                |now outcome outputSize|now outcome|now rand outcome
                |now path size|now path];
    cbn [step]; try (destruct (worker s) as [[]|]; assumption).
  - unfold createJob. cbv zeta. cbn [snd].
    assert (Hne : generateJobId now rand <> j).
    { intros <-. apply Hnew. cbn. left. }
    match goal with |- context [if ?b then _ else _] => destruct b end.
    + cbn. rewrite lookup_insert_ne by assumption. assumption.
    + unfold processQueue.
      match goal with |- context [if ?b then _ else _] => destruct b end;
        rewrite ?processQueue_loop_ids; cbn;
        rewrite lookup_insert_ne by assumption; assumption.
  - unfold cancelJob. destruct (jobs s !! jobId) as [job|]; [|assumption].
    destruct (bool_decide _ || bool_decide _); [assumption|].
    cbn [snd]. rewrite jobs_updateJob_None.
    destruct (bool_decide _); assumption.
  - destruct (worker s) as [[]|]; try assumption.
    rewrite resume_ids, processJob_metadata_eq.
    destruct (getAudioMetadata_eq audioFilePath outcome s)
      as (metadata & -> & _).
    destruct metadata; cbn [snd]; rewrite jobs_updateJob_None; assumption.
  - destruct (worker s) as [[]|]; try assumption.
    rewrite resume_ids, processJob_processAudio_eq.
    destruct outcome; cbv zeta;
      match goal with |- context [fs ?s2 !! ?p] => destruct (fs s2 !! p) end;
      cbn [snd]; rewrite !jobs_updateJob_None; assumption.
  - destruct (worker s) as [[]|]; try assumption.
    rewrite resume_ids, processJob_transcription_eq.
    destruct outcome; cbn [snd]; rewrite jobs_updateJob_None; assumption.
  - destruct (worker s) as [[]|]; try assumption.
    rewrite resume_ids, processJob_summary_eq. cbn [snd].
    destruct (generateSummary _ outcome) as [summary|error]; cbv zeta;
      [destruct (finalSummary now rand job transcription summary)|];
      repeat first [rewrite jobs_updateJob_None
                   | progress cbn [jobs set_fs storeSummary set_stored]];
      assumption.
Qed.

Lemma invariant_set_fs (f : gmap string Z -> gmap string Z) (s : machine) :
  invariant s -> invariant (set_fs f s).
Proof.
  intros [Hreg Hworker]. split.
  - eapply registry_ok_frame; [..|exact Hreg]; reflexivity.
  - unfold worker_ok in *. cbn [worker set_fs].
    destruct (worker s) as [k|]; [|exact Hworker].
    destruct Hworker as [Hbusy Hfl]. split; [exact Hbusy|].
    eapply in_flight_frame; [..|exact Hfl]; reflexivity.
Qed.

(** One turn of the event loop preserves the invariant. *)
Lemma step_ok (s : machine) (e : event) :
  invariant s -> single_worker s -> fresh s e ->
  invariant (step config s e).
Proof.
  intros Hinv Hone Hfresh.
  destruct e as [now rand user request|now jobId|now outcome
                |now outcome outputSize|now outcome|now rand outcome
                |now path size|now path];
    cbn [step];
    try (destruct (worker s) as [[]|] eqn:Hw;
         apply invariant_set_fs; assumption).
  - apply createJob_ok; assumption.
  - apply cancelJob_ok; assumption.
  - destruct (worker s) as [[]|] eqn:Hw; try assumption.
    destruct Hinv as [Hreg Hworker]. unfold worker_ok in Hworker.
    rewrite Hw in Hworker. destruct Hworker.
    apply metadata_ok; assumption.
  - destruct (worker s) as [[]|] eqn:Hw; try assumption.
    destruct Hinv as [Hreg Hworker]. unfold worker_ok in Hworker.
    rewrite Hw in Hworker. destruct Hworker.
    apply processAudio_ok; assumption.
  - destruct (worker s) as [[]|] eqn:Hw; try assumption.
    destruct Hinv as [Hreg Hworker]. unfold worker_ok in Hworker.
    rewrite Hw in Hworker. destruct Hworker.
    apply transcription_ok; assumption.
  - destruct (worker s) as [[]|] eqn:Hw; try assumption.
    destruct Hinv as [Hreg Hworker]. unfold worker_ok in Hworker.
    rewrite Hw in Hworker. destruct Hworker.
    apply summary_ok; assumption.
Qed.

(** *** At most one job is being processed *)

Lemma only_processing_weaken (current : option string) (s : machine) :
  only_processing None s -> only_processing current s.
Proof. intros Hop j r Hr Hst. discriminate (Hop j r Hr Hst). Qed.

Lemma only_processing_frame (current : option string) (s s' : machine) :
  jobs s' = jobs s -> only_processing current s -> only_processing current s'.
Proof. unfold only_processing. intros ->. auto. Qed.

Lemma only_processing_update (now : Z) (jobId : string) (updates : Updates)
    (s : machine) :
  only_processing (Some jobId) s ->
  only_processing (Some jobId) (updateJob now jobId updates s).
Proof.
  intros Hop j r Hr Hst. destruct (decide (j = jobId)) as [->|Hne];
    [reflexivity|].
  rewrite jobs_updateJob_ne in Hr by assumption. eauto.
Qed.

Lemma only_processing_terminal (now : Z) (jobId : string) (updates : Updates)
    (st : JobStatus) (current : option string) (s : machine) :
  upd_status updates = Some st ->
  st <> processing ->
  only_processing current s \/ only_processing (Some jobId) s ->
  only_processing current (updateJob now jobId updates s).
Proof.
  intros Hupd Hst Hop j r Hr Hproc.
  destruct (decide (j = jobId)) as [->|Hne].
  - rewrite jobs_updateJob_eq in Hr.
    destruct (jobs s !! jobId) as [r0|]; [|discriminate].
    injection Hr as <-. cbn in Hproc. rewrite Hupd in Hproc. cbn in Hproc.
    congruence.
  - rewrite jobs_updateJob_ne in Hr by assumption.
    destruct Hop as [Hop|Hop]; [eauto|].
    specialize (Hop j r Hr Hproc). congruence.
Qed.

Lemma processJob_single (now : Z) (jobId : string) (rest : list string)
    (s : machine) :
  registry_ok s ->
  jobQueue s = jobId :: rest ->
  only_processing None s ->
  let out := processJob config now jobId (set_jobQueue rest s) in
  only_processing
    (match fst out with
     | Ok (Some k) => Some (suspended_jobId k)
     | _ => None
     end) (snd out).
Proof.
  intros Hreg Hq Hop. cbv zeta.
  destruct (registry_ok_dequeue _ _ _ Hreg Hq)
    as (_ & _ & r & Hjob & _ & _).
  rewrite processJob_eq. cbn [jobs set_jobQueue]. rewrite Hjob. cbv zeta.
  assert (Hop1 : only_processing (Some jobId)
                   (updateJob now jobId
                      (status_ processing (progress_ 0 no_updates))
                      (set_jobQueue rest s))).
  { apply only_processing_update, only_processing_weaken.
    eapply only_processing_frame; [|exact Hop]. reflexivity. }
  destruct (bool_decide (job_type r = file)
            && Str.truthy (job_originalFile r)).
  - cbn [fst snd suspended_jobId].
    apply only_processing_update. assumption.
  - destruct (bool_decide (job_type r = url) && Str.truthy (job_url r));
      cbn [fst snd];
      (eapply only_processing_terminal; [reflexivity|discriminate|auto]).
Qed.

Lemma processQueue_loop_single (now : Z) (queue : list string) (s : machine) :
  registry_ok s ->
  jobQueue s = queue ->
  only_processing None s ->
  single_worker (processQueue_loop config now queue s).
Proof.
  revert s. induction queue as [|jobId rest IH]; intros s Hreg Hq Hop.
  - cbn. eapply only_processing_frame; [|exact Hop]. reflexivity.
  - cbn [processQueue_loop].
    destruct (String.eqb_spec jobId "") as [->|Hne].
    + destruct (registry_ok_dequeue _ _ _ Hreg Hq) as (Hreg0 & _).
      apply IH; auto.
    + pose proof (processJob_ok config now jobId rest s Hreg Hq) as Hout.
      pose proof (processJob_single now jobId rest s Hreg Hq Hop) as Hone.
      cbv zeta in Hout, Hone.
      destruct (processJob config now jobId (set_jobQueue rest s))
        as [[[k|]|error] s']; cbn [fst snd] in Hout, Hone;
        destruct Hout as (Hreg' & Hq' & _ & Hk).
      * unfold single_worker. cbn.
        eapply only_processing_frame; [|exact Hone]. reflexivity.
      * apply IH; auto.
      * contradiction.
Qed.

Lemma resume_single (now : Z) (out : result (option suspended) * machine) :
  registry_ok (snd out) ->
  only_processing
    (match fst out with
     | Ok (Some k) => Some (suspended_jobId k)
     | _ => None
     end) (snd out) ->
  single_worker (resume config now out).
Proof.
  destruct out as [[[k|]|error] s']; cbn [fst snd resume]; intros Hreg Hop.
  - unfold single_worker. cbn.
    eapply only_processing_frame; [|exact Hop]. reflexivity.
  - apply processQueue_loop_single; auto.
  - unfold single_worker. cbn.
    eapply only_processing_frame; [|exact Hop]. reflexivity.
Qed.

Ltac terminal :=
  eapply only_processing_terminal; [reflexivity | discriminate | auto].

(** One turn of the event loop leaves at most one job in processing. *)
Lemma step_single (s : machine) (e : event) :
  invariant s -> single_worker s -> fresh s e ->
  single_worker (step config s e).
Proof.
  intros Hinv Hone Hfresh.
  pose proof (step_ok s e Hinv Hone Hfresh) as Hinv'.
  destruct Hinv as [Hreg Hworker]. unfold worker_ok in Hworker.
  unfold single_worker in Hone.
  destruct e as [now rand user request|now jobId|now outcome
                |now outcome outputSize|now outcome|now rand outcome
                |now path size|now path];
    cbn [step] in *;
    try (destruct (worker s) as [[]|] eqn:Hw; unfold single_worker;
         cbn [worker set_fs]; rewrite Hw;
         (eapply only_processing_frame; [|exact Hone]); reflexivity).
  - (* createJob *)
    destruct (enqueued_ok now rand user request s Hreg Hfresh)
      as [Hreg2 Hnotin].
    assert (Hop2 : only_processing (suspended_jobId <$> worker s)
                     (enqueued now rand user request s)).
    { intros j r Hr Hst. cbn in Hr.
      apply lookup_insert_Some in Hr as [[<- <-]|[_ Hr]];
        [discriminate Hst | eauto]. }
    destruct (createJob_eq config now rand user request s) as [->|[Hidle Hq]].
    2:{ destruct (worker s); destruct Hworker; congruence. }
    cbn [snd]. destruct (isProcessing s) eqn:Hbusy; [exact Hop2|].
    destruct (worker s) as [k|]; [destruct Hworker; congruence|].
    destruct Hworker as [_ Hq].
    apply processQueue_loop_single.
    + eapply registry_ok_frame; [..|exact Hreg2]; reflexivity.
    + cbn. rewrite Hq. reflexivity.
    + eapply only_processing_frame; [|exact Hop2]. reflexivity.
  - (* cancelJob *)
    unfold single_worker, cancelJob in *.
    destruct (jobs s !! jobId) as [job|]; [|assumption].
    destruct (bool_decide _ || bool_decide _); [assumption|].
    cbn [snd]. rewrite worker_updateJob.
    assert (Hw : forall s0 : machine,
              (if bool_decide (job_status job = queued)
               then set_jobQueue (remove_first jobId (jobQueue s)) s
               else s) = s0 -> worker s0 = worker s /\ jobs s0 = jobs s).
    { intros s0 <-. destruct (bool_decide _); split; reflexivity. }
    destruct (Hw _ eq_refl) as [-> Hjobs].
    terminal. left. eapply only_processing_frame; eauto.
  - destruct (worker s) as [[]|] eqn:Hw; try (unfold single_worker;
      rewrite Hw; assumption).
    apply resume_single; [|clear Hinv'].
    + destruct Hinv' as [Hreg' _]. revert Hreg'.
      rewrite processJob_metadata_eq.
      destruct (getAudioMetadata_eq audioFilePath outcome s)
        as (metadata & -> & _).
      destruct Hworker as [Hbusy Hfl].
      destruct metadata as [metadata|]; cbn [fst snd]; intros _.
      * eapply advance_ok; eauto. cbn. destruct shouldCleanup; in_chain.
      * eapply file_failure_ok; eauto.
    + rewrite processJob_metadata_eq.
      destruct (getAudioMetadata_eq audioFilePath outcome s)
        as (metadata & -> & _).
      destruct metadata; cbn [fst snd suspended_jobId];
        [apply only_processing_update; assumption | terminal].
  - destruct (worker s) as [[]|] eqn:Hw; try (unfold single_worker;
      rewrite Hw; assumption).
    destruct Hworker as [Hbusy Hfl].
    rewrite processJob_processAudio_eq.
    set (out := match outcome with
                | ExecResolved _ _ =>
                    (output_path audioFilePath,
                     set_fs <[output_path audioFilePath := outputSize]> s)
                | ExecRejected _ => (audioFilePath, s)
                end).
    assert (Hframe : jobs (snd out) = jobs s /\
                     jobQueue (snd out) = jobQueue s /\
                     journal (snd out) = journal s).
    { subst out. destruct outcome; cbn; auto. }
    destruct out as [processedAudioPath s1]. cbn [snd] in Hframe.
    destruct Hframe as (Hjobs & Hqueue & Hjournal).
    assert (Hreg1 : registry_ok s1) by (eapply registry_ok_frame; eauto).
    assert (Hfl1 : in_flight jobId 30 file s1)
      by (eapply in_flight_frame; eauto).
    assert (Hop1 : only_processing (Some jobId) s1)
      by (eapply only_processing_frame; eauto).
    destruct (advance_ok now jobId s1 30 50 Hreg1 Hfl1)
      as [Hreg2 Hfl2]; [in_chain|].
    cbv zeta. destruct (fs _ !! processedAudioPath).
    + apply resume_single; cbn [fst snd suspended_jobId]; auto.
      apply only_processing_update. assumption.
    + apply resume_single; cbn [fst snd].
      * eapply file_failure_ok; eauto.
      * terminal. right. apply only_processing_update. assumption.
  - destruct (worker s) as [[]|] eqn:Hw; try (unfold single_worker;
      rewrite Hw; assumption).
    destruct Hworker as [Hbusy Hfl].
    rewrite processJob_transcription_eq.
    destruct outcome as [transcription|error];
      apply resume_single; cbn [fst snd suspended_jobId].
    + eapply advance_ok; eauto. in_chain.
    + apply only_processing_update. assumption.
    + eapply file_failure_ok; eauto.
    + terminal.
  - destruct (worker s) as [[]|] eqn:Hw; try (unfold single_worker;
      rewrite Hw; assumption).
    destruct Hworker as [Hbusy Hfl].
    rewrite processJob_summary_eq.
    apply resume_single; cbn [fst snd].
    + destruct (generateSummary _ outcome) as [summary|error];
        [|eapply file_failure_ok; eauto].
      destruct (advance_ok now jobId s 70 90 Hreg Hfl)
        as [Hreg1 Hfl1]; [in_chain|].
      cbv zeta.
      destruct (finalSummary now rand job transcription summary)
        as [final|error]; [|eapply file_failure_ok; eauto].
      apply completion_ok.
      * eapply registry_ok_frame; [..|exact Hreg1]; reflexivity.
      * eapply in_flight_frame; [..|exact Hfl1]; reflexivity.
    + destruct (generateSummary _ outcome) as [summary|error]; [|terminal].
      cbv zeta.
      destruct (finalSummary now rand job transcription summary)
        as [final|error]; terminal; right.
      * eapply only_processing_frame;
          [|apply only_processing_update; exact Hone]. reflexivity.
      * apply only_processing_update. assumption.
Qed.

Lemma boot_ok (files : gmap string Z) :
  invariant (boot files) /\ single_worker (boot files).
Proof.
  split; [split; [split; cbn|split; reflexivity]|].
  - intros j r Hr. rewrite lookup_empty in Hr. discriminate.
  - constructor.
  - intros j Hj. apply elem_of_nil in Hj. contradiction.
  - intros j Hj. apply elem_of_nil in Hj. contradiction.
  - constructor.
  - intros j. rewrite lookup_empty. reflexivity.
  - exact I.
  - intros j r Hr. cbn in Hr. rewrite lookup_empty in Hr. discriminate.
Qed.

Lemma run_ok (events : list event) (s : machine) :
  invariant s /\ single_worker s ->
  NoDup (created_ids events) ->
  (forall j, j ∈ created_ids events -> jobs s !! j = None) ->
  invariant (run config s events) /\ single_worker (run config s events).
Proof.
  revert s.
  induction events as [|e events IH]; intros s [Hinv Hone] Hnodup Hfresh;
    [split; assumption|].
  change (run config s (e :: events))
    with (run config (step config s e) events).
  assert (Hsplit : created_ids (e :: events)
                   = created_ids [e] ++ created_ids events)
    by (unfold created_ids; cbn; destruct e; reflexivity).
  rewrite Hsplit in Hnodup, Hfresh.
  apply NoDup_app in Hnodup as (_ & Hdisjoint & Hnodup).
  assert (Hfresh_e : fresh s e).
  { destruct e; cbn; auto. apply Hfresh. cbn. left. }
  apply IH; [|assumption|].
  - split; [apply step_ok | apply step_single]; assumption.
  - intros j Hj. apply step_ids.
    + intros Hj'. exact (Hdisjoint j Hj' Hj).
    + apply Hfresh, elem_of_app. right. assumption.
Qed.

(** The invariant holds in every reachable state. *)
Lemma reachable_ok (s : machine) :
  reachable config s -> invariant s /\ single_worker s.
Proof.
  intros (files & events & Hnodup & ->).
  apply run_ok; [apply boot_ok | assumption|].
  intros j _. apply lookup_empty.
Qed.

End Ids.

(** *** The local [job] of [processJob] and the registry object *)

Lemma same_inputs_refl (r : ProcessingJob) : same_inputs r r.
Proof. repeat split. Qed.

Lemma leaves_inputs_assign (r : ProcessingJob) (updates : Updates) (now : Z) :
  leaves_inputs updates -> same_inputs (assign r updates now) r.
Proof.
  intros (Hid & Huser & Htype & Hfile & Hurl & Hopt & Hcreated).
  unfold same_inputs, assign. cbn.
  rewrite Hid, Huser, Htype, Hfile, Hurl, Hopt, Hcreated. cbn.
  repeat split.
Qed.

Lemma captured_updateJob (now : Z) (j : string) (updates : Updates)
    (jobId : string) (job : ProcessingJob) (s : machine) :
  leaves_inputs updates ->
  captured jobId job s -> captured jobId job (updateJob now j updates s).
Proof.
  intros Hleaves (r & Hr & Hsame).
  destruct (decide (jobId = j)) as [->|Hne].
  - exists (assign r updates now). rewrite jobs_updateJob_eq, Hr.
    split; [reflexivity|].
    pose proof (leaves_inputs_assign r updates now Hleaves) as Hkept.
    unfold same_inputs in *. intuition congruence.
  - exists r. rewrite jobs_updateJob_ne by assumption. auto.
Qed.

Ltac kept :=
  repeat first
    [ assumption
    | apply captured_updateJob; [repeat split|]
    | progress cbn [jobs set_fs set_stored storeSummary set_worker
                    set_isProcessing set_jobQueue] ].

Section Capture.

Variable config : Config.

Lemma processJob_captured (now : Z) (jobId : string) (s : machine) :
  match fst (processJob config now jobId s) with
  | Ok (Some k) =>
      captured (suspended_jobId k) (suspended_job k)
        (snd (processJob config now jobId s))
  | _ => True
  end.
Proof.
  rewrite processJob_eq. destruct (jobs s !! jobId) as [job|] eqn:Hjob;
    [|exact I].
  cbv zeta.
  destruct (bool_decide (job_type job = file)
            && Str.truthy (job_originalFile job));
    [|destruct (bool_decide (job_type job = url)
                && Str.truthy (job_url job)); exact I].
  cbn [fst snd suspended_jobId suspended_job].
  assert (Hcaptured : captured jobId job s)
    by (exists job; split; [assumption | apply same_inputs_refl]).
  kept.
Qed.

Lemma processQueue_loop_captured (now : Z) (queue : list string)
    (s : machine) :
  captured_ok (processQueue_loop config now queue s).
Proof.
  revert s. induction queue as [|jobId rest IH]; intros s; [exact I|].
  cbn [processQueue_loop].
  destruct (String.eqb jobId ""); [apply IH|].
  pose proof (processJob_captured now jobId (set_jobQueue rest s)) as Hk.
  destruct (processJob config now jobId (set_jobQueue rest s))
    as [[[k|]|error] s']; cbn [fst snd] in Hk.
  - exact Hk.
  - apply IH.
  - exact I.
Qed.

Lemma resume_captured (now : Z) (out : result (option suspended) * machine) :
  match fst out with
  | Ok (Some k) => captured (suspended_jobId k) (suspended_job k) (snd out)
  | _ => True
  end ->
  captured_ok (resume config now out).
Proof.
  destruct out as [[[k|]|error] s']; cbn [fst snd resume]; intros Hk.
  - exact Hk.
  - apply processQueue_loop_captured.
  - exact I.
Qed.

(** One turn of the event loop leaves the local [job] of the worker in
    agreement with the registry. *)
Lemma step_captured (s : machine) (e : event) :
  captured_ok s -> fresh s e -> captured_ok (step config s e).
Proof.
  intros Hcap Hfresh.
  destruct e as [now rand user request|now jobId|now outcome
                |now outcome outputSize|now outcome|now rand outcome
                |now path size|now path];
    cbn [step];
    try (unfold captured_ok in Hcap; destruct (worker s) as [[]|] eqn:Hw;
         unfold captured_ok; cbn [worker set_fs]; rewrite ?Hw; exact Hcap).
  - assert (Hqueued :
              captured_ok
                (set_jobQueue (jobQueue s ++ [generateJobId now rand])
                   (set_jobs
                      <[generateJobId now rand
                        := new_job now rand user request]>
                      (cons (Created (new_job now rand user request))) s))).
    { unfold captured_ok in *. cbn [worker set_jobQueue set_jobs].
      destruct (worker s) as [k|]; [|exact I].
      destruct Hcap as (r & Hr & Hsame). exists r. split; [|assumption].
      cbn [jobs set_jobQueue set_jobs]. rewrite lookup_insert_ne; [assumption|].
      intros Heq. cbn in Hfresh. rewrite Heq in Hfresh. congruence. }
    unfold createJob. cbv zeta. cbn [snd]. fold (new_job now rand user request).
    match goal with |- context [if ?b then _ else _] => destruct b end;
      [exact Hqueued|].
    unfold processQueue.
    match goal with |- context [if ?b then _ else _] => destruct b end;
      [exact Hqueued | apply processQueue_loop_captured].
  - unfold cancelJob. destruct (jobs s !! jobId) as [job|]; [|exact Hcap].
    destruct (bool_decide _ || bool_decide _); [exact Hcap|].
    cbn [snd]. unfold captured_ok in *. rewrite worker_updateJob.
    destruct (bool_decide _); cbn [worker set_jobQueue];
      (destruct (worker s) as [k|]; [|exact I]);
      unfold failure_update; kept.
  - unfold captured_ok in Hcap.
    destruct (worker s) as [[]|] eqn:Hw;
      try (unfold captured_ok; rewrite Hw; exact Hcap).
    cbn [suspended_jobId suspended_job] in Hcap.
    apply resume_captured. rewrite processJob_metadata_eq.
    destruct (getAudioMetadata_eq audioFilePath outcome s)
      as (metadata & -> & _).
    destruct metadata; cbn [fst snd suspended_jobId suspended_job];
      [kept | exact I].
  - unfold captured_ok in Hcap.
    destruct (worker s) as [[]|] eqn:Hw;
      try (unfold captured_ok; rewrite Hw; exact Hcap).
    cbn [suspended_jobId suspended_job] in Hcap.
    apply resume_captured. rewrite processJob_processAudio_eq.
    destruct outcome; cbv zeta;
      match goal with |- context [fs ?s2 !! ?p] => destruct (fs s2 !! p) end;
      cbn [fst snd suspended_jobId suspended_job]; try exact I; kept.
  - unfold captured_ok in Hcap.
    destruct (worker s) as [[]|] eqn:Hw;
      try (unfold captured_ok; rewrite Hw; exact Hcap).
    cbn [suspended_jobId suspended_job] in Hcap.
    apply resume_captured. rewrite processJob_transcription_eq.
    destruct outcome; cbn [fst snd suspended_jobId suspended_job];
      [kept | exact I].
  - unfold captured_ok in Hcap.
    destruct (worker s) as [[]|] eqn:Hw;
      try (unfold captured_ok; rewrite Hw; exact Hcap).
    apply resume_captured. rewrite processJob_summary_eq. exact I.
Qed.

Lemma run_captured (events : list event) (s : machine) :
  captured_ok s ->
  NoDup (created_ids events) ->
  (forall j, j ∈ created_ids events -> jobs s !! j = None) ->
  captured_ok (run config s events).
Proof.
  revert s.
  induction events as [|e events IH]; intros s Hcap Hnodup Hfresh;
    [assumption|].
  change (run config s (e :: events))
    with (run config (step config s e) events).
  assert (Hsplit : created_ids (e :: events)
                   = created_ids [e] ++ created_ids events)
    by (unfold created_ids; cbn; destruct e; reflexivity).
  rewrite Hsplit in Hnodup, Hfresh.
  apply NoDup_app in Hnodup as (_ & Hdisjoint & Hnodup).
  assert (Hfresh_e : fresh s e).
  { destruct e; cbn; auto. apply Hfresh. cbn. left. }
  apply IH; [apply step_captured; assumption | assumption|].
  intros j Hj. apply step_ids.
  - intros Hj'. exact (Hdisjoint j Hj' Hj).
  - apply Hfresh, elem_of_app. right. assumption.
Qed.

(** In every reachable state the record [processJob] holds in its local
    [job] agrees with the one in the registry on all the fields it reads:
    reading them from the local is reading them from the registry. *)
Lemma captured_job_is_live (s : machine) (k : suspended) :
  reachable config s ->
  worker s = Some k ->
  exists r, jobs s !! suspended_jobId k = Some r /\
            same_inputs r (suspended_job k).
Proof.
  intros (files & events & Hnodup & ->) Hw.
  pose proof (run_captured events (boot files) I Hnodup) as Hcap.
  unfold captured_ok in Hcap. rewrite Hw in Hcap. apply Hcap.
  intros j _. apply lookup_empty.
Qed.

End Capture.

(** * The properties of the specification *)

(** ** Progress *)

Lemma progress_chain_le (a b : Z) : (a, b) ∈ progress_chain -> a <= b.
Proof.
  unfold progress_chain. intros Hin.
  repeat (apply elem_of_cons in Hin as [[= -> ->]|Hin]; [lia|]).
  apply elem_of_nil in Hin. contradiction.
Qed.

Lemma entry_ok_progress_le (before after : ProcessingJob)
    (updates : Updates) :
  entry_ok (Updated before updates after) ->
  job_progress before <= job_progress after.
Proof.
  intros (-> & _ & _ & Hchain & _). cbn.
  destruct (upd_progress updates) as [p|]; cbn in *;
    [apply progress_chain_le; assumption | lia].
Qed.

Lemma entry_ok_same_job (before after : ProcessingJob) (updates : Updates) :
  entry_ok (Updated before updates after) ->
  job_id after = job_id before /\ job_type after = job_type before.
Proof.
  intros (-> & Hid & Htype & _). cbn. rewrite Hid, Htype.
  split; reflexivity.
Qed.

(** The records of a job, newest first, carry decreasing progress values. *)
Lemma records_progress_sorted (jobId : string) (jn : list entry) :
  linked jn -> Forall entry_ok jn ->
  Sorted (flip Z.le) (job_progress <$> records jobId jn).
Proof.
  induction jn as [|e older IH]; intros Hlinked Hok; [constructor|].
  destruct Hlinked as [Hlink Hlinked]. apply Forall_cons in Hok as [He Hok].
  rewrite records_cons.
  destruct (decide (job_id (entry_after e) = jobId)) as [Hid|_]; [|auto].
  cbn [fmap list_fmap]. constructor; [auto|].
  destruct e as [job|before updates after]; cbn [entry_after] in *;
    rewrite Hid in Hlink; unfold latest in Hlink;
    destruct (records jobId older) as [|r rs]; cbn in Hlink |- *;
    try discriminate; constructor.
  injection Hlink as ->. unfold flip. eapply entry_ok_progress_le, He.
Qed.

(** C4: in every reachable state, each registry write either creates a job
    at progress 0 or leaves it at a progress value that is not lower than
    before, moving along 0, 0, 10 or 20, 30, 50, 70, 90, 100; the progress
    values a job has gone through are in non-decreasing order, the last of
    them being the one the registry holds. *)
Theorem progress_monotone (config : Config) (s : machine) :
  reachable config s ->
  Forall (fun e =>
            match e with
            | Created job => job_progress job = 0
            | Updated before updates after =>
                progress_ok (job_progress before) (upd_progress updates) /\
                job_progress after
                = default (job_progress before) (upd_progress updates) /\
                job_progress before <= job_progress after
            end) (journal s) /\
  (forall jobId, Sorted Z.le (progress_history jobId s)) /\
  (forall jobId, last (history jobId s) = jobs s !! jobId).
Proof.
  intros Hreach.
  destruct (reachable_ok config s Hreach) as [[Hreg _] _].
  split; [|split].
  - eapply Forall_impl; [apply (ok_journal _ Hreg)|].
    intros [job|before updates after] He; [apply He|].
    split; [apply He|]. split; [|eapply entry_ok_progress_le, He].
    destruct He as (-> & _). reflexivity.
  - intros jobId. unfold progress_history, history.
    rewrite fmap_reverse.
    apply (Sorted_reverse (flip Z.le)).
    apply records_progress_sorted; [apply (ok_linked _ Hreg)|].
    apply (ok_journal _ Hreg).
  - intros jobId. unfold history. rewrite last_reverse.
    apply (ok_latest _ Hreg).
Qed.

(** ** Jobs whose source is a URL *)

Lemma latest_records (jobId : string) (jn : list entry) :
  latest jobId jn = None -> records jobId jn = [].
Proof. unfold latest. destruct (records jobId jn); [auto|discriminate]. Qed.

(** The statuses a URL job has gone through, newest first. *)
Lemma url_records (jn : list entry) (jobId : string) (r : ProcessingJob) :
  linked jn -> Forall entry_ok jn ->
  latest jobId jn = Some r -> job_type r = url ->
  (job_status <$> records jobId jn = [queued] /\ job_status r = queued) \/
  (job_status <$> records jobId jn = [processing; queued] /\
   job_status r = processing) \/
  (job_status <$> records jobId jn = [failed; processing; queued] /\
   job_status r = failed /\ job_error r = Some (url_failure_message r)) \/
  (job_status <$> records jobId jn = [failed; queued] /\
   job_status r = failed /\ job_error r = Some "Cancelled by user").
Proof.
  revert r. induction jn as [|e older IH]; intros r Hlinked Hok Hlatest Hurl;
    [discriminate|].
  destruct Hlinked as [Hlink Hlinked]. apply Forall_cons in Hok as [He Hok].
  rewrite latest_cons in Hlatest. rewrite records_cons.
  destruct (decide (job_id (entry_after e) = jobId)) as [Hid|_]; [|auto].
  injection Hlatest as <-.
  destruct e as [job|before updates after]; cbn [entry_after] in *.
  - rewrite Hid in Hlink. rewrite (latest_records _ _ Hlink).
    destruct He as [Hst _]. left. cbn. rewrite Hst. auto.
  - rewrite Hid in Hlink.
    destruct (entry_ok_same_job _ _ _ He) as [_ Htype].
    rewrite Hurl in Htype. symmetry in Htype.
    specialize (IH before Hlinked Hok Hlink Htype).
    destruct He as (Hafter & _ & _ & _ & _ & _ & _ & Hmove & _).
    cbn [fmap list_fmap]. fold (fmap (M := list) job_status).
    destruct (Hmove Htype) as [[Hb Ha]|[[Hb Hu]|[Hb Hu]]].
    + destruct IH as [[-> _]|[[_ ?]|[[_ [? _]]|[_ [? _]]]]]; try congruence.
      right. left. rewrite Ha. auto.
    + destruct IH as [[_ ?]|[[-> _]|[[_ [? _]]|[_ [? _]]]]]; try congruence.
      right. right. left. rewrite Hafter, Hu. cbn. auto.
    + destruct IH as [[-> _]|[[_ ?]|[[_ [? _]]|[_ [? _]]]]]; try congruence.
      right. right. right. rewrite Hafter, Hu. cbn. auto.
Qed.

(** C7, as amended: a job whose source is a URL, once the worker takes it,
    is marked processing and then failed with the error "URL download not
    implemented yet", without any external call.  In every reachable state
    a url job is still queued, or has gone queued, processing, failed, with
    that error when it carries a URL and with "No valid audio source
    provided" when it carries none, or was cancelled by its owner while it
    was queued and has gone queued, failed, with the error "Cancelled by
    user".  It is never completed. *)
Theorem url_job_fails_unless_cancelled (config : Config) :
  (forall now jobId s job,
     jobs s !! jobId = Some job ->
     job_type job = url ->
     Str.truthy (job_url job) = true ->
     let started :=
       assign job (status_ processing (progress_ 0 no_updates)) now in
     processJob config now jobId s
     = (Ok None,
        mark_failed now jobId started "URL download not implemented yet"
          (updateJob now jobId (status_ processing (progress_ 0 no_updates))
             s))) /\
  (forall s jobId job,
     reachable config s ->
     jobs s !! jobId = Some job ->
     job_type job = url ->
     (status_history jobId s = [queued] /\ job_status job = queued) \/
     (status_history jobId s = [queued; processing; failed] /\
      job_status job = failed /\
      job_error job
      = Some (if Str.truthy (job_url job)
              then "URL download not implemented yet"
              else "No valid audio source provided")) \/
     (status_history jobId s = [queued; failed] /\
      job_status job = failed /\
      job_error job = Some "Cancelled by user")) /\
  (forall s jobId job,
     reachable config s ->
     jobs s !! jobId = Some job ->
     job_type job = url ->
     job_status job <> completed /\ completed ∉ status_history jobId s).
Proof.
  assert (Hshape : forall s jobId job,
            reachable config s ->
            jobs s !! jobId = Some job ->
            job_type job = url ->
            (status_history jobId s = [queued] /\ job_status job = queued) \/
            (status_history jobId s = [queued; processing; failed] /\
             job_status job = failed /\
             job_error job = Some (url_failure_message job)) \/
            (status_history jobId s = [queued; failed] /\
             job_status job = failed /\
             job_error job = Some "Cancelled by user")).
  { intros s jobId job Hreach Hjob Hurl.
    destruct (reachable_ok config s Hreach) as [[Hreg Hworker] Hone].
    rewrite <- (ok_latest _ Hreg) in Hjob.
    unfold status_history, history. rewrite fmap_reverse.
    destruct (url_records _ _ _ (ok_linked _ Hreg) (ok_journal _ Hreg)
                Hjob Hurl) as [[-> ?]|[[_ Hst]|[[-> ?]|[-> ?]]]]; auto.
    exfalso. rewrite (ok_latest _ Hreg) in Hjob.
    specialize (Hone jobId job Hjob Hst). unfold worker_ok in Hworker.
    destruct (worker s) as [k|]; [|discriminate].
    injection Hone as Hk. cbn in Hk.
    destruct Hworker as (_ & _ & r & Hr & _ & Hfile & _).
    rewrite Hk in Hr. congruence. }
  split; [|split].
  - intros now jobId s job Hjob Hurl Htruthy. cbv zeta.
    rewrite processJob_eq, Hjob. cbv zeta.
    rewrite Hurl, Htruthy. cbn [bool_decide decide_rel andb].
    rewrite bool_decide_false by discriminate.
    rewrite bool_decide_true by reflexivity. cbn [andb].
    erewrite updateJob_failure; [reflexivity|].
    rewrite jobs_updateJob_eq, Hjob. reflexivity.
  - intros s jobId job Hreach Hjob Hurl.
    destruct (Hshape s jobId job Hreach Hjob Hurl)
      as [?|[(? & ? & Herr)|?]]; [auto| |auto].
    right. left. unfold url_failure_message in Herr. auto.
  - intros s jobId job Hreach Hjob Hurl.
    destruct (Hshape s jobId job Hreach Hjob Hurl)
      as [[-> ->]|[(-> & -> & _)|(-> & -> & _)]];
      (split; [discriminate|]);
      intros Hin;
      repeat (apply elem_of_cons in Hin as [Hin|Hin]; [discriminate|]);
      apply elem_of_nil in Hin; contradiction.
Qed.

(** ** Failures *)

Section Failures.

Variable config : Config.

Lemma processJob_frame (now : Z) (jobId : string) (s : machine) (j : string) :
  j <> jobId ->
  jobs (snd (processJob config now jobId s)) !! j = jobs s !! j.
Proof.
  intros Hne. rewrite processJob_eq.
  destruct (jobs s !! jobId) as [job|]; [|reflexivity]. cbv zeta.
  destruct (bool_decide (job_type job = file)
            && Str.truthy (job_originalFile job));
    [|destruct (bool_decide (job_type job = url)
                && Str.truthy (job_url job))];
    cbn [snd]; rewrite !jobs_updateJob_ne by assumption; reflexivity.
Qed.

(** The drain loop only touches the jobs in the queue. *)
Lemma processQueue_loop_frame (now : Z) (queue : list string) (s : machine)
    (j : string) :
  j ∉ queue ->
  jobs (processQueue_loop config now queue s) !! j = jobs s !! j.
Proof.
  revert s. induction queue as [|jobId rest IH]; intros s Hnotin;
    [reflexivity|].
  apply not_elem_of_cons in Hnotin as [Hne Hnotin].
  cbn [processQueue_loop].
  destruct (String.eqb jobId ""); [rewrite IH by assumption; reflexivity|].
  pose proof (processJob_frame now jobId (set_jobQueue rest s) j Hne)
    as Hframe.
  destruct (processJob config now jobId (set_jobQueue rest s))
    as [[[k|]|error] s']; cbn [snd] in Hframe;
    rewrite ?IH by assumption; exact Hframe.
Qed.

(** The drain loop starts the job at the head of the queue. *)
Lemma processQueue_loop_head (now : Z) (next : string) (rest : list string)
    (s : machine) :
  registry_ok s ->
  jobQueue s = next :: rest ->
  exists r, jobs (processQueue_loop config now (next :: rest) s) !! next
            = Some r /\
            (job_status r = processing \/ job_status r = failed).
Proof.
  intros Hreg Hq.
  destruct (registry_ok_dequeue _ _ _ Hreg Hq)
    as (_ & Hnotin & r & Hjob & _ & _).
  assert (Hne : next <> "")
    by (apply (ok_nonempty _ Hreg); rewrite Hq; left).
  cbn [processQueue_loop].
  destruct (String.eqb_spec next "") as [|_]; [contradiction|].
  assert (Hstarted :
            exists r', jobs (snd (processJob config now next
                                    (set_jobQueue rest s))) !! next = Some r'
                       /\ (job_status r' = processing \/
                           job_status r' = failed)).
  { rewrite processJob_eq. cbn [jobs set_jobQueue]. rewrite Hjob. cbv zeta.
    destruct (bool_decide (job_type r = file)
              && Str.truthy (job_originalFile r));
      [|destruct (bool_decide (job_type r = url)
                  && Str.truthy (job_url r))];
      cbn [snd]; rewrite !jobs_updateJob_eq; cbn [jobs set_jobQueue];
      rewrite Hjob; cbn; eauto. }
  destruct (processJob config now next (set_jobQueue rest s))
    as [[[k|]|error] s']; cbn [snd] in Hstarted; try exact Hstarted.
  rewrite processQueue_loop_frame by assumption. exact Hstarted.
Qed.

(** The failure write on the file job in flight, in full. *)
Lemma failed_in_flight (now : Z) (jobId : string) (message : string)
    (s : machine) (p : Z) :
  registry_ok s ->
  in_flight jobId p file s ->
  let s1 := updateJob now jobId (failure_update message) s in
  registry_ok s1 /\
  jobQueue s1 = jobQueue s /\
  (exists r, jobs s1 !! jobId = Some r /\ job_status r = failed /\
             job_error r = Some message /\ job_progress r = p) /\
  (forall j, j <> jobId -> jobs s1 !! j = jobs s !! j).
Proof.
  intros Hreg Hfl. cbv zeta.
  destruct (file_failure_ok now jobId message s p Hreg Hfl) as [Hreg1 _].
  destruct Hfl as (_ & r0 & Hr0 & Hp0 & _).
  split; [assumption|]. split; [apply jobQueue_updateJob|]. split.
  - eexists. rewrite jobs_updateJob_eq, Hr0. cbn. auto.
  - intros j Hne. apply jobs_updateJob_ne. assumption.
Qed.

(** The state in which [processJob] ends when it throws. *)
Lemma throws_resume (k : suspended) (e : event) (s : machine) (error : exn)
    (p : Z) :
  throws k e s error p ->
  registry_ok s ->
  in_flight (suspended_jobId k) (stage_progress k) file s ->
  worker s = Some k ->
  exists s1,
    step config s e
    = processQueue_loop config (event_time e) (jobQueue s) s1 /\
    registry_ok s1 /\
    jobQueue s1 = jobQueue s /\
    (exists r, jobs s1 !! suspended_jobId k = Some r /\
               job_status r = failed /\
               job_error r = Some (message_of error) /\
               job_progress r = p) /\
    (forall j, j <> suspended_jobId k -> jobs s1 !! j = jobs s !! j).
Proof.
  intros Hthrows Hreg Hfl Hw.
  destruct Hthrows; cbn [step event_time suspended_jobId stage_progress] in *;
    rewrite Hw.
  - (* metadata probe *)
    rewrite processJob_metadata_eq.
    destruct (getAudioMetadata_eq audioFilePath outcome s)
      as (metadata & Heq & _).
    rewrite Heq in H |- *. cbn [fst] in H. injection H as ->. cbn [resume].
    eexists. split; [autorewrite with frame; reflexivity|].
    apply failed_in_flight; assumption.
  - (* reading the normalised file *)
    rewrite processJob_processAudio_eq. rewrite processAudio_eq in H.
    change (tool_invoked _) with true in H. cbv iota in H.
    set (out := match outcome with
                | ExecResolved _ _ =>
                    (output_path audioFilePath,
                     set_fs <[output_path audioFilePath := outputSize]> s)
                | ExecRejected _ => (audioFilePath, s)
                end).
    assert (Hout : jobs (snd out) = jobs s /\
                   jobQueue (snd out) = jobQueue s /\
                   journal (snd out) = journal s /\
                   fs (snd out) !! fst out = None /\
                   fst out = match outcome with
                             | ExecResolved _ _ => output_path audioFilePath
                             | ExecRejected _ => audioFilePath
                             end).
    { subst out. destruct outcome; cbn in *; auto. }
    destruct out as [processedAudioPath s1]. cbn [fst snd] in Hout.
    destruct Hout as (Hjobs & Hqueue & Hjournal & Hmissing & Hpath).
    rewrite <- Hpath.
    assert (Hreg1 : registry_ok s1) by (eapply registry_ok_frame; eauto).
    assert (Hfl1 : in_flight jobId 30 file s1)
      by (eapply in_flight_frame; eauto).
    destruct (advance_ok now jobId s1 30 50 Hreg1 Hfl1)
      as [Hreg2 Hfl2]; [in_chain|].
    cbv zeta. rewrite fs_updateJob, Hmissing. cbn [resume].
    destruct (failed_in_flight now jobId
                (message_of (enoent "open" processedAudioPath)) _ _
                Hreg2 Hfl2) as (Hreg3 & Hq3 & Hr3 & Hframe3).
    eexists. split; [autorewrite with frame; rewrite Hqueue; reflexivity|].
    split; [assumption|]. split; [autorewrite with frame; assumption|].
    split; [assumption|].
    intros j Hne. rewrite Hframe3, jobs_updateJob_ne by assumption.
    congruence.
  - (* transcription *)
    rewrite processJob_transcription_eq. cbn [resume].
    eexists. split; [autorewrite with frame; reflexivity|].
    apply failed_in_flight; assumption.
  - (* summarisation *)
    rewrite processJob_summary_eq, H. cbn [resume].
    eexists. split; [autorewrite with frame; reflexivity|].
    apply failed_in_flight; assumption.
  - (* assembling the summary *)
    rewrite processJob_summary_eq, H. cbv zeta. rewrite H0. cbn [resume].
    destruct (advance_ok now jobId s 70 90 Hreg Hfl)
      as [Hreg1 Hfl1]; [in_chain|].
    destruct (failed_in_flight now jobId (message_of error) _ _
                Hreg1 Hfl1) as (Hreg2 & Hq2 & Hr2 & Hframe2).
    eexists. split; [autorewrite with frame; reflexivity|].
    split; [assumption|]. split; [autorewrite with frame; reflexivity|].
    split; [assumption|].
    intros j Hne. rewrite Hframe2, jobs_updateJob_ne by assumption.
    reflexivity.
Qed.

End Failures.

Section Isolation.

Variable config : Config.

(** What a throwing stage leaves behind, in every reachable state. *)
Lemma throws_step (s : machine) (k : suspended) (e : event) (error : exn)
    (p : Z) :
  reachable config s ->
  worker s = Some k ->
  throws k e s error p ->
  let jobId := suspended_jobId k in
  let s' := step config s e in
  (exists r, jobs s' !! jobId = Some r /\ job_status r = failed /\
             job_error r = Some (message_of error) /\ job_progress r = p) /\
  (exists s1, s' = processQueue_loop config (event_time e) (jobQueue s) s1 /\
              jobQueue s1 = jobQueue s /\
              forall j, j <> jobId -> jobs s1 !! j = jobs s !! j) /\
  (forall next rest, jobQueue s = next :: rest ->
     exists r, jobs s' !! next = Some r /\
               (job_status r = processing \/ job_status r = failed)) /\
  (forall j, j <> jobId -> j ∉ jobQueue s -> jobs s' !! j = jobs s !! j) /\
  (worker s' = None -> jobQueue s' = [] /\ isProcessing s' = false).
Proof.
  intros Hreach Hw Hthrows. cbv zeta.
  destruct (reachable_ok config s Hreach) as [[Hreg Hworker] Hone].
  pose proof (step_ok config s e (conj Hreg Hworker) Hone) as [_ Hworker'].
  { destruct Hthrows; exact I. }
  unfold worker_ok in Hworker, Hworker'. rewrite Hw in Hworker.
  destruct Hworker as [_ Hfl].
  destruct (throws_resume config k e s error p Hthrows Hreg Hfl Hw)
    as (s1 & Hstep & Hreg1 & Hq1 & (r & Hr & Hfailed) & Hframe).
  assert (Hnotin : suspended_jobId k ∉ jobQueue s) by apply Hfl.
  repeat apply conj.
  - exists r. rewrite Hstep, processQueue_loop_frame by assumption. auto.
  - exists s1. auto.
  - intros next rest Hq. rewrite Hstep, Hq.
    apply processQueue_loop_head; [assumption | congruence].
  - intros j Hne Hj. rewrite Hstep, processQueue_loop_frame by assumption.
    apply Hframe. assumption.
  - intros Hidle. rewrite Hidle in Hworker'. destruct Hworker'. auto.
Qed.

(** C2: no part of [processJob] lets an exception escape; when acquisition
    fails the drain loop marks the job failed and goes on with the rest of
    the queue; when a later stage throws, the job is marked failed with the
    message of the exception, only its record changes, and the worker goes
    on with the queue: the job at the head of the queue is started, and the
    worker never becomes idle with jobs left in the queue. *)
Theorem failure_is_isolated :
  ((forall now jobId s,
      exists k, fst (processJob config now jobId s) = Ok k) /\
   (forall now jobId job audioFilePath shouldCleanup outcome s,
      exists k, fst (processJob_metadata now jobId job audioFilePath
                       shouldCleanup outcome s) = Ok k) /\
   (forall now jobId job audioFilePath shouldCleanup outcome outputSize s,
      exists k, fst (processJob_processAudio now jobId job audioFilePath
                       shouldCleanup outcome outputSize s) = Ok k) /\
   (forall now jobId job audioFilePath shouldCleanup processedAudioPath
           outcome s,
      exists k, fst (processJob_transcription now jobId job audioFilePath
                       shouldCleanup processedAudioPath outcome s) = Ok k) /\
   (forall now rand jobId job audioFilePath shouldCleanup processedAudioPath
           transcription outcome s,
      exists k, fst (processJob_summary now rand jobId job audioFilePath
                       shouldCleanup processedAudioPath transcription
                       outcome s) = Ok k)) /\
  (forall now jobId rest s job,
     jobs s !! jobId = Some job ->
     jobId <> "" ->
     bool_decide (job_type job = file) && Str.truthy (job_originalFile job)
     = false ->
     let start := status_ processing (progress_ 0 no_updates) in
     processQueue_loop config now (jobId :: rest) s
     = processQueue_loop config now rest
         (mark_failed now jobId (assign job start now)
            (if bool_decide (job_type job = url) && Str.truthy (job_url job)
             then "URL download not implemented yet"
             else "No valid audio source provided")
            (updateJob now jobId start (set_jobQueue rest s)))) /\
  (forall s k e error p,
     reachable config s ->
     worker s = Some k ->
     throws k e s error p ->
     let jobId := suspended_jobId k in
     let s' := step config s e in
     (exists r, jobs s' !! jobId = Some r /\ job_status r = failed /\
                job_error r = Some (message_of error)) /\
     (exists s1,
        s' = processQueue_loop config (event_time e) (jobQueue s) s1 /\
        jobQueue s1 = jobQueue s /\
        forall j, j <> jobId -> jobs s1 !! j = jobs s !! j) /\
     (forall next rest, jobQueue s = next :: rest ->
        exists r, jobs s' !! next = Some r /\
                  (job_status r = processing \/ job_status r = failed)) /\
     (forall j, j <> jobId -> j ∉ jobQueue s -> jobs s' !! j = jobs s !! j) /\
     (worker s' = None -> jobQueue s' = [] /\ isProcessing s' = false)) /\
  (forall s,
     reachable config s -> worker s = None ->
     jobQueue s = [] /\ isProcessing s = false).
Proof.
  split; [|split; [|split]].
  - repeat apply conj.
    + apply processJob_never_throws.
    + intros. rewrite processJob_metadata_eq.
      destruct (getAudioMetadata _ _ _) as [[[metadata|]|error] s0];
        cbn [fst]; eauto.
    + intros. rewrite processJob_processAudio_eq.
      destruct outcome; cbv zeta;
        match goal with
        | |- context [fs ?s2 !! ?path] => destruct (fs s2 !! path)
        end; cbn [fst]; eauto.
    + intros. rewrite processJob_transcription_eq.
      destruct outcome; cbn [fst]; eauto.
    + intros. rewrite processJob_summary_eq. cbn [fst]. eauto.
  - intros now jobId rest s job Hjob Hne Hsource. cbv zeta.
    cbn [processQueue_loop].
    destruct (String.eqb_spec jobId "") as [|_]; [contradiction|].
    rewrite processJob_eq. cbn [jobs set_jobQueue]. rewrite Hjob, Hsource.
    cbv zeta.
    assert (Hstarted :
              jobs (updateJob now jobId
                      (status_ processing (progress_ 0 no_updates))
                      (set_jobQueue rest s)) !! jobId
              = Some (assign job
                        (status_ processing (progress_ 0 no_updates)) now)).
    { rewrite jobs_updateJob_eq. cbn [jobs set_jobQueue]. rewrite Hjob.
      reflexivity. }
    destruct (bool_decide (job_type job = url) && Str.truthy (job_url job));
      rewrite (updateJob_failure _ _ _ _ _ Hstarted); reflexivity.
  - intros s k e error p Hreach Hw Hthrows.
    destruct (throws_step s k e error p Hreach Hw Hthrows)
      as ((r & Hr & Hst & Herr & _) & Hloop & Hnext & Hframe & Hidle).
    cbv zeta. repeat apply conj; eauto.
  - intros s Hreach Hidle.
    destruct (reachable_ok config s Hreach) as [[_ Hworker] _].
    unfold worker_ok in Hworker. rewrite Hidle in Hworker.
    destruct Hworker. auto.
Qed.

(** C10: the handler's update carries a status and an error only, so the
    failed record differs from the record before in its status, error and
    update time; every failure write in a reachable state is of this kind,
    and a job whose stage throws is left failed at the progress value that
    stage had reached. *)
Theorem failure_keeps_progress :
  (forall now jobId error s job,
     jobs s !! jobId = Some job ->
     processJob_catch now jobId error s
     = (Ok None, mark_failed now jobId job (message_of error) s) /\
     jobs (mark_failed now jobId job (message_of error) s) !! jobId
     = Some (failed_record job (message_of error) now) /\
     job_progress (failed_record job (message_of error) now)
     = job_progress job) /\
  (forall s,
     reachable config s ->
     Forall (fun e =>
               match e with
               | Created _ => True
               | Updated before updates after =>
                   upd_status updates = Some failed ->
                   exists message,
                     updates = failure_update message /\
                     upd_progress updates = None /\
                     after = failed_record before message
                               (job_updatedAt after) /\
                     job_progress after = job_progress before
               end) (journal s)) /\
  (forall s k e error p,
     reachable config s ->
     worker s = Some k ->
     throws k e s error p ->
     exists r, jobs (step config s e) !! suspended_jobId k = Some r /\
               job_status r = failed /\
               job_error r = Some (message_of error) /\
               job_progress r = p /\
               0 < p < 100).
Proof.
  split; [|split].
  - intros now jobId error s job Hjob.
    rewrite processJob_catch_eq, (updateJob_failure _ _ _ _ _ Hjob).
    split; [reflexivity|]. split; [|reflexivity].
    cbn. apply lookup_insert_eq.
  - intros s Hreach.
    destruct (reachable_ok config s Hreach) as [[Hreg _] _].
    eapply Forall_impl; [apply (ok_journal _ Hreg)|].
    intros [job|before updates after] He; [exact I|].
    intros Hfailed.
    destruct He as (Hafter & _ & _ & _ & _ & _ & Hmessage & _).
    destruct (Hmessage Hfailed) as [message ->].
    exists message. split; [reflexivity|]. split; [reflexivity|].
    rewrite Hafter. split; reflexivity.
  - intros s k e error p Hreach Hw Hthrows.
    destruct (throws_step s k e error p Hreach Hw Hthrows)
      as ((r & Hr & Hst & Herr & Hp) & _).
    exists r. repeat apply conj; auto;
      destruct Hthrows; try destruct shouldCleanup; lia.
Qed.

End Isolation.

(** ** Normalisation *)

(** C8: when the tool fails, [processAudio] returns the input path and
    throws nothing, so [processJob] goes on to transcription with the
    original file and performs no failure write; when the tool succeeds,
    [processAudio] returns the path of the file the tool wrote. *)
Theorem normalization_falls_back :
  (forall inputPath options error outputSize s,
     processAudio inputPath options (ExecRejected error) outputSize s
     = (Ok inputPath, s)) /\
  (forall inputPath options stdout stderr outputSize s,
     tool_invoked options = true ->
     let out := processAudio inputPath options (ExecResolved stdout stderr)
                  outputSize s in
     fst out = Ok (output_path inputPath) /\
     fs (snd out) !! output_path inputPath = Some outputSize) /\
  (forall config s now jobId job audioFilePath shouldCleanup error
          outputSize,
     worker s
     = Some (AwaitProcessAudio jobId job audioFilePath shouldCleanup) ->
     is_Some (fs s !! audioFilePath) ->
     step config s (FfmpegSettled now (ExecRejected error) outputSize)
     = set_worker
         (Some (AwaitTranscription jobId job audioFilePath shouldCleanup
                  audioFilePath))
         (updateJob now jobId (progress_ 50 no_updates) s)).
Proof.
  split; [|split].
  - intros. rewrite processAudio_eq. destruct (tool_invoked options);
      reflexivity.
  - intros inputPath options stdout stderr outputSize s Htool. cbv zeta.
    rewrite processAudio_eq, Htool. cbn. split; [reflexivity|].
    apply lookup_insert_eq.
  - intros config s now jobId job audioFilePath shouldCleanup error
      outputSize Hw [size Hfile].
    cbn [step]. rewrite Hw, processJob_processAudio_eq. cbv zeta.
    rewrite fs_updateJob, Hfile. reflexivity.
Qed.

(** ** Chapters *)

(** C6, as amended: without timestamps the summary carries no chapters at
    all: the field is absent (undefined) in the response of
    [generateSummary], in the assembled summary and in what is handed to
    [storeSummary], whatever the detail level and the reply. *)
Theorem chapters_absent_without_timestamps :
  (forall request outcome summary,
     timestamps (sq_options request) = false ->
     generateSummary request outcome = Ok summary ->
     sr_chapters summary = None) /\
  (forall now rand job transcription outcome summary final,
     timestamps (job_options job) = false ->
     generateSummary (summarizationRequest job transcription) outcome
     = Ok summary ->
     finalSummary now rand job transcription summary = Ok final ->
     sum_chapters final = None) /\
  (forall now rand jobId job audioFilePath shouldCleanup processedAudioPath
          transcription outcome s final,
     timestamps (job_options job) = false ->
     final ∈ stored (snd (processJob_summary now rand jobId job audioFilePath
                            shouldCleanup processedAudioPath transcription
                            outcome s)) ->
     final ∈ stored s \/ sum_chapters final = None).
Proof.
  split; [exact generateSummary_chapters|].
  assert (Hfinal : forall now rand job transcription outcome summary final,
            timestamps (job_options job) = false ->
            generateSummary (summarizationRequest job transcription) outcome
            = Ok summary ->
            finalSummary now rand job transcription summary = Ok final ->
            sum_chapters final = None).
  { intros now rand job transcription outcome summary final Hts Hsum Hfin.
    rewrite (finalSummary_chapters _ _ _ _ _ _ Hfin).
    eapply generateSummary_chapters; [|exact Hsum]. exact Hts. }
  split; [exact Hfinal|].
  intros now rand jobId job audioFilePath shouldCleanup processedAudioPath
    transcription outcome s final Hts.
  rewrite processJob_summary_eq. cbn [snd].
  destruct (generateSummary _ outcome) as [summary|error] eqn:Hsum;
    [|rewrite stored_updateJob; auto].
  cbv zeta.
  destruct (finalSummary now rand job transcription summary)
    as [final'|error] eqn:Hfin; rewrite !stored_updateJob; [|auto].
  cbn. rewrite stored_updateJob. intros Hin.
  apply elem_of_cons in Hin as [->|Hin]; [right|left; assumption].
  eapply Hfinal; eauto.
Qed.

(** C6, as stated, fails: with timestamps off the assembled summary has no
    chapter list at all, which is not the empty list. *)
Lemma chapters_not_an_empty_list :
  ~ (forall now rand job transcription outcome summary final,
       timestamps (job_options job) = false ->
       generateSummary (summarizationRequest job transcription) outcome
       = Ok summary ->
       finalSummary now rand job transcription summary = Ok final ->
       sum_chapters final = Some []).
Proof.
  intros Hclaim.
  assert (Hsummary :
            generateSummary
              (summarizationRequest Scenario.job Scenario.transcription)
              Scenario.chat = Ok Scenario.summary)
    by (vm_compute; reflexivity).
  destruct (finalSummary 105 "p0o9i8u" Scenario.job Scenario.transcription
              Scenario.summary) as [final|error] eqn:Hfinal;
    [|vm_compute in Hfinal; discriminate].
  pose proof (Hclaim 105 "p0o9i8u" Scenario.job Scenario.transcription
                Scenario.chat Scenario.summary final eq_refl Hsummary Hfinal)
    as Hempty.
  vm_compute in Hfinal. injection Hfinal as <-. discriminate Hempty.
Qed.

Lemma chapters_absent_witness :
  timestamps (job_options Scenario.job) = false /\
  generateSummary (summarizationRequest Scenario.job Scenario.transcription)
    Scenario.chat = Ok Scenario.summary /\
  sr_chapters Scenario.summary = None.
Proof.
  assert (Hsummary :
            generateSummary
              (summarizationRequest Scenario.job Scenario.transcription)
              Scenario.chat = Ok Scenario.summary)
    by (vm_compute; reflexivity).
  split; [reflexivity|]. split; [exact Hsummary|].
  exact (proj1 chapters_absent_without_timestamps
           (summarizationRequest Scenario.job Scenario.transcription)
           Scenario.chat Scenario.summary eq_refl Hsummary).
Defined.

(** ** Cancellation and clean-up on the worked scenario *)

(** What does hold of terminal statuses: no write is ever applied to a
    completed job, and a failed job is written to again only by the
    pipeline that was processing it (a file job in flight). *)
Lemma completed_is_final (config : Config) (s : machine) :
  reachable config s ->
  Forall (fun e =>
            match e with
            | Created _ => True
            | Updated before updates after =>
                job_status before <> completed /\
                (job_status before = failed -> job_type before = file)
            end) (journal s).
Proof.
  intros Hreach.
  destruct (reachable_ok config s Hreach) as [[Hreg _] _].
  eapply Forall_impl; [apply (ok_journal _ Hreg)|].
  intros [job|before updates after] He; [exact I|].
  destruct He as (_ & _ & _ & _ & Hcompleted & _ & _ & Hurl & _).
  split; [assumption|]. intros Hfailed.
  destruct (job_type before) eqn:Htype; [reflexivity|].
  destruct (Hurl eq_refl) as [[? _]|[[? _]|[? _]]]; congruence.
Qed.

(** C1 on a concrete run: the job is cancelled while the pipeline awaits
    normalisation; [cancelJob] answers true and marks it failed, and the
    pipeline, carrying on, later marks the same job completed. *)
Theorem cancelled_job_is_completed :
  let s := Scenario.started in
  let cancelled := cancelJob 102 Scenario.jobId s in
  let final := run Scenario.config (snd cancelled) Scenario.rest_of_pipeline in
  job_status <$> jobs s !! Scenario.jobId = Some processing /\
  fst cancelled = true /\
  job_status <$> jobs (snd cancelled) !! Scenario.jobId = Some failed /\
  job_status <$> jobs final !! Scenario.jobId = Some completed /\
  status_history Scenario.jobId final
  = [queued; processing; processing; processing; failed; failed; failed;
     failed; completed].
Proof. vm_compute. repeat split; reflexivity. Qed.

(** On the success path the normalised file is removed before the job is
    marked completed; the upload itself stays. *)
Example successful_run_cleans_up :
  let s := run Scenario.config (boot Scenario.files) Scenario.full_run in
  job_status <$> jobs s !! Scenario.jobId = Some completed /\
  fs s !! Scenario.processed = None /\
  fs s !! Scenario.original = Some 1000 /\
  length (stored s) = 1%nat.
Proof. vm_compute. repeat split; reflexivity. Qed.

(** C3 on a concrete run: the transcription fails after the normaliser has
    written its output; the job is failed, the worker is done with it, and
    the normalised file, which did not exist before, is still there. *)
Theorem failed_job_leaves_normalised_file :
  let s := run Scenario.config (boot Scenario.files)
             Scenario.transcription_fails in
  Scenario.files !! Scenario.processed = None /\
  job_status <$> jobs s !! Scenario.jobId = Some failed /\
  worker s = None /\
  fs s !! Scenario.processed = Some 500.
Proof. vm_compute. repeat split; reflexivity. Qed.

(** ** The theorems at work on the scenario *)

Lemma scenario_reachable (events : list event) :
  created_ids events = [Scenario.jobId] ->
  reachable Scenario.config
    (run Scenario.config (boot Scenario.files) events).
Proof.
  intros Hids. exists Scenario.files, events. split; [|reflexivity].
  rewrite Hids. apply NoDup_singleton.
Qed.

Lemma progress_monotone_witness :
  let s := run Scenario.config (boot Scenario.files) Scenario.full_run in
  reachable Scenario.config s /\
  Sorted Z.le (progress_history Scenario.jobId s) /\
  progress_history Scenario.jobId s = [0; 0; 10; 30; 50; 70; 90; 100].
Proof.
  cbv zeta.
  assert (Hreach : reachable Scenario.config
                     (run Scenario.config (boot Scenario.files)
                        Scenario.full_run))
    by (apply scenario_reachable; vm_compute; reflexivity).
  split; [exact Hreach|]. split; [|vm_compute; reflexivity].
  apply (proj1 (proj2 (progress_monotone Scenario.config _ Hreach))).
Defined.

Lemma url_job_fails_witness :
  let s := run Scenario.config (boot Scenario.files) Scenario.link_run in
  (jobs Scenario.link_queued !! Scenario.jobId = Some Scenario.link_job /\
   job_type Scenario.link_job = url /\
   Str.truthy (job_url Scenario.link_job) = true /\
   fst (processJob Scenario.config 100 Scenario.jobId Scenario.link_queued)
   = Ok None /\
   jobs (snd (processJob Scenario.config 100 Scenario.jobId
                Scenario.link_queued)) !! Scenario.jobId
   = Some Scenario.link_failed) /\
  (reachable Scenario.config s /\
   jobs s !! Scenario.jobId = Some Scenario.link_failed /\
   status_history Scenario.jobId s = [queued; processing; failed] /\
   completed ∉ status_history Scenario.jobId s).
Proof.
  cbv zeta.
  destruct (url_job_fails_unless_cancelled Scenario.config)
    as (Hstart & _ & Hnever).
  split.
  - assert (Hjob : jobs Scenario.link_queued !! Scenario.jobId
                   = Some Scenario.link_job) by (vm_compute; reflexivity).
    split; [exact Hjob|]. split; [reflexivity|]. split; [reflexivity|].
    rewrite (Hstart 100 Scenario.jobId Scenario.link_queued
               Scenario.link_job Hjob eq_refl eq_refl).
    split; [reflexivity|]. cbn [snd]. unfold mark_failed. cbn [jobs set_jobs].
    apply lookup_insert_eq.
  - assert (Hreach : reachable Scenario.config
                       (run Scenario.config (boot Scenario.files)
                          Scenario.link_run))
      by (apply scenario_reachable; vm_compute; reflexivity).
    assert (Hjob : jobs (run Scenario.config (boot Scenario.files)
                           Scenario.link_run) !! Scenario.jobId
                   = Some Scenario.link_failed) by (vm_compute; reflexivity).
    split; [exact Hreach|]. split; [exact Hjob|].
    split; [vm_compute; reflexivity|].
    apply (Hnever _ _ _ Hreach Hjob eq_refl).
Defined.

(** C7, as stated, fails: a url job that its owner cancels while it is
    still queued goes from queued to failed without ever being processing,
    and the stored error is the cancellation, not the unsupported source. *)
Lemma url_job_cancelled_while_queued :
  ~ (forall config s jobId job,
       reachable config s ->
       jobs s !! jobId = Some job ->
       job_type job = url ->
       (status_history jobId s = [queued] /\ job_status job = queued) \/
       (status_history jobId s = [queued; processing; failed] /\
        job_status job = failed /\
        job_error job = Some "URL download not implemented yet")).
Proof.
  intros Hclaim.
  set (s := run Scenario.config (boot Scenario.files)
              Scenario.link_cancelled_run).
  assert (Hreach : reachable Scenario.config s).
  { exists Scenario.files, Scenario.link_cancelled_run.
    split; [|reflexivity].
    apply (bool_decide_unpack _). vm_compute. reflexivity. }
  destruct (jobs s !! Scenario.link_jobId) as [job|] eqn:Hjob;
    [|vm_compute in Hjob; discriminate].
  assert (Htype : job_type job = url)
    by (vm_compute in Hjob; injection Hjob as <-; reflexivity).
  assert (Hhistory : status_history Scenario.link_jobId s = [queued; failed])
    by (vm_compute; reflexivity).
  destruct (Hclaim Scenario.config s Scenario.link_jobId job Hreach Hjob
              Htype) as [[Hq _]|[Hq _]];
    rewrite Hhistory in Hq; discriminate Hq.
Qed.

Lemma normalization_falls_back_witness :
  let options :=
    {| convertToWav := Some true; normalizeAudio := Some true |} in
  tool_invoked options = true /\
  fst (processAudio Scenario.original options (ExecResolved "" "") 500
         (boot Scenario.files)) = Ok Scenario.processed /\
  worker Scenario.started
  = Some (AwaitProcessAudio Scenario.jobId Scenario.job Scenario.original
            false) /\
  is_Some (fs Scenario.started !! Scenario.original) /\
  worker (step Scenario.config Scenario.started
            (FfmpegSettled 103 (ExecRejected (JsError "Command failed")) 0))
  = Some (AwaitTranscription Scenario.jobId Scenario.job Scenario.original
            false Scenario.original).
Proof.
  cbv zeta.
  destruct normalization_falls_back as (_ & Hok & Hfail).
  assert (Hw : worker Scenario.started
               = Some (AwaitProcessAudio Scenario.jobId Scenario.job
                         Scenario.original false))
    by (vm_compute; reflexivity).
  assert (Hfile : is_Some (fs Scenario.started !! Scenario.original))
    by (exists 1000; vm_compute; reflexivity).
  split; [reflexivity|]. split.
  - destruct (Hok Scenario.original
                {| convertToWav := Some true; normalizeAudio := Some true |}
                "" "" 500 (boot Scenario.files) eq_refl) as [-> _].
    vm_compute. reflexivity.
  - split; [exact Hw|]. split; [exact Hfile|].
    rewrite (Hfail Scenario.config Scenario.started 103 Scenario.jobId
               Scenario.job Scenario.original false
               (JsError "Command failed") 0 Hw Hfile).
    unfold set_worker. cbn [worker]. reflexivity.
Defined.

Lemma normalised_reachable :
  reachable Scenario.config Scenario.normalised /\
  worker Scenario.normalised = Some Scenario.awaiting_transcription.
Proof.
  split; [|vm_compute; reflexivity].
  apply scenario_reachable. vm_compute. reflexivity.
Qed.

Lemma failure_is_isolated_witness :
  reachable Scenario.config Scenario.normalised /\
  worker Scenario.normalised = Some Scenario.awaiting_transcription /\
  exists r,
    jobs (step Scenario.config Scenario.normalised
            (WhisperSettled 104 (Throw Scenario.whisper_error)))
    !! job_id Scenario.job = Some r /\
    job_status r = failed /\
    job_error r = Some "Transcription failed: 429".
Proof.
  destruct normalised_reachable as [Hreach Hw].
  split; [exact Hreach|]. split; [exact Hw|].
  destruct (failure_is_isolated Scenario.config) as (_ & _ & Hthrows & _).
  apply (Hthrows Scenario.normalised Scenario.awaiting_transcription
           (WhisperSettled 104 (Throw Scenario.whisper_error))
           Scenario.whisper_error 50 Hreach Hw).
  constructor.
Defined.

Lemma failure_keeps_progress_witness :
  reachable Scenario.config Scenario.normalised /\
  worker Scenario.normalised = Some Scenario.awaiting_transcription /\
  exists r,
    jobs (step Scenario.config Scenario.normalised
            (WhisperSettled 104 (Throw Scenario.whisper_error)))
    !! job_id Scenario.job = Some r /\
    job_status r = failed /\
    job_error r = Some "Transcription failed: 429" /\
    job_progress r = 50 /\
    0 < 50 < 100.
Proof.
  destruct normalised_reachable as [Hreach Hw].
  split; [exact Hreach|]. split; [exact Hw|].
  destruct (failure_keeps_progress Scenario.config) as (_ & _ & Hthrows).
  apply (Hthrows Scenario.normalised Scenario.awaiting_transcription
           (WhisperSettled 104 (Throw Scenario.whisper_error))
           Scenario.whisper_error 50 Hreach Hw).
  constructor.
Defined.

(** * Further properties *)

(** ** Strings *)

Lemma app_cons (c : ascii) (a b : string) :
  String c a +:+ b = String c (a +:+ b).
Proof. reflexivity. Qed.

Lemma app_nil (b : string) : "" +:+ b = b.
Proof. reflexivity. Qed.

Lemma string_app_length (a b : string) :
  String.length (a +:+ b) = (String.length a + String.length b)%nat.
Proof.
  induction a as [|c a IH]; [reflexivity|].
  rewrite app_cons. cbn. rewrite IH. reflexivity.
Qed.

Lemma prefix_app (pattern rest : string) :
  String.prefix pattern (pattern +:+ rest) = true.
Proof.
  induction pattern as [|c pattern IH]; [destruct rest; reflexivity|].
  rewrite app_cons. cbn. destruct (ascii_dec c c); [assumption | contradiction].
Qed.

Lemma prefix_head (c : ascii) (pattern s : string) :
  String.prefix (String c pattern) s = true -> exists rest, s = String c rest.
Proof.
  destruct s as [|d s]; cbn; [discriminate|].
  destruct (ascii_dec c d) as [->|]; [eauto | discriminate].
Qed.

Lemma app_assoc_s (a b c : string) : (a +:+ b) +:+ c = a +:+ (b +:+ c).
Proof.
  induction a as [|x a IH]; [reflexivity|]. rewrite !app_cons, IH. reflexivity.
Qed.

Lemma app_cons_r (a : string) (c : ascii) (b : string) :
  a +:+ String c b = (a +:+ String c "") +:+ b.
Proof. rewrite app_assoc_s. reflexivity. Qed.

(** Replacing a pattern that occurs changes the string when the pattern and
    its replacement start differently. *)
Lemma replace_changes (a b : ascii) (pattern replacement pre post : string) :
  a <> b ->
  Str.replace (pre +:+ (String a pattern +:+ post)) (String a pattern)
    (String b replacement)
  <> pre +:+ (String a pattern +:+ post).
Proof.
  intros Hab. induction pre as [|c pre IH].
  - rewrite app_nil.
    assert (Hprefix := prefix_app (String a pattern) post).
    rewrite app_cons in *. cbn [Str.replace]. rewrite Hprefix.
    rewrite app_cons. congruence.
  - rewrite app_cons. cbn [Str.replace].
    destruct (String.prefix _ _) eqn:Hprefix.
    + apply prefix_head in Hprefix as [rest [= <- _]].
      rewrite app_cons. congruence.
    + congruence.
Qed.

Lemma from_last_dot_suffix (seg ext : string) :
  Path.from_last_dot seg = Some ext ->
  exists pre rest, seg = pre +:+ ext /\ ext = String "." rest.
Proof.
  revert ext. induction seg as [|c seg IH]; intros ext; cbn; [discriminate|].
  destruct (Path.from_last_dot seg) as [ext'|] eqn:Hrest.
  - intros [= <-]. destruct (IH ext' eq_refl) as (pre & rest & -> & ->).
    exists (String c pre), rest. split; reflexivity.
  - destruct (Ascii.eqb_spec c "."); [|discriminate].
    intros [= <-]. subst c. exists "", seg. split; reflexivity.
Qed.

Lemma split_slash_occurs (seg acc s : string) :
  seg ∈ Path.split_slash acc s ->
  exists pre post, acc +:+ s = pre +:+ (seg +:+ post).
Proof.
  revert acc. induction s as [|c s IH]; intros acc; cbn.
  - intros ->%list_elem_of_singleton. exists "", "". reflexivity.
  - destruct (Ascii.eqb_spec c "/") as [->|_].
    + intros [->|Hin]%elem_of_cons.
      * exists "", (String "/" s). reflexivity.
      * destruct (IH "" Hin) as (pre & post & Heq). rewrite app_nil in Heq.
        exists (acc +:+ String "/" pre), post.
        rewrite Heq, app_assoc_s, app_cons. reflexivity.
    + intros Hin. destruct (IH _ Hin) as (pre & post & Heq).
      exists pre, post. rewrite <- Heq, app_assoc_s. reflexivity.
Qed.

Lemma extname_occurs (p ext : string) :
  Path.extname p = ext -> ext <> "" ->
  exists pre rest post, p = pre +:+ (String "." rest +:+ post) /\
                        ext = String "." rest.
Proof.
  unfold Path.extname, Path.basename, Path.segments.
  destruct (head _) as [seg|] eqn:Hhead; cbn [default from_option id];
    [|cbn; intros <- Hne; congruence].
  destruct (Path.from_last_dot seg) as [ext'|] eqn:Hext;
    [|intros <- Hne; congruence].
  destruct (_ || _); [intros <- Hne; congruence|]. intros <- _.
  apply from_last_dot_suffix in Hext as (pre1 & rest & -> & ->).
  apply head_Some_elem_of, list_elem_of_filter in Hhead as [_ Hin].
  apply elem_of_reverse, split_slash_occurs in Hin as (pre & post & Heq).
  rewrite app_nil in Heq. exists (pre +:+ pre1), rest, post.
  rewrite Heq, !app_assoc_s. split; reflexivity.
Qed.

(** ** Normalisation paths *)

(** X1: the file the tool is asked to write is never the file it reads: on a
    successful run [processAudio] returns a path other than its input and
    leaves the input file as it was. *)
Theorem normalisation_never_overwrites_input :
  (forall inputPath, output_path inputPath <> inputPath) /\
  (forall inputPath options stdout stderr outputSize s,
     let out := processAudio inputPath options (ExecResolved stdout stderr)
                  outputSize s in
     fs (snd out) !! inputPath = fs s !! inputPath /\
     (tool_invoked options = true -> fst out <> Ok inputPath)).
Proof.
  assert (Hne : forall inputPath, output_path inputPath <> inputPath).
  { intros p. unfold output_path.
    destruct (Path.extname p) as [|c ext] eqn:Hext.
    - intros Heq. apply (f_equal String.length) in Heq.
      destruct p; cbn in Heq; [discriminate|].
      rewrite string_app_length in Heq. cbn in Heq. lia.
    - destruct (extname_occurs p _ Hext) as (pre & rest & post & Hp & [= -> ->]);
        [discriminate|].
      rewrite Hp. apply replace_changes. discriminate. }
  split; [exact Hne|].
  intros inputPath options stdout stderr outputSize s. cbv zeta.
  rewrite processAudio_eq. destruct (tool_invoked options); cbn [fst snd].
  - split; [|intros _ [= Heq]; exact (Hne _ Heq)].
    cbn [fs set_fs]. apply lookup_insert_ne, Hne.
  - split; [reflexivity | discriminate].
Qed.

Lemma from_last_dot_none (seg : string) :
  Str.includes "." seg = false -> Path.from_last_dot seg = None.
Proof.
  induction seg as [|c seg IH]; cbn [Str.includes Path.from_last_dot];
    [reflexivity|].
  intros [Hc Hrest]%orb_false_elim. rewrite (IH Hrest).
  rewrite Ascii.eqb_sym, Hc. reflexivity.
Qed.

(** X2: an input whose file name has no dot has no extension to replace:
    [String.prototype.replace] with an empty pattern inserts at the start,
    so the output path is the input path with [_processed.wav] in front, a
    relative path. *)
Theorem output_path_without_extension (inputPath : string) :
  Str.includes "." (Path.basename inputPath) = false ->
  Path.extname inputPath = "" /\
  output_path inputPath = "_processed.wav" +:+ inputPath /\
  String.prefix "/" (output_path inputPath) = false.
Proof.
  intros Hdot.
  assert (Hext : Path.extname inputPath = "").
  { unfold Path.extname. rewrite (from_last_dot_none _ Hdot). reflexivity. }
  assert (Hout : output_path inputPath = "_processed.wav" +:+ inputPath).
  { unfold output_path. rewrite Hext. destruct inputPath; reflexivity. }
  split; [exact Hext|]. split; [exact Hout|]. rewrite Hout. reflexivity.
Qed.

Lemma output_path_without_extension_witness :
  Str.includes "." (Path.basename "/srv/uploads/u1_1_2") = false /\
  output_path "/srv/uploads/u1_1_2" = "_processed.wav/srv/uploads/u1_1_2".
Proof.
  split; [reflexivity|].
  exact (proj1 (proj2 (output_path_without_extension "/srv/uploads/u1_1_2"
                         eq_refl))).
Defined.

(** ** Titles *)

Lemma take_length (n : nat) (s : string) :
  String.length (Str.take n s) = Nat.min n (String.length s).
Proof.
  revert s. induction n as [|n IH]; intros [|c s]; cbn; try reflexivity.
  rewrite IH. reflexivity.
Qed.

Lemma before_length (c : ascii) (s : string) :
  (String.length (Str.before c s) <= String.length s)%nat.
Proof.
  induction s as [|d s IH]; cbn [Str.before String.length]; [lia|].
  destruct (Ascii.eqb c d); cbn [String.length]; lia.
Qed.

Lemma before_absent (c : ascii) (s : string) :
  Str.includes c s = false -> Str.before c s = s.
Proof.
  induction s as [|d s IH]; cbn [Str.includes Str.before]; [reflexivity|].
  intros [Hc Hrest]%orb_false_elim. rewrite Hc, (IH Hrest). reflexivity.
Qed.

(** X3: [generateTitle] cuts a long first sentence to 60 characters, but a
    title can be up to 63 characters long: a first sentence of at most 60
    characters is kept whole and, when the overview has no full stop, three
    dots are added to it. An overview that is not a string makes it throw:
    the TypeError of reading [split] on [null] or [undefined], and
    "overview.split is not a function" on every other value. *)
Theorem generateTitle_length :
  (forall overview : string,
     exists title,
       generateTitle (VStr overview) = Ok title /\
       (String.length title <= 63)%nat /\
       (Str.includes "." overview = true -> (String.length title <= 60)%nat) /\
       ((60 < String.length (Str.before "." overview))%nat ->
        String.length title = 60%nat) /\
       ((String.length overview <= 60)%nat ->
        Str.includes "." overview = false ->
        title = overview +:+ "...")) /\
  (exists overview title,
     generateTitle (VStr overview) = Ok title /\
     String.length title = 63%nat) /\
  (forall overview,
     nullish overview ->
     generateTitle overview = Throw (cannot_read overview "split")) /\
  (forall overview,
     (forall text, overview <> VStr text) -> ~ nullish overview ->
     generateTitle overview
     = Throw (JsError "overview.split is not a function")).
Proof.
  split; [|split; [|split]].
  - intros overview. unfold generateTitle.
    destruct (60 <? String.length (Str.before "." overview))%nat eqn:Hlong.
    + apply Nat.ltb_lt in Hlong. eexists. split; [reflexivity|].
      rewrite string_app_length, take_length. cbn [String.length].
      repeat split; intros; try lia.
      pose proof (before_length "." overview). lia.
    + apply Nat.ltb_ge in Hlong. eexists. split; [reflexivity|].
      rewrite string_app_length.
      destruct (Str.includes "." overview) eqn:Hdot; cbn [String.length];
        repeat split; intros; try lia; try discriminate.
      rewrite (before_absent _ _ Hdot). reflexivity.
  - exists "The guests talk about the weather for an hour and then leave",
           "The guests talk about the weather for an hour and then leave...".
    split; reflexivity.
  - intros overview [-> | ->]; reflexivity.
  - intros [| |b|x|text|elements|properties] Hnot Hvalue;
      try reflexivity.
    + destruct Hvalue. left. reflexivity.
    + destruct Hvalue. right. reflexivity.
    + destruct (Hnot text eq_refl).
Qed.

(** ** Cancellation *)

Lemma assign_failure (job : ProcessingJob) (message : string) (now : Z) :
  assign job (failure_update message) now = failed_record job message now.
Proof. reflexivity. Qed.

Lemma remove_first_other (jobId j : string) (queue : list string) :
  j <> jobId -> j ∈ remove_first jobId queue <-> j ∈ queue.
Proof.
  intros Hne. induction queue as [|i queue IH]; cbn [remove_first];
    [reflexivity|].
  destruct (String.eqb_spec i jobId) as [->|_].
  - rewrite elem_of_cons. intuition congruence.
  - rewrite !elem_of_cons, IH. reflexivity.
Qed.

Lemma cancelJob_cases (config : Config) (s : machine) (now : Z)
    (jobId : string) :
  reachable config s ->
  let out := cancelJob now jobId s in
  (fst out = true <->
   exists job, jobs s !! jobId = Some job /\
               (job_status job = queued \/ job_status job = processing)) /\
  (fst out = false -> snd out = s) /\
  (fst out = true ->
   (exists job, jobs s !! jobId = Some job /\
                jobs (snd out) !! jobId
                = Some (failed_record job "Cancelled by user" now)) /\
   (jobId ∉ jobQueue (snd out)) /\
   (forall j, j <> jobId ->
      jobs (snd out) !! j = jobs s !! j /\
      (j ∈ jobQueue (snd out) <-> j ∈ jobQueue s)) /\
   fs (snd out) = fs s /\ worker (snd out) = worker s /\
   forall later, cancelJob later jobId (snd out) = (false, snd out)).
Proof.
  intros Hreach. cbv zeta.
  destruct (reachable_ok config s Hreach) as [[Hreg Hworker] _].
  unfold cancelJob. destruct (jobs s !! jobId) as [job|] eqn:Hjob.
  2:{ cbn. split; [|split]; [|reflexivity|discriminate].
      split; [discriminate|]. intros (job & [=] & _). }
  destruct (job_status job) eqn:Hst; cbn [bool_decide decide_rel orb fst snd];
    try rewrite !bool_decide_false by discriminate;
    try rewrite !bool_decide_true by reflexivity; cbn [orb fst snd].
  all: split; [split; [try discriminate; intros _; eauto
                      |try reflexivity;
                       intros (job' & [= <-] & [?|?]); congruence]|].
  all: split; [try reflexivity; discriminate|]; try discriminate; intros _.
  - assert (Hgone : jobId ∉ remove_first jobId (jobQueue s))
      by (apply remove_first_gone, (ok_nodup _ Hreg)).
    split; [|split; [|split; [|split; [|split]]]].
    + exists job. split; [reflexivity|].
      rewrite jobs_updateJob_eq. cbn [jobs set_jobQueue]. rewrite Hjob.
      reflexivity.
    + rewrite jobQueue_updateJob. exact Hgone.
    + intros j Hne. rewrite jobs_updateJob_ne, jobQueue_updateJob by assumption.
      split; [reflexivity|]. cbn [jobQueue set_jobQueue].
      apply remove_first_other. assumption.
    + rewrite fs_updateJob. reflexivity.
    + rewrite worker_updateJob. reflexivity.
    + intros later. rewrite jobs_updateJob_eq. cbn [jobs set_jobQueue].
      rewrite Hjob. cbn. reflexivity.
  - assert (Hout : jobId ∉ jobQueue s).
    { intros Hin. destruct (ok_queue _ Hreg _ Hin) as (r & Hr & Hq & _).
      congruence. }
    split; [|split; [|split; [|split; [|split]]]].
    + exists job. split; [reflexivity|].
      rewrite jobs_updateJob_eq, Hjob. reflexivity.
    + rewrite jobQueue_updateJob. exact Hout.
    + intros j Hne. rewrite jobs_updateJob_ne, jobQueue_updateJob by assumption.
      split; reflexivity.
    + rewrite fs_updateJob. reflexivity.
    + rewrite worker_updateJob. reflexivity.
    + intros later. rewrite jobs_updateJob_eq, Hjob. cbn. reflexivity.
Qed.

(** X4: what [cancelJob] does, in any state the service can be in: it
    answers true exactly for a job that is queued or processing; a refused
    call changes nothing; an accepted one marks the job failed with the
    error "Cancelled by user", keeps its progress, takes it out of the
    queue, leaves every other record alone, and a second call is refused. *)
Theorem cancelJob_contract (config : Config) (s : machine) (now : Z)
    (jobId : string) :
  reachable config s ->
  let out := cancelJob now jobId s in
  (fst out = true <->
   exists job, jobs s !! jobId = Some job /\
               (job_status job = queued \/ job_status job = processing)) /\
  (fst out = false -> snd out = s) /\
  (fst out = true ->
   (exists job, jobs s !! jobId = Some job /\
                jobs (snd out) !! jobId
                = Some (failed_record job "Cancelled by user" now)) /\
   (jobId ∉ jobQueue (snd out)) /\
   (forall j, j <> jobId ->
      jobs (snd out) !! j = jobs s !! j /\
      (j ∈ jobQueue (snd out) <-> j ∈ jobQueue s)) /\
   fs (snd out) = fs s /\ worker (snd out) = worker s /\
   forall later, cancelJob later jobId (snd out) = (false, snd out)).
Proof. apply cancelJob_cases. Qed.


Lemma started_reachable : reachable Scenario.config Scenario.started.
Proof. apply scenario_reachable. reflexivity. Qed.

Lemma cancelJob_contract_witness :
  reachable Scenario.config Scenario.started /\
  fst (cancelJob 102 Scenario.jobId Scenario.started) = true /\
  (Scenario.jobId ∉ jobQueue (snd (cancelJob 102 Scenario.jobId
                                     Scenario.started))).
Proof.
  split; [exact started_reachable|]. split; [vm_compute; reflexivity|].
  apply (cancelJob_contract Scenario.config Scenario.started 102
           Scenario.jobId started_reachable).
  vm_compute. reflexivity.
Defined.

Section Settled.

Variable config : Config.

Lemma processJob_suspends (now : Z) (jobId : string) (s : machine)
    (k : suspended) :
  fst (processJob config now jobId s) = Ok (Some k) ->
  suspended_jobId k = jobId.
Proof.
  rewrite processJob_eq. destruct (jobs s !! jobId) as [job|]; [|discriminate].
  cbv zeta.
  destruct (bool_decide (job_type job = file)
            && Str.truthy (job_originalFile job));
    [|destruct (bool_decide (job_type job = url)
                && Str.truthy (job_url job)); discriminate].
  intros [= <-]. reflexivity.
Qed.

Lemma processQueue_loop_worker (now : Z) (queue : list string) (s : machine)
    (k : suspended) :
  worker (processQueue_loop config now queue s) = Some k ->
  suspended_jobId k ∈ queue.
Proof.
  revert s. induction queue as [|jobId rest IH]; intros s; [discriminate|].
  cbn [processQueue_loop].
  destruct (String.eqb jobId "");
    [intros Hw; apply elem_of_cons; right; exact (IH _ Hw)|].
  pose proof (processJob_suspends now jobId (set_jobQueue rest s)) as Hk.
  destruct (processJob config now jobId (set_jobQueue rest s))
    as [[[k'|]|error] s']; cbn [fst] in Hk.
  - intros [= <-]. rewrite (Hk _ eq_refl). apply elem_of_cons. left.
    reflexivity.
  - intros Hw. apply elem_of_cons. right. exact (IH _ Hw).
  - discriminate.
Qed.

Lemma resume_frame (now : Z) (out : result (option suspended) * machine)
    (j : string) :
  j ∉ jobQueue (snd out) ->
  jobs (resume config now out) !! j = jobs (snd out) !! j.
Proof.
  destruct out as [[[k|]|error] s']; cbn [snd resume]; intros Hj;
    [reflexivity | | reflexivity].
  apply processQueue_loop_frame. assumption.
Qed.

Lemma resume_worker (now : Z) (out : result (option suspended) * machine)
    (k : suspended) :
  worker (resume config now out) = Some k ->
  fst out = Ok (Some k) \/ suspended_jobId k ∈ jobQueue (snd out).
Proof.
  destruct out as [[[k'|]|error] s']; cbn [fst snd resume].
  - intros [= <-]. left. reflexivity.
  - intros Hw. right. exact (processQueue_loop_worker _ _ _ _ Hw).
  - discriminate.
Qed.

Ltac settle Hj Hq Hne :=
  split;
  [ rewrite resume_frame;
    cbn [fst snd jobs jobQueue set_fs storeSummary set_stored];
    rewrite ?jobQueue_updateJob;
    cbn [fst snd jobs jobQueue set_fs storeSummary set_stored];
    rewrite ?jobQueue_updateJob; [|exact Hq];
    repeat first
      [ rewrite jobs_updateJob_ne by (symmetry; exact Hne)
      | progress cbn [jobs set_fs storeSummary set_stored] ];
    exact Hj
  | intros k' [Hk'|Hk']%resume_worker;
    [ cbn [fst] in Hk'; first [discriminate | injection Hk' as <-; exact Hne]
    | cbn [fst snd jobs jobQueue set_fs storeSummary set_stored] in Hk';
      rewrite ?jobQueue_updateJob in Hk';
      cbn [fst snd jobs jobQueue set_fs storeSummary set_stored] in Hk';
      rewrite ?jobQueue_updateJob in Hk';
      intros <-; exact (Hq Hk') ] ].

(** One turn of the event loop leaves a settled job that is not in flight
    as it is. *)
Lemma step_settled (s : machine) (e : event) (j : string)
    (r : ProcessingJob) :
  invariant s -> fresh s e ->
  jobs s !! j = Some r -> settled r -> not_in_flight j s ->
  jobs (step config s e) !! j = Some r /\ not_in_flight j (step config s e).
Proof.
  intros [Hreg Hworker] Hfresh Hj Hsettled Hidle.
  assert (Hq : j ∉ jobQueue s).
  { intros Hin. destruct (ok_queue _ Hreg _ Hin) as (r' & Hr' & Hst & _).
    destruct Hsettled; congruence. }
  destruct e as [now rand user request|now jobId|now outcome
                |now outcome outputSize|now outcome|now rand outcome
                |now path size|now path];
    cbn [step];
    try (destruct (worker s) as [[]|] eqn:Hw; split; try exact Hj;
         unfold not_in_flight; cbn [worker set_fs]; rewrite ?Hw;
         first [exact Hidle | discriminate]).
  - assert (Hnew : generateJobId now rand <> j)
      by (intros Heq; cbn in Hfresh; congruence).
    destruct (createJob_eq config now rand user request s)
      as [->|[Hbusy Hne]]; cbn [snd].
    + destruct (isProcessing s).
      * split; [cbn; rewrite lookup_insert_ne by assumption; exact Hj|].
        exact Hidle.
      * split.
        -- rewrite processQueue_loop_frame; cbn;
             [rewrite lookup_insert_ne by assumption; exact Hj|].
           intros ->%list_elem_of_singleton. congruence.
        -- intros k Hk%processQueue_loop_worker.
           apply list_elem_of_singleton in Hk. congruence.
    + unfold worker_ok in Hworker. destruct (worker s); destruct Hworker;
        congruence.
  - unfold cancelJob. destruct (jobs s !! jobId) as [job|] eqn:Hjob;
      [|split; assumption].
    destruct (bool_decide (job_status job = completed)
              || bool_decide (job_status job = failed)) eqn:Hterminal;
      [split; assumption|]. cbn [snd].
    assert (Hne : j <> jobId).
    { intros ->. rewrite Hjob in Hj. injection Hj as ->.
      apply orb_false_elim in Hterminal as [H1 H2].
      apply bool_decide_eq_false in H1, H2. destruct Hsettled; congruence. }
    split.
    + rewrite jobs_updateJob_ne by assumption.
      destruct (bool_decide (job_status job = queued)); exact Hj.
    + unfold not_in_flight. rewrite worker_updateJob.
      destruct (bool_decide (job_status job = queued)); exact Hidle.
  - destruct (worker s) as [[]|] eqn:Hw; try (split; assumption).
    pose proof (Hidle _ Hw) as Hne. cbn in Hne.
    rewrite processJob_metadata_eq.
    destruct (getAudioMetadata_eq audioFilePath outcome s)
      as (metadata & -> & _).
    destruct metadata; settle Hj Hq Hne.
  - destruct (worker s) as [[]|] eqn:Hw; try (split; assumption).
    pose proof (Hidle _ Hw) as Hne. cbn in Hne.
    rewrite processJob_processAudio_eq.
    destruct outcome; cbv zeta;
      match goal with |- context [fs ?s2 !! ?p] => destruct (fs s2 !! p) end;
      settle Hj Hq Hne.
  - destruct (worker s) as [[]|] eqn:Hw; try (split; assumption).
    pose proof (Hidle _ Hw) as Hne. cbn in Hne.
    rewrite processJob_transcription_eq.
    destruct outcome; settle Hj Hq Hne.
  - destruct (worker s) as [[]|] eqn:Hw; try (split; assumption).
    pose proof (Hidle _ Hw) as Hne. cbn in Hne.
    rewrite processJob_summary_eq.
    destruct (generateSummary _ outcome) as [summary|error]; cbv zeta;
      [destruct (finalSummary now rand job transcription summary)|];
      settle Hj Hq Hne.
  - split; [exact Hj | exact Hidle].
  - split; [exact Hj | exact Hidle].
Qed.

End Settled.

Lemma run_settled (config : Config) (events : list event) (s : machine)
    (j : string) (r : ProcessingJob) :
  invariant s -> single_worker s ->
  jobs s !! j = Some r -> settled r -> not_in_flight j s ->
  NoDup (created_ids events) ->
  (forall i, i ∈ created_ids events -> jobs s !! i = None) ->
  jobs (run config s events) !! j = Some r.
Proof.
  revert s.
  induction events as [|e events IH];
    intros s Hinv Hone Hj Hsettled Hidle Hnodup Hfresh; [exact Hj|].
  change (run config s (e :: events))
    with (run config (step config s e) events).
  assert (Hsplit : created_ids (e :: events)
                   = created_ids [e] ++ created_ids events)
    by (unfold created_ids; cbn; destruct e; reflexivity).
  rewrite Hsplit in Hnodup, Hfresh.
  apply NoDup_app in Hnodup as (_ & Hdisjoint & Hnodup).
  assert (Hfresh_e : fresh s e).
  { destruct e; cbn; auto. apply Hfresh. cbn. left. }
  destruct (step_settled config s e j r Hinv Hfresh_e Hj Hsettled Hidle)
    as [Hj' Hidle'].
  apply IH; auto.
  - apply step_ok; assumption.
  - apply step_single; assumption.
  - intros i Hi. apply step_ids.
    + intros Hi'. exact (Hdisjoint i Hi' Hi).
    + apply Hfresh, elem_of_app. right. assumption.
Qed.

(** X5: a job that has reached a terminal status and is not the one in
    flight is never written to again, whatever happens next: its record
    stays as it is. In particular a job cancelled while it was queued is
    never started: its record stays failed, at progress 0, with the error
    "Cancelled by user". *)
Theorem settled_job_is_final (config : Config) (s : machine) :
  reachable config s ->
  (forall j r events,
     jobs s !! j = Some r ->
     job_status r = completed \/ job_status r = failed ->
     (forall k, worker s = Some k -> suspended_jobId k <> j) ->
     NoDup (created_ids events) ->
     (forall i, i ∈ created_ids events -> jobs s !! i = None) ->
     jobs (run config s events) !! j = Some r) /\
  (forall now jobId job events,
     jobs s !! jobId = Some job ->
     job_status job = queued ->
     NoDup (created_ids events) ->
     (forall i, i ∈ created_ids events -> jobs s !! i = None) ->
     jobs (run config (snd (cancelJob now jobId s)) events) !! jobId
     = Some (failed_record job "Cancelled by user" now)).
Proof.
  intros Hreach. destruct (reachable_ok config s Hreach) as [Hinv Hone].
  split.
  - intros j r events Hj Hsettled Hidle Hnodup Hfresh.
    apply run_settled; assumption.
  - intros now jobId job events Hjob Hqueued Hnodup Hfresh.
    pose proof (step_ok config s (CancelJob now jobId) Hinv Hone I) as Hinv'.
    pose proof (step_single config s (CancelJob now jobId) Hinv Hone I)
      as Hone'.
    cbn [step] in Hinv', Hone'.
    assert (Hout : snd (cancelJob now jobId s)
                   = updateJob now jobId (failure_update "Cancelled by user")
                       (set_jobQueue (remove_first jobId (jobQueue s)) s)).
    { unfold cancelJob. rewrite Hjob, Hqueued. reflexivity. }
    apply run_settled; try assumption.
    + rewrite Hout, jobs_updateJob_eq. cbn [jobs set_jobQueue].
      rewrite Hjob. reflexivity.
    + right. reflexivity.
    + intros k. rewrite Hout, worker_updateJob. cbn [worker set_jobQueue].
      intros Hw <-. destruct Hinv as [_ Hworker]. unfold worker_ok in Hworker.
      rewrite Hw in Hworker.
      destruct Hworker as (_ & _ & r & Hr & _ & _ & [Hst|[Hst _]]);
        congruence.
    + intros i Hi. rewrite Hout. apply jobs_updateJob_None.
      cbn [jobs set_jobQueue]. apply Hfresh. assumption.
Qed.

Lemma settled_job_is_final_witness :
  let s := run Scenario.config (boot Scenario.files) Scenario.link_run in
  reachable Scenario.config s /\
  jobs (run Scenario.config s [CancelJob 200 Scenario.jobId])
  !! Scenario.jobId = Some Scenario.link_failed.
Proof.
  cbv zeta.
  assert (Hreach : reachable Scenario.config
                     (run Scenario.config (boot Scenario.files)
                        Scenario.link_run))
    by (apply scenario_reachable; reflexivity).
  split; [exact Hreach|].
  apply (proj1 (settled_job_is_final Scenario.config _ Hreach)).
  - vm_compute. reflexivity.
  - right. vm_compute. reflexivity.
  - intros k Hk. vm_compute in Hk. discriminate.
  - constructor.
  - intros i Hi. apply elem_of_nil in Hi. contradiction.
Defined.

(** ** Submission *)

(** X6: the turn of the event loop in which [createJob] is called, [s']
    being the service at the end of that turn.  The call returns the job it
    registered.  On a busy service the job is only registered and put at the
    end of the queue.  On an idle service it is taken up in the same turn: a
    file job is marked processing at progress 10 and the worker awaits the
    metadata probe of the uploaded file; a url job or a job without a file
    is failed before the turn ends, at progress 0, leaving the worker idle.
    Either way the queue is empty again at the end of the turn.  (The call
    itself returns before the promise continuations of the turn have run:
    its caller can still see a url job as processing.) *)
Theorem createJob_starts_idle_worker (config : Config) (s : machine)
    (now : Z) (rand : string) (user : User) (request : UploadRequest) :
  let jobId := generateJobId now rand in
  let job := new_job now rand user request in
  let s' := snd (createJob config now rand user request s) in
  fst (createJob config now rand user request s) = jobId /\
  (isProcessing s = true ->
   s' = enqueued now rand user request s /\
   jobs s' !! jobId = Some job /\
   jobQueue s' = jobQueue s ++ [jobId] /\
   worker s' = worker s) /\
  (isProcessing s = false -> jobQueue s = [] ->
   jobQueue s' = [] /\
   (forall j, j <> jobId -> jobs s' !! j = jobs s !! j) /\
   (forall f,
      req_type request = file -> req_file request = Some f ->
      filename f <> "" ->
      isProcessing s' = true /\
      worker s'
      = Some (AwaitMetadata jobId job
                (Path.join (uploadDir config) (filename f)) false) /\
      exists r, jobs s' !! jobId = Some r /\ job_status r = processing /\
                job_progress r = 10) /\
   (req_type request = url \/ req_file request = None ->
    isProcessing s' = false /\ worker s' = None /\
    exists r, jobs s' !! jobId = Some r /\ job_status r = failed /\
              job_progress r = 0 /\
              job_error r
              = Some (if bool_decide (req_type request = url)
                         && Str.truthy (req_url request)
                      then "URL download not implemented yet"
                      else "No valid audio source provided"))).
Proof.
  cbv zeta. split; [reflexivity|]. split.
  - intros Hbusy.
    destruct (createJob_eq config now rand user request s) as [->|[? _]];
      [|congruence].
    rewrite Hbusy. cbn [snd]. repeat split.
    cbn. apply lookup_insert_eq.
  - intros Hidle Hempty.
    destruct (createJob_eq config now rand user request s) as [->|[_ ?]];
      [|congruence].
    rewrite Hidle. cbn [snd processQueue_loop].
    change (String.eqb (generateJobId now rand) "") with false. cbv iota.
    rewrite processJob_eq.
    cbn [jobs set_jobQueue set_isProcessing enqueued set_jobs].
    rewrite lookup_insert_eq. cbv zeta.
    cbn [new_job job_type job_originalFile job_url].
    set (start := status_ processing (progress_ 0 no_updates)).
    set (queued0 := set_jobQueue []
                      (set_isProcessing true
                         (enqueued now rand user request s))).
    assert (Hnew : jobs queued0 !! generateJobId now rand
                   = Some (new_job now rand user request))
      by (cbn; apply lookup_insert_eq).
    assert (Hother : forall j, j <> generateJobId now rand ->
                               jobs queued0 !! j = jobs s !! j)
      by (intros j Hne; cbn; apply lookup_insert_ne; congruence).
    destruct (bool_decide (req_type request = file)
              && Str.truthy (filename <$> req_file request)) eqn:Hfile.
    + apply andb_prop in Hfile as [Htype%bool_decide_eq_true Hname].
      destruct (req_file request) as [f|] eqn:Hf; [|discriminate].
      cbn [fmap option_fmap option_map Str.truthy default] in *.
      cbn [fst snd jobQueue jobs worker isProcessing set_worker].
      rewrite !jobQueue_updateJob, !isProcessing_updateJob.
      split; [reflexivity|]. split; [|split].
      * intros j Hne. rewrite !jobs_updateJob_ne by assumption. auto.
      * intros f' _ [= <-] _. split; [reflexivity|]. split; [reflexivity|].
        rewrite !jobs_updateJob_eq, Hnew. cbn. eauto.
      * intros [Hurl|[=]]. congruence.
    + destruct (bool_decide (req_type request = url)
                && Str.truthy (req_url request)) eqn:Hurl;
        cbn [fst snd processQueue_loop jobQueue jobs worker isProcessing
             set_worker set_isProcessing set_jobQueue];
        (split; [reflexivity|]); (split; [|split]);
        try (intros j Hne; rewrite !jobs_updateJob_ne by assumption; auto);
        try (intros f Htype Hf Hname; rewrite Htype, Hf in Hfile;
             cbn in Hfile; destruct (String.eqb_spec (filename f) "");
             [contradiction | discriminate]);
        intros _; (split; [reflexivity|]); (split; [reflexivity|]);
        rewrite !jobs_updateJob_eq, Hnew; cbn; eauto 10.
Qed.

(** ** The metadata probe *)

(** X7: [getAudioMetadata] never throws and never changes anything. It gives
    null exactly when the probe command failed or the file does not exist;
    otherwise the size is the one on disk, the format is the extension of
    the path in lower case without its dot, and the duration is 0 when the
    diagnostics hold no [Duration: hh:mm:ss.cc]. *)
Theorem getAudioMetadata_null_iff_unreadable (filePath : string)
    (outcome : exec_outcome) (s : machine) :
  exists metadata,
    getAudioMetadata filePath outcome s = (Ok metadata, s) /\
    (metadata = None <->
     (exists error, outcome = ExecRejected error) \/
     fs s !! filePath = None) /\
    (forall m, metadata = Some m ->
       fs s !! filePath = Some (am_size m) /\
       am_format m = Str.drop 1 (Str.toLowerCase (Path.extname filePath)) /\
       forall stdout stderr,
         outcome = ExecResolved stdout stderr ->
         duration_match stderr = None -> am_duration m = 0%float).
Proof.
  unfold getAudioMetadata, try_catch, bind, statSync, throw, ret.
  destruct outcome as [stdout stderr|error].
  - destruct (fs s !! filePath) as [size|] eqn:Hfile.
    + eexists. split; [reflexivity|]. split.
      * split; [discriminate|]. intros [[error [=]]|[=]].
      * intros m [= <-]. cbn. repeat split.
        intros ? ? [= <- <-] ->. reflexivity.
    + exists None. split; [reflexivity|]. split; [|discriminate].
      split; auto.
  - exists None. split; [reflexivity|]. split; [|discriminate].
    split; eauto.
Qed.

(** ** Assembly of the summary *)

Lemma generateSummary_overview (request : SummarizationRequest)
    (choice0 : ChatChoice) (reply : value) (summary : SummarizationResponse) :
  content choice0 = ContentParsed reply ->
  generateSummary request (ChatResolved choice0) = Ok summary ->
  exists overview,
    Value.get reply "overview" = Ok overview /\
    sr_overview summary = Value.or overview (VStr "").
Proof.
  unfold generateSummary, generateSummary_body. intros ->.
  destruct (Value.get reply "overview") as [overview|] eqn:Hoverview;
    cbn [result_bind]; [|discriminate].
  repeat match goal with
         | |- context [result_bind ?r _] =>
             destruct r; cbn [result_bind]; [|discriminate]
         end.
  intros [= <-]. eauto.
Qed.

(** X8: when the model's reply carries an overview that is not a string (and
    is truthy, so that the default does not replace it), [generateSummary]
    accepts it, and [processJob] then throws while building the title: the
    job stops at progress 90 and is marked failed with the error
    "overview.split is not a function"; nothing is stored and no file is
    removed. *)
Theorem nonstring_overview_fails_the_job (now : Z) (rand : string)
    (jobId : string) (job : ProcessingJob) (audioFilePath : string)
    (shouldCleanup : bool) (processedAudioPath : string)
    (transcription : TranscriptionResponse) (choice0 : ChatChoice)
    (reply overview : value) (summary : SummarizationResponse) (s : machine) :
  content choice0 = ContentParsed reply ->
  Value.get reply "overview" = Ok overview ->
  Value.truthy overview = true ->
  (forall text, overview <> VStr text) ->
  generateSummary (summarizationRequest job transcription)
    (ChatResolved choice0) = Ok summary ->
  let out := processJob_summary now rand jobId job audioFilePath
               shouldCleanup processedAudioPath transcription
               (ChatResolved choice0) s in
  sr_overview summary = overview /\
  out = (Ok None,
         updateJob now jobId
           (failure_update "overview.split is not a function")
           (updateJob now jobId (progress_ 90 no_updates) s)) /\
  stored (snd out) = stored s /\ fs (snd out) = fs s.
Proof.
  intros Hcontent Hoverview Htruthy Hnot Hsummary. cbv zeta.
  destruct (generateSummary_overview _ _ _ _ Hcontent Hsummary)
    as (overview' & Hget & Hov).
  rewrite Hoverview in Hget. injection Hget as <-.
  unfold Value.or in Hov. rewrite Htruthy in Hov.
  split; [exact Hov|].
  rewrite processJob_summary_eq, Hsummary. cbv zeta.
  unfold finalSummary. rewrite Hov.
  assert (Htitle : generateTitle overview
                   = Throw (JsError "overview.split is not a function")).
  { destruct overview as [| |b|x|text|elements|properties];
      try discriminate Htruthy; try reflexivity.
    destruct (Hnot text eq_refl). }
  rewrite Htitle. cbn [result_bind message_of fst snd].
  split; [reflexivity|].
  rewrite !stored_updateJob, !fs_updateJob. split; reflexivity.
Qed.

Lemma nonstring_overview_witness :
  let reply := VObj [("overview", VArr [VStr "Part one"; VStr "Part two"])] in
  let choice0 := {| content := ContentParsed reply;
                    finish_reason := "stop" |} in
  exists summary,
    generateSummary
      (summarizationRequest Scenario.job Scenario.transcription)
      (ChatResolved choice0) = Ok summary /\
    fst (processJob_summary 105 "p0o9i8u" Scenario.jobId Scenario.job
           Scenario.original false Scenario.processed
           Scenario.transcription (ChatResolved choice0)
           Scenario.normalised) = Ok None.
Proof.
  cbv zeta. eexists. split; [vm_compute; reflexivity|].
  refine (f_equal fst
            (proj1 (proj2 (nonstring_overview_fails_the_job 105 "p0o9i8u"
               Scenario.jobId Scenario.job Scenario.original false
               Scenario.processed Scenario.transcription
               {| content :=
                    ContentParsed
                      (VObj [("overview",
                              VArr [VStr "Part one"; VStr "Part two"])]);
                  finish_reason := "stop" |}
               (VObj [("overview", VArr [VStr "Part one"; VStr "Part two"])])
               (VArr [VStr "Part one"; VStr "Part two"]) _
               Scenario.normalised eq_refl eq_refl eq_refl _ _)))).
  - discriminate.
  - vm_compute. reflexivity.
Defined.

Lemma get_property (v : value) (key : string) :
  ~ nullish v -> Value.get v key = Ok (property v key).
Proof.
  unfold nullish. destruct v; cbn; intros Hv; try reflexivity;
    exfalso; apply Hv; auto.
Qed.

Lemma get_nullish (v : value) (key : string) :
  nullish v -> Value.get v key = Throw (cannot_read v key).
Proof. intros [->| ->]; reflexivity. Qed.

Lemma result_map_elementwise {A} (f : value -> result A) (g : value -> A)
    (first : string) (elements : list value) :
  (forall v, ~ nullish v -> f v = Ok (g v)) ->
  (forall v, nullish v -> f v = Throw (cannot_read v first)) ->
  (Forall (fun v => ~ nullish v) elements ->
   result_map f elements = Ok (g <$> elements)) /\
  (forall before v after,
     elements = before ++ v :: after ->
     Forall (fun v => ~ nullish v) before -> nullish v ->
     result_map f elements = Throw (cannot_read v first)).
Proof.
  intros Hok Hthrow. split.
  - induction 1 as [|v elements Hv _ IH]; [reflexivity|].
    cbn. rewrite (Hok v Hv), IH. reflexivity.
  - intros before v after -> Hbefore Hv.
    induction Hbefore as [|w before Hw _ IH]; cbn.
    + rewrite (Hthrow v Hv). reflexivity.
    + rewrite (Hok w Hw), IH. reflexivity.
Qed.

(** X9: [processKeyPoints] and [processChapters] map over the list in order,
    filling in the defaults for missing or falsy fields, and throw a
    TypeError on the first element that is null or undefined.  On a value
    that is not an array they throw too: the TypeError of reading [map] on
    [null] or [undefined], and "<name>.map is not a function" on every
    other value. *)
Theorem processKeyPoints_and_processChapters_elementwise :
  (forall elements,
     Forall (fun v => ~ nullish v) elements ->
     processKeyPoints (VArr elements) = Ok (keyPoint_of <$> elements) /\
     processChapters (VArr elements) = Ok (chapter_of <$> elements)) /\
  (forall before v after,
     Forall (fun v => ~ nullish v) before -> nullish v ->
     processKeyPoints (VArr (before ++ v :: after))
     = Throw (cannot_read v "title") /\
     processChapters (VArr (before ++ v :: after))
     = Throw (cannot_read v "title")) /\
  (forall v,
     nullish v ->
     processKeyPoints v = Throw (cannot_read v "map") /\
     processChapters v = Throw (cannot_read v "map")) /\
  (forall v,
     (forall elements, v <> VArr elements) -> ~ nullish v ->
     processKeyPoints v = Throw (JsError "keyPoints.map is not a function") /\
     processChapters v = Throw (JsError "chapters.map is not a function")).
Proof.
  assert (Hk : forall v, ~ nullish v ->
            result_bind (Value.get v "title") (fun title =>
            result_bind (Value.get v "description") (fun description =>
            result_bind (Value.get v "timestamp") (fun timestamp =>
            result_bind (Value.get v "importance") (fun importance =>
            Ok {| kp_title := Value.or title (VStr "");
                  kp_description := Value.or description (VStr "");
                  kp_timestamp := Value.or timestamp VUndefined;
                  kp_importance := Value.or importance (VStr "medium") |}))))
            = Ok (keyPoint_of v)).
  { intros v Hv. rewrite !(get_property v) by assumption. reflexivity. }
  assert (Hc : forall v, ~ nullish v ->
            result_bind (Value.get v "title") (fun title =>
            result_bind (Value.get v "start") (fun start =>
            result_bind (Value.get v "end") (fun end_ =>
            result_bind (Value.get v "summary") (fun summary =>
            result_bind (Value.get v "keyPoints") (fun keyPoints =>
            Ok {| ch_title := Value.or title (VStr "");
                  ch_start := Value.or start (VNum 0);
                  ch_end := Value.or end_ (VNum 0);
                  ch_summary := Value.or summary (VStr "");
                  ch_keyPoints := Value.or keyPoints (VArr []) |})))))
            = Ok (chapter_of v)).
  { intros v Hv. rewrite !(get_property v) by assumption. reflexivity. }
  assert (Hkt : forall v, nullish v ->
            result_bind (Value.get v "title") (fun title =>
            result_bind (Value.get v "description") (fun description =>
            result_bind (Value.get v "timestamp") (fun timestamp =>
            result_bind (Value.get v "importance") (fun importance =>
            Ok {| kp_title := Value.or title (VStr "");
                  kp_description := Value.or description (VStr "");
                  kp_timestamp := Value.or timestamp VUndefined;
                  kp_importance := Value.or importance (VStr "medium") |}))))
            = Throw (cannot_read v "title")).
  { intros v Hv. rewrite (get_nullish v "title" Hv). reflexivity. }
  assert (Hct : forall v, nullish v ->
            result_bind (Value.get v "title") (fun title =>
            result_bind (Value.get v "start") (fun start =>
            result_bind (Value.get v "end") (fun end_ =>
            result_bind (Value.get v "summary") (fun summary =>
            result_bind (Value.get v "keyPoints") (fun keyPoints =>
            Ok {| ch_title := Value.or title (VStr "");
                  ch_start := Value.or start (VNum 0);
                  ch_end := Value.or end_ (VNum 0);
                  ch_summary := Value.or summary (VStr "");
                  ch_keyPoints := Value.or keyPoints (VArr []) |})))))
            = Throw (cannot_read v "title")).
  { intros v Hv. rewrite (get_nullish v "title" Hv). reflexivity. }
  split; [|split; [|split]].
  - intros elements Helements.
    unfold processKeyPoints, processChapters, map_any. split.
    + exact (proj1 (result_map_elementwise _ keyPoint_of "title" elements
                      Hk Hkt) Helements).
    + exact (proj1 (result_map_elementwise _ chapter_of "title" elements
                      Hc Hct) Helements).
  - intros before v after Hbefore Hv.
    unfold processKeyPoints, processChapters, map_any. split.
    + exact (proj2 (result_map_elementwise _ keyPoint_of "title" _ Hk Hkt)
               before v after eq_refl Hbefore Hv).
    + exact (proj2 (result_map_elementwise _ chapter_of "title" _ Hc Hct)
               before v after eq_refl Hbefore Hv).
  - intros v [-> | ->]; split; reflexivity.
  - intros [| |b|x|text|elements|properties] Hv Hvalue;
      try (split; reflexivity).
    + destruct Hvalue. left. reflexivity.
    + destruct Hvalue. right. reflexivity.
    + destruct (Hv elements eq_refl).
Qed.

(** ** Failures of the two clients *)

(** X10: whatever goes wrong in [generateSummary], what it throws is an
    Error whose message is "Summarization failed: " followed by the message
    of the cause: a rejected call, a reply without content, a reply that is
    not JSON, or a TypeError on a reply of the wrong shape. [processJob]
    stores that message as the job's error and marks the job failed; nothing
    is stored and no file is touched. *)
Theorem generateSummary_failure_message :
  (forall request completion error,
     generateSummary request completion = Throw error ->
     exists reason,
       error = JsError ("Summarization failed: " +:+ reason)) /\
  (forall request error,
     generateSummary request (ChatRejected error)
     = Throw (JsError ("Summarization failed: " +:+ message_of error))) /\
  (forall request choice0,
     content choice0 = ContentMissing ->
     generateSummary request (ChatResolved choice0)
     = Throw (JsError
                "Summarization failed: No response content from OpenAI")) /\
  (forall request choice0,
     content choice0 = ContentMalformed ->
     generateSummary request (ChatResolved choice0)
     = Throw (JsError
                "Summarization failed: Invalid JSON response from OpenAI")) /\
  (forall now rand jobId job audioFilePath shouldCleanup processedAudioPath
          transcription outcome error s r,
     generateSummary (summarizationRequest job transcription) outcome
     = Throw error ->
     jobs s !! jobId = Some r ->
     let out := processJob_summary now rand jobId job audioFilePath
                  shouldCleanup processedAudioPath transcription outcome s in
     fst out = Ok None /\
     jobs (snd out) !! jobId
     = Some (failed_record r (message_of error) now) /\
     stored (snd out) = stored s /\ fs (snd out) = fs s).
Proof.
  split; [|split; [|split; [|split]]].
  - intros request completion error. unfold generateSummary.
    destruct (generateSummary_body request completion); [discriminate|].
    intros [= <-]. eauto.
  - reflexivity.
  - intros request choice0 Hcontent.
    unfold generateSummary, generateSummary_body. rewrite Hcontent.
    reflexivity.
  - intros request choice0 Hcontent.
    unfold generateSummary, generateSummary_body. rewrite Hcontent.
    reflexivity.
  - intros now rand jobId job audioFilePath shouldCleanup processedAudioPath
      transcription outcome error s r Hfail Hr. cbv zeta.
    rewrite processJob_summary_eq, Hfail. cbn [fst snd].
    rewrite stored_updateJob, fs_updateJob, jobs_updateJob_eq, Hr.
    repeat split.
Qed.

(** X11: a transcription that succeeds always names a language (the
    service's, else the one asked for, else "en") and carries a segment list
    as long as the service's (empty when it sent none); a segment whose
    average log probability is absent or zero gets no confidence, and when
    no segment has one the overall confidence is the default 0.8. A failure
    is rethrown as "Transcription failed: " followed by the cause. *)
Theorem transcribeAudio_response (Math_exp : float -> float)
    (trim : string -> string) (request : TranscriptionRequest) :
  (forall error,
     transcribeAudio Math_exp trim request (Throw error)
     = Throw (JsError ("Transcription failed: " +:+ message_of error))) /\
  (forall transcription,
     exists response segments,
       transcribeAudio Math_exp trim request (Ok transcription)
       = Ok response /\
       tr_text response = wt_text transcription /\
       tr_language response <> "" /\
       tr_language response
       = match wt_language transcription, tq_language request with
         | Some l, requested =>
             if String.eqb l "" then
               match requested with
               | Some l' => if String.eqb l' "" then "en" else l'
               | None => "en"
               end
             else l
         | None, Some l' => if String.eqb l' "" then "en" else l'
         | None, None => "en"
         end /\
       tr_segments response = Some segments /\
       length segments = length (default [] (wt_segments transcription)) /\
       (Forall (fun segment =>
                  match ws_avg_logprob segment with
                  | None => True
                  | Some x => is_zero x = true \/ is_nan x = true
                  end) (default [] (wt_segments transcription)) ->
        Forall (fun segment => ts_confidence segment = None) segments /\
        tr_confidence response = 0.8%float)).
Proof.
  split; [reflexivity|].
  intros transcription. eexists _, _. split; [reflexivity|].
  cbn [tr_text tr_language tr_segments tr_confidence].
  split; [reflexivity|]. split; [|split; [|split; [reflexivity|split]]].
  - unfold truthy_string.
    destruct (wt_language transcription) as [l|], (tq_language request)
      as [l'|]; cbn;
      repeat match goal with
             | |- context [String.eqb ?a ""] =>
                 destruct (String.eqb_spec a "")
             end; cbn; congruence.
  - unfold truthy_string.
    destruct (wt_language transcription) as [l|], (tq_language request)
      as [l'|]; cbn;
      repeat match goal with
             | |- context [String.eqb ?a ""] =>
                 destruct (String.eqb_spec a "")
             end; reflexivity.
  - destruct (wt_segments transcription); cbn; [|reflexivity].
    rewrite length_map. reflexivity.
  - intros Hnone.
    assert (Hall : Forall (fun segment => ts_confidence segment = None)
                     (default []
                        (map (fun segment =>
                                {| ts_start := ws_start segment;
                                   ts_end := ws_end segment;
                                   ts_text := trim (ws_text segment);
                                   ts_confidence :=
                                     Math_exp <$>
                                     truthy_number (ws_avg_logprob segment) |})
                           <$> wt_segments transcription))).
    { destruct (wt_segments transcription) as [l|]; cbn in *; [|constructor].
      induction Hnone as [|segment l Hs _ IH]; cbn; constructor; auto.
      cbn. destruct (ws_avg_logprob segment) as [x|]; [|reflexivity].
      cbn. destruct Hs as [-> | ->]; [reflexivity|].
      rewrite orb_true_r. reflexivity. }
    split; [exact Hall|].
    unfold calculateOverallConfidence.
    destruct (decide _); [reflexivity|].
    change (omap ts_confidence ?l) with (available_confidences l).
    rewrite (omap_confidence_nil _ Hall). reflexivity.
Qed.

(** ** Housekeeping *)

Lemma sweep_spec (old : ProcessingJob -> bool)
    (l : list (string * ProcessingJob)) (c : nat)
    (m : gmap string ProcessingJob) :
  NoDup l.*1 ->
  (forall j r, (j, r) ∈ l -> m !! j = Some r) ->
  let out :=
    foldl (fun acc entry =>
             if old (snd entry) then (S (fst acc), delete (fst entry) (snd acc))
             else acc) (c, m) l in
  (forall j,
     snd out !! j
     = match m !! j with
       | Some r => if old r && bool_decide (j ∈ l.*1) then None else Some r
       | None => None
       end) /\
  (fst out + size (snd out) = c + size m)%nat.
Proof.
  revert c m. induction l as [|[i x] l IH]; intros c m Hnodup Hin; cbv zeta.
  - cbn. split; [|reflexivity]. intros j.
    destruct (m !! j) as [r|]; [|reflexivity].
    rewrite bool_decide_false by apply not_elem_of_nil.
    rewrite andb_false_r. reflexivity.
  - cbn [foldl fst snd]. cbn in Hnodup.
    apply NoDup_cons in Hnodup as [Hi Hnodup].
    assert (Hix : m !! i = Some x) by (apply Hin; left).
    destruct (old x) eqn:Hold.
    + destruct (IH (S c) (delete i m) Hnodup) as [Hlookup Hcount].
      { intros j r Hjr.
        rewrite lookup_delete_ne; [apply Hin; right; exact Hjr|].
        intros <-. apply Hi, list_elem_of_fmap. exists (i, r). auto. }
      split.
      * intros j. rewrite Hlookup. destruct (decide (j = i)) as [->|Hne].
        -- rewrite lookup_delete_eq, Hix, Hold.
           rewrite bool_decide_true by left. reflexivity.
        -- rewrite lookup_delete_ne by congruence.
           destruct (m !! j) as [r|]; [|reflexivity].
           rewrite (bool_decide_ext (j ∈ l.*1) (j ∈ ((i, x) :: l).*1));
             [reflexivity|].
           cbn. rewrite elem_of_cons. intuition congruence.
      * rewrite Hcount, map_size_delete, Hix.
        assert (size m <> 0%nat).
        { intros Hz%map_size_empty_inv. rewrite Hz, lookup_empty in Hix.
          discriminate. }
        lia.
    + destruct (IH c m Hnodup) as [Hlookup Hcount].
      { intros j r Hjr. apply Hin. right. exact Hjr. }
      split; [|exact Hcount].
      intros j. rewrite Hlookup.
      destruct (m !! j) as [r|] eqn:Hj; [|reflexivity].
      destruct (old r) eqn:Hr; [|reflexivity]. cbn [andb].
      rewrite (bool_decide_ext (j ∈ l.*1) (j ∈ ((i, x) :: l).*1));
        [reflexivity|].
      cbn. rewrite elem_of_cons. split; [auto|].
      intros [->|?]; [|assumption]. congruence.
Qed.

Lemma run_ids (config : Config) (events : list event) (s : machine)
    (j : string) :
  j ∉ created_ids events ->
  jobs s !! j = None ->
  jobs (run config s events) !! j = None.
Proof.
  revert s. induction events as [|e events IH]; intros s Hnew Hnone;
    [exact Hnone|].
  change (run config s (e :: events))
    with (run config (step config s e) events).
  assert (Hsplit : created_ids (e :: events)
                   = created_ids [e] ++ created_ids events)
    by (unfold created_ids; cbn; destruct e; reflexivity).
  rewrite Hsplit in Hnew. apply not_elem_of_app in Hnew as [Hnew1 Hnew2].
  apply IH; [assumption|]. apply step_ids; assumption.
Qed.

(** X12: [cleanupOldJobs] removes exactly the jobs created more than
    [maxAgeMs] (a day by default) before now and returns how many they were.
    It looks at nothing but the age: the queue and the worker are left as
    they are, so a removed job may still be queued or in flight; it is then
    skipped or its updates are dropped, and its record never comes back. *)
Theorem cleanupOldJobs_removes_by_age (config : Config) (now : Z)
    (maxAgeMs : option Z) (s : machine) :
  let limit := default 86400000 maxAgeMs in
  let out := cleanupOldJobs now maxAgeMs s in
  (forall j r,
     jobs (snd out) !! j = Some r <->
     jobs s !! j = Some r /\ now - job_createdAt r <= limit) /\
  (fst out + size (jobs (snd out)) = size (jobs s))%nat /\
  jobQueue (snd out) = jobQueue s /\ worker (snd out) = worker s /\
  isProcessing (snd out) = isProcessing s /\ fs (snd out) = fs s /\
  (forall j later updates,
     jobs (snd out) !! j = None ->
     processJob config later j (snd out) = (Ok None, snd out) /\
     updateJob later j updates (snd out) = snd out) /\
  (forall j events,
     jobs (snd out) !! j = None ->
     j ∉ created_ids events ->
     jobs (run config (snd out) events) !! j = None).
Proof.
  cbv zeta. unfold cleanupOldJobs. cbv zeta.
  change (24 * 60 * 60 * 1000) with 86400000.
  cbn [fst snd jobs jobQueue worker isProcessing fs set_jobs].
  destruct (sweep_spec
              (fun job => bool_decide (now - job_createdAt job
                                       > default 86400000 maxAgeMs))
              (map_to_list (jobs s)) 0 (jobs s))
    as [Hlookup Hcount].
  { apply NoDup_fst_map_to_list. }
  { intros j r. apply elem_of_map_to_list. }
  cbv zeta in Hlookup, Hcount. cbn [fst snd] in Hlookup, Hcount.
  split; [|split; [exact Hcount|]].
  - intros j r. rewrite Hlookup. destruct (jobs s !! j) as [r'|] eqn:Hj.
    + rewrite (bool_decide_true (j ∈ (map_to_list (jobs s)).*1))
        by (apply list_elem_of_fmap; exists (j, r'); split;
            [reflexivity | apply elem_of_map_to_list; exact Hj]).
      rewrite andb_true_r.
      destruct (bool_decide_reflect
                  (now - job_createdAt r' > default 86400000 maxAgeMs)).
      * split; [discriminate|]. intros [[= <-] ?]. lia.
      * split; [intros [= <-]; split; [reflexivity|lia]|].
        intros [[= <-] _]. reflexivity.
    + split; [discriminate|]. intros [[=] _].
  - do 4 (split; [reflexivity|]). split.
    + intros j later updates Hnone. split.
      * rewrite processJob_eq. cbn [jobs set_jobs]. rewrite Hnone.
        reflexivity.
      * unfold updateJob. cbn [jobs set_jobs]. rewrite Hnone. reflexivity.
    + intros j events Hnone Hnew. apply run_ids; assumption.
Qed.

(** X13: as long as no job is removed from the registry, the queue report is
    consistent: the queue is never longer than the registry, which is listed
    in full, every queued id is listed as queued at progress 0, the queue is
    empty whenever the worker is idle, and at most one job is listed as
    processing. *)
Theorem getQueueStatus_consistent (config : Config) (s : machine) :
  reachable config s ->
  let report := getQueueStatus s in
  (queueLength report <= totalJobs report)%nat /\
  length (qs_jobs report) = totalJobs report /\
  (qs_isProcessing report = false -> queueLength report = 0%nat) /\
  (forall jobId,
     jobId ∈ jobQueue s ->
     exists job, job ∈ qs_jobs report /\ jo_id job = jobId /\
                 jo_status job = queued /\ jo_progress job = 0) /\
  (forall a b,
     a ∈ qs_jobs report -> b ∈ qs_jobs report ->
     jo_status a = processing -> jo_status b = processing ->
     jo_id a = jo_id b).
Proof.
  intros Hreach. cbv zeta.
  destruct (reachable_ok config s Hreach) as [[Hreg Hworker] Hone].
  cbn [getQueueStatus queueLength totalJobs qs_isProcessing qs_jobs].
  assert (Hlisted : forall job : JobOverview,
            job ∈ ((fun job => {| jo_id := job_id job;
                                  jo_status := job_status job;
                                  jo_progress := job_progress job;
                                  jo_createdAt := job_createdAt job |})
                   <$> (map_to_list (jobs s)).*2) <->
            exists r, jobs s !! job_id r = Some r /\
                      job = {| jo_id := job_id r;
                               jo_status := job_status r;
                               jo_progress := job_progress r;
                               jo_createdAt := job_createdAt r |}).
  { intros job. rewrite list_elem_of_fmap. split.
    - intros (r & -> & Hr). exists r. split; [|reflexivity].
      apply list_elem_of_fmap in Hr as ([j r'] & -> & Hjr).
      apply elem_of_map_to_list in Hjr. cbn.
      rewrite (ok_ids _ Hreg _ _ Hjr). exact Hjr.
    - intros (r & Hr & ->). exists r. split; [reflexivity|].
      apply list_elem_of_fmap. exists (job_id r, r). split; [reflexivity|].
      apply elem_of_map_to_list. exact Hr. }
  split; [|split; [|split; [|split]]].
  - rewrite <- length_map_to_list, <- (length_fmap fst).
    apply submseteq_length, NoDup_submseteq; [apply (ok_nodup _ Hreg)|].
    intros j Hj. destruct (ok_queue _ Hreg _ Hj) as (r & Hr & _).
    apply list_elem_of_fmap. exists (j, r). split; [reflexivity|].
    apply elem_of_map_to_list. exact Hr.
  - rewrite !length_fmap. apply length_map_to_list.
  - intros Hidle. unfold worker_ok in Hworker.
    destruct (worker s); destruct Hworker as [Hbusy Hq]; [congruence|].
    rewrite Hq. reflexivity.
  - intros jobId Hin. destruct (ok_queue _ Hreg _ Hin) as (r & Hr & Hst & Hp).
    eexists. split; [apply Hlisted; exists r; split; [|reflexivity]|].
    + rewrite (ok_ids _ Hreg _ _ Hr). exact Hr.
    + cbn. rewrite (ok_ids _ Hreg _ _ Hr). auto.
  - intros a b (ra & Hra & ->)%Hlisted (rb & Hrb & ->)%Hlisted. cbn.
    intros Ha Hb.
    pose proof (Hone _ _ Hra Ha) as Hwa. pose proof (Hone _ _ Hrb Hb) as Hwb.
    congruence.
Qed.

Lemma getQueueStatus_consistent_witness :
  reachable Scenario.config Scenario.started /\
  (queueLength (getQueueStatus Scenario.started)
   <= totalJobs (getQueueStatus Scenario.started))%nat.
Proof.
  assert (Hreach : reachable Scenario.config Scenario.started)
    by (apply scenario_reachable; reflexivity).
  split; [exact Hreach|].
  apply (getQueueStatus_consistent Scenario.config Scenario.started Hreach).
Defined.

(** ** The status, cancel and queue routes *)

Lemma processing_stage (config : Config) (s : machine) (j : string)
    (r : ProcessingJob) :
  reachable config s ->
  jobs s !! j = Some r -> job_status r = processing ->
  exists k, worker s = Some k /\ suspended_jobId k = j /\
            job_progress r = stage_progress k.
Proof.
  intros Hreach Hr Hst.
  destruct (reachable_ok config s Hreach) as [[Hreg Hworker] Hone].
  pose proof (Hone _ _ Hr Hst) as Hw.
  destruct (worker s) as [k|] eqn:Hk; [|discriminate].
  injection Hw as Hj. exists k. split; [reflexivity|]. split; [exact Hj|].
  unfold worker_ok in Hworker. rewrite Hk in Hworker.
  destruct Hworker as (_ & _ & r' & Hr' & Hp & _).
  rewrite Hj, Hr in Hr'. injection Hr' as <-. exact Hp.
Qed.

Lemma status_message_follows_stage_aux (config : Config) (s : machine)
    (j : string) (r : ProcessingJob) :
  reachable config s ->
  jobs s !! j = Some r ->
  (job_status r = processing ->
   exists k, worker s = Some k /\ suspended_jobId k = j /\
             getStatusMessage r = stage_message k) /\
  (job_status r <> failed -> getStatusMessage r <> "Finalizing results").
Proof.
  intros Hreach Hr.
  assert (Hstage : job_status r = processing ->
            exists k, worker s = Some k /\ suspended_jobId k = j /\
                      getStatusMessage r = stage_message k).
  { intros Hst.
    destruct (processing_stage config s j r Hreach Hr Hst)
      as (k & Hk & Hj & Hp).
    exists k. split; [exact Hk|]. split; [exact Hj|].
    unfold getStatusMessage. rewrite Hst, Hp.
    destruct k as [? ? ? []| | |]; reflexivity. }
  split; [exact Hstage|]. intros Hnot.
  destruct (job_status r) eqn:Hst.
  - unfold getStatusMessage. rewrite Hst. discriminate.
  - destruct (Hstage eq_refl) as (k & _ & _ & ->). destruct k; discriminate.
  - unfold getStatusMessage. rewrite Hst. discriminate.
  - congruence.
Qed.

(** X14: while a job is being processed its status message follows the stage
    the worker awaits: "Preparing audio file for processing" during the
    metadata probe, "Transcribing audio using AI" during normalisation and
    transcription, "Generating summary and insights" during summarisation.
    "Finalizing results" is never the message of a job that has not failed,
    in any state the service rests in: progress 90 is reached and left
    within one turn. (A failed job shows its error, whatever it says.) *)
Theorem status_message_follows_stage (config : Config) (s : machine)
    (j : string) (r : ProcessingJob) :
  reachable config s ->
  jobs s !! j = Some r ->
  (job_status r = processing ->
   exists k, worker s = Some k /\ suspended_jobId k = j /\
             getStatusMessage r = stage_message k) /\
  (job_status r <> failed -> getStatusMessage r <> "Finalizing results").
Proof. apply status_message_follows_stage_aux. Qed.

Lemma status_message_witness :
  reachable Scenario.config Scenario.normalised /\
  (exists r, jobs Scenario.normalised !! Scenario.jobId = Some r /\
             job_status r = processing /\
             getStatusMessage r = "Transcribing audio using AI").
Proof.
  assert (Hreach : reachable Scenario.config Scenario.normalised)
    by (apply scenario_reachable; reflexivity).
  split; [exact Hreach|].
  destruct (jobs Scenario.normalised !! Scenario.jobId) as [r|] eqn:Hr;
    [|vm_compute in Hr; discriminate].
  exists r. split; [reflexivity|].
  assert (Hst : job_status r = processing)
    by (vm_compute in Hr; injection Hr as <-; reflexivity).
  split; [exact Hst|].
  destruct (proj1 (status_message_follows_stage Scenario.config
                     Scenario.normalised Scenario.jobId r Hreach Hr) Hst)
    as (k & Hk & _ & ->).
  vm_compute in Hk. injection Hk as <-. reflexivity.
Defined.

(** X15: the status route answers 404 for an unknown job and 403, without
    any job data, to anyone but the owner; the owner gets the status,
    progress and error of the record as they are. The message is the status
    message except for a completed job, whose message points to the
    summaries: for a job that has not failed the route never sends
    "Processing completed successfully" or "Finalizing results". *)
Theorem get_status_contract (config : Config) (s : machine) (now : Z)
    (user : User) (jobId : string) :
  reachable config s ->
  let res := get_status now user jobId s in
  (jobs s !! jobId = None ->
   res = error_response now 404 "Not Found" "Processing job not found") /\
  (forall job,
     jobs s !! jobId = Some job -> job_userId job <> user_id user ->
     res = error_response now 403 "Forbidden"
             "You do not have permission to access this job") /\
  (forall job,
     jobs s !! jobId = Some job -> job_userId job = user_id user ->
     exists message,
       res = success_response now
               (Some (JobStatusData
                        {| jsr_jobId := jobId;
                           jsr_status := job_status job;
                           jsr_progress := job_progress job;
                           jsr_message := message;
                           jsr_error := job_error job |})) None /\
       (job_status job <> completed -> message = getStatusMessage job) /\
       (job_status job <> failed ->
        message <> "Processing completed successfully" /\
        message <> "Finalizing results")).
Proof.
  intros Hreach. cbv zeta. unfold get_status, getJob.
  destruct (reachable_ok config s Hreach) as [[Hreg _] _].
  split; [intros ->; reflexivity|]. split.
  - intros job -> Hother.
    destruct (String.eqb_spec (job_userId job) (user_id user));
      [contradiction | reflexivity].
  - intros job Hjob Howner. rewrite Hjob.
    rewrite (proj2 (String.eqb_eq _ _) Howner). cbn [negb].
    rewrite (ok_ids _ Hreg _ _ Hjob). cbv zeta.
    cbn [jsr_jobId jsr_status jsr_progress jsr_error].
    destruct (status_message_follows_stage_aux config s jobId job Hreach Hjob)
      as [_ Hfinal].
    destruct (bool_decide_reflect (job_status job = completed)) as [Hc|Hc];
      eexists; (split; [reflexivity|]).
    + split; [contradiction|]. intros _. split; discriminate.
    + split; [reflexivity|]. intros Hnot. split; [|exact (Hfinal Hnot)].
      unfold getStatusMessage.
      destruct (job_status job) eqn:Hst; try discriminate; try contradiction.
      repeat match goal with
             | |- context [if ?b then _ else _] => destruct b
             end; discriminate.
Qed.


Lemma get_status_witness :
  reachable Scenario.config Scenario.normalised /\
  res_status (get_status 200 Scenario.alice Scenario.jobId
                Scenario.normalised) = 200 /\
  res_status (get_status 200 {| user_id := "u2" |} Scenario.jobId
                Scenario.normalised) = 403.
Proof.
  assert (Hreach : reachable Scenario.config Scenario.normalised)
    by (apply scenario_reachable; reflexivity).
  split; [exact Hreach|].
  destruct (jobs Scenario.normalised !! Scenario.jobId) as [r|] eqn:Hr;
    [|vm_compute in Hr; discriminate].
  assert (Howner : job_userId r = "u1")
    by (vm_compute in Hr; injection Hr as <-; reflexivity).
  destruct (get_status_contract Scenario.config Scenario.normalised 200
              Scenario.alice Scenario.jobId Hreach) as (_ & _ & Hmine).
  destruct (get_status_contract Scenario.config Scenario.normalised 200
              {| user_id := "u2" |} Scenario.jobId Hreach)
    as (_ & Hother & _).
  split.
  - destruct (Hmine r Hr Howner) as (message & -> & _). reflexivity.
  - rewrite (Hother r Hr); [reflexivity|]. rewrite Howner. discriminate.
Defined.

(** X16: the cancel route changes the service only when it answers 200, and
    it answers 200 exactly when the job exists, belongs to the caller and is
    queued or processing; the job is then marked failed with the error
    "Cancelled by user". Nobody but the owner can cancel a job: for anyone
    else the answer is 403 and nothing changes. *)
Theorem delete_cancel_contract (config : Config) (s : machine) (now : Z)
    (user : User) (jobId : string) :
  reachable config s ->
  let out := delete_cancel now user jobId s in
  (res_status (fst out) = 200 <->
   exists job, jobs s !! jobId = Some job /\
               job_userId job = user_id user /\
               (job_status job = queued \/ job_status job = processing)) /\
  (res_status (fst out) <> 200 -> snd out = s) /\
  (res_status (fst out) = 200 ->
   snd out = snd (cancelJob now jobId s) /\
   (jobId ∉ jobQueue (snd out)) /\
   exists job, jobs s !! jobId = Some job /\
               jobs (snd out) !! jobId
               = Some (failed_record job "Cancelled by user" now)) /\
  (forall job,
     jobs s !! jobId = Some job -> job_userId job <> user_id user ->
     out = (error_response now 403 "Forbidden"
              "You do not have permission to cancel this job", s)) /\
  (jobs s !! jobId = None ->
   out = (error_response now 404 "Not Found" "Processing job not found", s)) /\
  (forall job,
     jobs s !! jobId = Some job -> job_userId job = user_id user ->
     job_status job = completed \/ job_status job = failed ->
     out = (error_response now 400 "Bad Request"
              "Job cannot be cancelled (already completed or failed)", s)).
Proof.
  intros Hreach. cbv zeta.
  pose proof (cancelJob_cases config s now jobId Hreach)
    as (Htrue & Hfalse & Hdone).
  cbv zeta in Htrue, Hfalse, Hdone.
  unfold delete_cancel, getJob.
  destruct (jobs s !! jobId) as [job|] eqn:Hjob.
  2:{ cbn. split; [|split; [|split; [|split; [|split]]]];
        try reflexivity; try discriminate.
      split; [discriminate|]. intros (job & [=] & _). }
  destruct (String.eqb_spec (job_userId job) (user_id user)) as [Howner|Hother];
    cbn [negb].
  2:{ cbn. split; [|split; [|split; [|split; [|split]]]];
        try reflexivity; try discriminate.
      - split; [discriminate|]. intros (job' & [= <-] & ? & _). contradiction.
      - intros job' [= <-] ?. contradiction. }
  destruct (cancelJob now jobId s) as [[] s'] eqn:Hcancel;
    cbn [fst snd negb res_status error_response] in *.
  - destruct (proj1 Htrue eq_refl) as (job' & [= <-] & Hst).
    destruct (Hdone eq_refl) as ((job' & [= <-] & Hrecord) & Hgone & _).
    split; [|split; [|split; [|split; [|split]]]].
    + split; [eauto|reflexivity].
    + intros Hne. contradiction.
    + intros _. eauto.
    + intros job' [= <-] ?. contradiction.
    + discriminate.
    + intros job' [= <-] _ [?|?]; destruct Hst; congruence.
  - rewrite (Hfalse eq_refl) in *.
    split; [|split; [|split; [|split; [|split]]]].
    + split; [discriminate|]. intros (job' & [= <-] & _ & Hst).
      assert (false = true) by (apply Htrue; eauto). discriminate.
    + reflexivity.
    + discriminate.
    + intros job' [= <-] ?. contradiction.
    + discriminate.
    + reflexivity.
Qed.

Lemma delete_cancel_witness :
  reachable Scenario.config Scenario.normalised /\
  res_status (fst (delete_cancel 200 Scenario.alice Scenario.jobId
                     Scenario.normalised)) = 200 /\
  snd (delete_cancel 200 {| user_id := "u2" |} Scenario.jobId
         Scenario.normalised) = Scenario.normalised.
Proof.
  assert (Hreach : reachable Scenario.config Scenario.normalised)
    by (apply scenario_reachable; reflexivity).
  split; [exact Hreach|]. split; [vm_compute; reflexivity|].
  apply (delete_cancel_contract Scenario.config Scenario.normalised 200
           {| user_id := "u2" |} Scenario.jobId Hreach).
  vm_compute. discriminate.
Defined.

(** X17: the queue route answers every authenticated caller alike: its
    report lists the id, status, progress and creation time of every job in
    the registry, whoever owns it. *)
Theorem get_queue_lists_every_job (now : Z) (user : User) (s : machine) :
  (forall other, get_queue now other s = get_queue now user s) /\
  (forall jobId job,
     jobs s !! jobId = Some job ->
     exists report,
       get_queue now user s
       = success_response now (Some (QueueData report)) None /\
       {| jo_id := job_id job; jo_status := job_status job;
          jo_progress := job_progress job;
          jo_createdAt := job_createdAt job |} ∈ qs_jobs report).
Proof.
  split; [reflexivity|].
  intros jobId job Hjob. eexists. split; [reflexivity|].
  cbn [getQueueStatus qs_jobs]. apply list_elem_of_fmap. exists job.
  split; [reflexivity|]. apply list_elem_of_fmap. exists (jobId, job).
  split; [reflexivity|]. apply elem_of_map_to_list. exact Hjob.
Qed.

(** ** Validation *)

Section ValidationProperties.

Variable isValidEmail : string -> bool.
Variable isValidUrl : string -> bool.

Lemma validateType_field (v : value) (type : RuleType) (field : string)
    (error : ValidationError) :
  validateType isValidEmail isValidUrl v type field = Some error ->
  ve_field error = field /\ ve_value error = v.
Proof.
  unfold validateType.
  destruct type, v; try discriminate;
    repeat match goal with
           | |- context [if ?b then _ else _] => destruct b
           end;
    try discriminate; intros [= <-]; split; reflexivity.
Qed.

Lemma validateField_field (v : value) (rule : ValidationRule)
    (error : ValidationError) :
  validateField isValidEmail isValidUrl v rule = Ok (Some error) ->
  ve_field error = rule_field rule /\ ve_value error = v.
Proof.
  unfold validateField.
  destruct (default false (rule_required rule) && not_provided v);
    [intros [= <-]; split; reflexivity|].
  destruct (not_provided v); [discriminate|].
  destruct (match rule_type rule with
            | Some type => validateType isValidEmail isValidUrl v type
                             (rule_field rule)
            | None => None
            end) as [typeError|] eqn:Htype.
  - intros [= <-]. destruct (rule_type rule); [|discriminate].
    exact (validateType_field _ _ _ _ Htype).
  - match goal with
    | |- result_bind ?r _ = _ -> _ => destruct r as [[message|]|]
    end; cbn; try discriminate.
    intros [= <-]. split; reflexivity.
Qed.

(** X18: on a plain object, and for rules on fields that [Object.prototype]
    does not define (so that reading a field is reading an own property),
    [validateObject] reports at most one error per rule, in the order of
    the rules, each under the field of its rule and with the value of that
    property.  A field that is absent, null or the empty string is never
    checked against its rule: it fails when the rule says [required], with
    the message "<field> is required", and passes otherwise, so that an
    object holding none of the fields fails exactly the required rules. *)
Theorem validateObject_errors_follow_rules
    (properties : list (string * value)) (rules : list ValidationRule) :
  Forall (fun rule => Value.inherited (rule_field rule) = false) rules ->
  (forall errors,
     validateObject isValidEmail isValidUrl (VObj properties) rules
     = Ok errors ->
     sublist (ve_field <$> errors) (rule_field <$> rules) /\
     (length errors <= length rules)%nat /\
     Forall (fun error =>
               Value.assoc (ve_field error) properties = ve_value error)
       errors) /\
  (Forall (fun rule =>
             not_provided (Value.assoc (rule_field rule) properties) = true)
     rules ->
   validateObject isValidEmail isValidUrl (VObj properties) rules
   = Ok (omap (fun rule =>
                 if default false (rule_required rule)
                 then Some (required_error rule
                              (Value.assoc (rule_field rule) properties))
                 else None) rules)).
Proof.
  intros _. split.
  - induction rules as [|rule rules IH]; intros errors.
    + intros [= <-]. repeat split; constructor.
    + cbn [validateObject Value.get result_bind].
      destruct (validateField isValidEmail isValidUrl
                  (Value.assoc (rule_field rule) properties) rule)
        as [error|] eqn:Herror; cbn [result_bind]; [|discriminate].
      destruct (validateObject isValidEmail isValidUrl (VObj properties)
                  rules) as [rest|]; cbn [result_bind]; [|discriminate].
      destruct (IH rest eq_refl) as (Hsub & Hlen & Hall).
      intros [= <-]. destruct error as [error|].
      * destruct (validateField_field _ _ _ Herror) as [Hf Hval].
        cbn. rewrite Hf. split; [constructor; exact Hsub|].
        split; [lia|]. constructor; [|exact Hall].
        rewrite Hf, Hval. reflexivity.
      * cbn. split; [constructor; exact Hsub|]. split; [lia | exact Hall].
  - induction 1 as [|rule rules Hrule _ IH]; [reflexivity|].
    cbn [validateObject Value.get result_bind omap].
    unfold validateField at 1. rewrite Hrule, andb_true_r.
    destruct (default false (rule_required rule)) eqn:Hrequired;
      cbn [result_bind]; rewrite IH; cbn [result_bind omap list_omap];
      rewrite Hrequired; reflexivity.
Qed.

End ValidationProperties.

Lemma validateObject_witness :
  Forall (fun rule => Value.inherited (rule_field rule) = false)
    upload_rules /\
  validateObject (fun _ => true) (fun _ => true)
    (VObj [("url", VStr ""); ("options", VNull)]) upload_rules
  = Ok [required_error type_rule VUndefined].
Proof.
  assert (Hown : Forall (fun rule => Value.inherited (rule_field rule) = false)
                   upload_rules)
    by (repeat constructor).
  split; [exact Hown|].
  apply (proj2 (validateObject_errors_follow_rules (fun _ => true)
                  (fun _ => true) [("url", VStr ""); ("options", VNull)]
                  upload_rules Hown)).
  repeat constructor.
Defined.

Section UploadRules.

Variable isValidEmail : string -> bool.
Variable isValidUrl : string -> bool.

Lemma validateField_total_without_custom (v : value) (rule : ValidationRule) :
  rule_custom rule = None ->
  exists error, validateField isValidEmail isValidUrl v rule = Ok error.
Proof.
  intros Hcustom. unfold validateField. rewrite Hcustom.
  destruct (_ && _); [eauto|]. destruct (not_provided v); [eauto|].
  destruct (match rule_type rule with Some _ => _ | None => _ end); [eauto|].
  unfold check.
  repeat match goal with
         | |- context [if ?b then _ else _] => destruct b
         end; cbn; eauto.
Qed.

(** X19: the body rules of the upload route never throw, and on a JSON
    object that has no property literally named [options.detail],
    [options.timestamps] or [options.lang] they check three things only: the
    type is "file" or "url"; the url, if given, is a string the URL parser
    accepts; the options, if given, are an object. The rules written for the
    fields inside [options] look up those dotted names on the body itself
    and so never see the detail level, the timestamps flag or the language;
    nor does the custom check on the url ever fail, since it is run on the
    url alone and only when one is given. *)
Theorem upload_rules_check_three_fields (now : Z) (path : string)
    (properties : list (string * value)) :
  Value.assoc "options.detail" properties = VUndefined ->
  Value.assoc "options.timestamps" properties = VUndefined ->
  Value.assoc "options.lang" properties = VUndefined ->
  let type := Value.assoc "type" properties in
  let link := Value.assoc "url" properties in
  let options := Value.assoc "options" properties in
  (exists outcome,
     validateBody isValidEmail isValidUrl upload_rules now path
       (VObj properties) = Ok outcome) /\
  (validateBody isValidEmail isValidUrl upload_rules now path
     (VObj properties) = Ok Next <->
   (type = VStr "file" \/ type = VStr "url") /\
   (not_provided link = true \/
    exists text, link = VStr text /\ isValidUrl text = true) /\
   (not_provided options = true \/ exists fields, options = VObj fields)).
Proof.
  intros Hdetail Htimestamps Hlang. cbv zeta.
  unfold validateBody, upload_rules.
  cbn [validateObject Value.get result_bind].
  change (rule_field detail_rule) with "options.detail".
  change (rule_field timestamps_rule) with "options.timestamps".
  change (rule_field lang_rule) with "options.lang".
  change (rule_field type_rule) with "type".
  change (rule_field url_rule) with "url".
  change (rule_field options_rule) with "options".
  rewrite Hdetail, Htimestamps, Hlang.
  generalize (Value.assoc "type" properties) as type.
  generalize (Value.assoc "url" properties) as link.
  generalize (Value.assoc "options" properties) as options.
  intros options link type.
  change (validateField isValidEmail isValidUrl VUndefined ?r)
    with (Ok (@None ValidationError)).
  cbn [result_bind].
  assert (Htype :
    exists error,
      validateField isValidEmail isValidUrl type type_rule = Ok error /\
      (error = None <-> type = VStr "file" \/ type = VStr "url")).
  { destruct type as [| | | |text| |];
      try solve [eexists; split; [reflexivity|];
                 split; [discriminate | intros [[=]|[=]]]].
    unfold validateField, type_rule.
    cbn [rule_required rule_type rule_field rule_minLength rule_maxLength
         rule_pattern rule_min rule_max rule_enum rule_custom default
         not_provided andb validateType check result_bind mbind
         option_bind].
    destruct (String.eqb_spec text "") as [->|Hne].
    { eexists. split; [reflexivity|].
      split; [discriminate | intros [[=]|[=]]]. }
    cbn [check].
    destruct (bool_decide_reflect (text ∈ ["file"; "url"])) as [Hin|Hout];
      cbn [negb check result_bind mbind option_bind];
      eexists; (split; [reflexivity|]).
    - split; [intros _|reflexivity].
      apply elem_of_cons in Hin as [->|Hin]; [auto|].
      apply list_elem_of_singleton in Hin as ->. auto.
    - split; [discriminate|]. intros [[= ->]|[= ->]]; exfalso; apply Hout.
      + left.
      + right. left. }
  assert (Hlink :
    exists error,
      validateField isValidEmail isValidUrl link url_rule = Ok error /\
      (error = None <->
       not_provided link = true \/
       exists text, link = VStr text /\ isValidUrl text = true)).
  { destruct link as [| | | |text| |];
      try solve [eexists; split; [reflexivity|]; split; [auto|reflexivity]];
      try solve [eexists; split; [reflexivity|];
                 split; [discriminate | intros [[=]|(? & [=] & _)]]].
    unfold validateField, url_rule.
    cbn [rule_required rule_type rule_field rule_minLength rule_maxLength
         rule_pattern rule_min rule_max rule_enum rule_custom default
         not_provided andb validateType].
    destruct (String.eqb_spec text "") as [->|Hne];
      [eexists; split; [reflexivity|]; split; auto|].
    destruct (isValidUrl text) eqn:Hvalid;
      eexists; (split; [reflexivity|]).
    - split; [eauto | reflexivity].
    - split; [discriminate|]. intros [[=]|(? & [= <-] & ?)]. congruence. }
  assert (Hoptions :
    exists error,
      validateField isValidEmail isValidUrl options options_rule
      = Ok error /\
      (error = None <->
       not_provided options = true \/ exists fields, options = VObj fields)).
  { destruct options as [| | | |text| |];
      try solve [eexists; split; [reflexivity|]; split; [eauto|reflexivity]];
      try solve [eexists; split; [reflexivity|];
                 split; [discriminate | intros [[=]|(? & [=])]]].
    unfold validateField, options_rule.
    cbn [rule_required rule_type rule_field default not_provided andb
         validateType].
    destruct (String.eqb_spec text "") as [->|Hne];
      eexists; (split; [reflexivity|]).
    - split; auto.
    - split; [discriminate|]. intros [[=]|(? & [=])]. }
  destruct Htype as (e1 & He1 & H1), Hlink as (e2 & He2 & H2),
    Hoptions as (e3 & He3 & H3).
  rewrite He1. cbn [result_bind]. rewrite He2. cbn [result_bind].
  rewrite He3. cbn [result_bind].
  split; [destruct e1, e2, e3; cbn; eauto|].
  rewrite <- H1, <- H2, <- H3.
  destruct e1, e2, e3; cbn; split; try discriminate; try tauto;
    intros (? & ? & ?); discriminate.
Qed.

End UploadRules.

Lemma upload_rules_witness :
  let properties :=
    [("type", VStr "url"); ("url", VStr "https://example.org/a.mp3");
     ("options", VObj [("detail", VStr "everything")])] in
  Value.assoc "options.detail" properties = VUndefined /\
  validateBody (fun _ => true) (fun _ => true) upload_rules 0 "/"
    (VObj properties) = Ok Next.
Proof.
  intros properties. split; [reflexivity|].
  apply (proj2 (upload_rules_check_three_fields (fun _ => true)
                  (fun _ => true) 0 "/" properties
                  eq_refl eq_refl eq_refl)).
  split; [right; reflexivity|]. split.
  - right. exists "https://example.org/a.mp3". split; reflexivity.
  - right. eexists. reflexivity.
Defined.

(** ** The upload middleware *)

Lemma validateUploadedFile_eq (limits : UploadLimits) (now : Z)
    (f : StoredFile) (s : machine) :
  validateUploadedFile limits now (Some f) s
  = match fs s !! sf_path f with
    | Some size =>
        let errors :=
          too_large limits f
          ++ (if size =? 0 then ["Uploaded file is empty"] else []) in
        if (0 <? length errors)%nat
        then (Ok (Sent (file_rejected now errors)),
              set_fs (delete (sf_path f)) s)
        else (Ok Next, s)
    | None =>
        (Ok (Sent (file_rejected now
                     (too_large limits f
                      ++ ["Uploaded file not found on server";
                          "Cannot validate uploaded file"]))), s)
    end.
Proof.
  cbn [validateUploadedFile]. unfold too_large, file_rejected.
  unfold bind at 1, existsSync at 1.
  destruct (fs s !! sf_path f) as [size|] eqn:Hfile.
  - rewrite bool_decide_true by eauto. cbn [negb].
    unfold bind at 1, try_catch, bind at 1, statSync. rewrite Hfile.
    cbn [ret]. cbv zeta.
    destruct (maxFileSize limits <? sf_size f), (size =? 0);
      cbn [app length Nat.ltb Nat.leb];
      unfold bind, existsSync, when, unlinkSync, ret; rewrite ?Hfile;
      rewrite ?bool_decide_true by eauto; rewrite ?Hfile; reflexivity.
  - rewrite bool_decide_false by (intros [? [=]]). cbn [negb].
    unfold bind at 1, try_catch, bind at 1, statSync. rewrite Hfile.
    cbn [ret].
    destruct (maxFileSize limits <? sf_size f);
      cbn [app length Nat.ltb Nat.leb];
      unfold bind, existsSync, when, unlinkSync, ret; rewrite ?Hfile;
      rewrite ?bool_decide_false by (intros [? [=]]); reflexivity.
Qed.

(** X20: [validateUploadedFile] answers 400 "No file uploaded" when the
    request carries no file, and touches nothing. A file passes exactly when
    it is within the size limit, is on disk and is not empty there, and then
    nothing is touched either. A file that fails is removed from disk before
    the 400 answer is sent, with the reasons listed; a file that is not on
    disk is reported twice, as not found and as impossible to validate. *)
Theorem validateUploadedFile_contract (limits : UploadLimits) (now : Z)
    (upload : option StoredFile) (s : machine) :
  exists outcome s',
    validateUploadedFile limits now upload s = (Ok outcome, s') /\
    (upload = None ->
     outcome = Sent (error_response now 400 "Validation Error"
                       "No file uploaded") /\
     s' = s) /\
    (forall f, upload = Some f ->
       (outcome = Next <->
        sf_size f <= maxFileSize limits /\
        exists size, fs s !! sf_path f = Some size /\ size <> 0) /\
       (outcome = Next -> s' = s) /\
       (outcome <> Next ->
        (exists errors,
           outcome = Sent (file_rejected now errors) /\
           errors <> [] /\
           (fs s !! sf_path f = None ->
            errors = too_large limits f
                     ++ ["Uploaded file not found on server";
                         "Cannot validate uploaded file"])) /\
        fs s' = delete (sf_path f) (fs s) /\
        jobs s' = jobs s /\ jobQueue s' = jobQueue s /\
        worker s' = worker s)).
Proof.
  destruct upload as [f|].
  2:{ eexists _, _. split; [reflexivity|]. split; [auto|discriminate]. }
  rewrite validateUploadedFile_eq.
  destruct (fs s !! sf_path f) as [size|] eqn:Hfile; cbv zeta.
  - destruct (0 <? length _)%nat eqn:Herrors.
    + eexists _, _. split; [reflexivity|]. split; [discriminate|].
      intros f' [= <-]. split; [|split; [discriminate|]].
      * split; [discriminate|]. intros (Hsize & size' & Heq & Hne).
        rewrite Hfile in Heq. injection Heq as <-.
        unfold too_large in Herrors.
        rewrite (proj2 (Z.ltb_ge _ _) Hsize) in Herrors.
        rewrite (proj2 (Z.eqb_neq _ _) Hne) in Herrors. discriminate.
      * intros _. split; [|repeat split].
        eexists. split; [reflexivity|]. split; [|congruence].
        intros Hnil. rewrite Hnil in Herrors. discriminate.
    + eexists _, _. split; [reflexivity|]. split; [discriminate|].
      intros f' [= <-]. split; [|split; [reflexivity|contradiction]].
      split; [intros _|reflexivity].
      unfold too_large in Herrors.
      destruct (Z.ltb_spec (maxFileSize limits) (sf_size f));
        [discriminate|].
      destruct (Z.eqb_spec size 0); [discriminate|].
      split; [lia | eauto].
  - eexists _, _. split; [reflexivity|]. split; [discriminate|].
    intros f' [= <-]. split; [|split; [discriminate|]].
    + split; [discriminate|]. intros (_ & size & Heq & _). congruence.
    + intros _. split; [|repeat split].
      * eexists. split; [reflexivity|]. split; [|reflexivity].
        destruct (too_large limits f); discriminate.
      * symmetry. apply delete_id. exact Hfile.
Qed.

(** X21: [deleteFile] never throws; it answers true exactly when the file
    was there, the file is gone afterwards and no other file is touched, so
    a second call answers false. *)
Theorem deleteFile_removes_once (filePath : string) (s : machine) :
  exists s',
    deleteFile filePath s
    = (Ok (bool_decide (is_Some (fs s !! filePath))), s') /\
    fs s' = delete filePath (fs s) /\
    jobs s' = jobs s /\ jobQueue s' = jobQueue s /\ worker s' = worker s /\
    deleteFile filePath s' = (Ok false, s').
Proof.
  unfold deleteFile, try_catch, bind, existsSync, unlinkSync, ret.
  destruct (fs s !! filePath) as [size|] eqn:Hfile.
  - rewrite bool_decide_true by eauto. rewrite Hfile. eexists.
    split; [reflexivity|]. cbn [fs jobs jobQueue worker set_fs].
    rewrite lookup_delete_eq.
    rewrite bool_decide_false by (intros [? [=]]). repeat split.
  - rewrite bool_decide_false by (intros [? [=]]). eexists.
    split; [reflexivity|]. rewrite Hfile.
    rewrite bool_decide_false by (intros [? [=]]).
    repeat split. symmetry. apply delete_id. exact Hfile.
Qed.


(** ** The guards of the upload route *)

(** X22: the upload route checks the file before it looks at the body, so a
    request without a file is answered 400 "No file uploaded" whatever its
    body says, also when it submits a URL: the handler is reached only with
    a non-empty file on disk within the size limit. Once the file has
    passed, the answer is the body validation's and nothing is touched: a
    request whose body is then rejected leaves its uploaded file on disk. *)
Theorem upload_guards_need_a_file (isValidEmail isValidUrl : string -> bool)
    (limits : UploadLimits) (now : Z) (path : string)
    (error : option upload_error) (upload : option StoredFile)
    (body : value) (s : machine) :
  let out := upload_guards isValidEmail isValidUrl limits now path error
               upload body s in
  (forall e, error = Some e ->
     exists message,
       out = (Ok (Sent (error_response now 400 "Upload Error" message)), s)) /\
  (error = None -> upload = None ->
   out = (Ok (Sent (error_response now 400 "Validation Error"
                      "No file uploaded")), s)) /\
  (forall f size,
     error = None -> upload = Some f ->
     sf_size f <= maxFileSize limits ->
     fs s !! sf_path f = Some size -> size <> 0 ->
     out = (validateBody isValidEmail isValidUrl upload_rules now path body,
            s)) /\
  (fst out = Ok Next ->
   snd out = s /\
   exists f size,
     upload = Some f /\ sf_size f <= maxFileSize limits /\
     fs s !! sf_path f = Some size /\ size <> 0).
Proof.
  cbv zeta. unfold upload_guards.
  destruct error as [e|]; cbn [singleFileUpload].
  { split; [intros ? _; eexists; reflexivity|].
    split; [discriminate|]. split; [discriminate|]. discriminate. }
  split; [discriminate|].
  destruct upload as [f|].
  2:{ split; [reflexivity|]. split; [discriminate|]. discriminate. }
  split; [discriminate|].
  unfold bind. rewrite validateUploadedFile_eq.
  destruct (fs s !! sf_path f) as [size|] eqn:Hfile; cbv zeta.
  - unfold too_large.
    destruct (Z.ltb_spec (maxFileSize limits) (sf_size f)) as [Hbig|Hfit],
      (Z.eqb_spec size 0) as [Hzero|Hsome];
      cbn [app length Nat.ltb Nat.leb ret fst snd].
    all: split;
      [intros f' size' _ Hf Hsize Hlookup Hne; injection Hf as <-;
       rewrite Hfile in Hlookup; injection Hlookup as <-;
       first [lia | contradiction | reflexivity]|].
    all: try discriminate.
    unfold lift. cbn [fst snd]. intros Hnext. split; [reflexivity|].
    eauto 10.
  - cbn [ret fst snd]. split; [|discriminate].
    intros f' size' _ Hf _ Hlookup. injection Hf as <-. congruence.
Qed.

(** ** What the service keeps of a job *)

Section Kept.

Variable config : Config.

Lemma processJob_keeps (now : Z) (jobId : string) (s : machine) (j : string)
    (r : ProcessingJob) :
  captured j r s -> captured j r (snd (processJob config now jobId s)).
Proof.
  intros Hcap. rewrite processJob_eq.
  destruct (jobs s !! jobId) as [job|]; [|exact Hcap]. cbv zeta.
  destruct (bool_decide (job_type job = file)
            && Str.truthy (job_originalFile job));
    [|destruct (bool_decide (job_type job = url)
                && Str.truthy (job_url job))];
    cbn [snd]; unfold failure_update; kept.
Qed.

Lemma processQueue_loop_keeps (now : Z) (queue : list string) (s : machine)
    (j : string) (r : ProcessingJob) :
  captured j r s -> captured j r (processQueue_loop config now queue s).
Proof.
  revert s. induction queue as [|jobId rest IH]; intros s Hcap; [exact Hcap|].
  cbn [processQueue_loop].
  destruct (String.eqb jobId ""); [apply IH; exact Hcap|].
  pose proof (processJob_keeps now jobId (set_jobQueue rest s) j r Hcap)
    as Hkept.
  destruct (processJob config now jobId (set_jobQueue rest s))
    as [[[k|]|error] s']; cbn [snd] in Hkept.
  - exact Hkept.
  - apply IH. exact Hkept.
  - exact Hkept.
Qed.

Lemma resume_keeps (now : Z) (out : result (option suspended) * machine)
    (j : string) (r : ProcessingJob) :
  captured j r (snd out) -> captured j r (resume config now out).
Proof.
  destruct out as [[[k|]|error] s']; cbn [snd resume]; intros Hcap.
  - exact Hcap.
  - apply processQueue_loop_keeps. exact Hcap.
  - exact Hcap.
Qed.

Lemma step_keeps (s : machine) (e : event) (j : string) (r : ProcessingJob) :
  j ∉ created_ids [e] ->
  captured j r s -> captured j r (step config s e).
Proof.
  intros Hnew Hcap.
  destruct e as [now rand user request|now jobId|now outcome
                |now outcome outputSize|now outcome|now rand outcome
                |now path size|now path];
    cbn [step]; try (destruct (worker s) as [[]|]; exact Hcap).
  - assert (Hne : generateJobId now rand <> j).
    { intros <-. apply Hnew. cbn. left. }
    assert (Hqueued :
              captured j r
                (set_jobQueue (jobQueue s ++ [generateJobId now rand])
                   (set_jobs
                      <[generateJobId now rand
                        := new_job now rand user request]>
                      (cons (Created (new_job now rand user request))) s))).
    { destruct Hcap as (r' & Hr' & Hsame). exists r'. split; [|exact Hsame].
      cbn. rewrite lookup_insert_ne by assumption. exact Hr'. }
    unfold createJob. cbv zeta. cbn [snd].
    fold (new_job now rand user request).
    match goal with |- context [if ?b then _ else _] => destruct b end;
      [exact Hqueued|].
    unfold processQueue.
    match goal with |- context [if ?b then _ else _] => destruct b end;
      [exact Hqueued | apply processQueue_loop_keeps; exact Hqueued].
  - unfold cancelJob. destruct (jobs s !! jobId) as [job|]; [|exact Hcap].
    destruct (bool_decide (job_status job = completed)
              || bool_decide (job_status job = failed)); [exact Hcap|].
    cbn [snd]. destruct (bool_decide (job_status job = queued));
      unfold failure_update; kept.
  - destruct (worker s) as [[]|]; try exact Hcap.
    apply resume_keeps. rewrite processJob_metadata_eq.
    destruct (getAudioMetadata_eq audioFilePath outcome s)
      as (metadata & -> & _).
    destruct metadata; cbn [snd]; unfold failure_update; kept.
  - destruct (worker s) as [[]|]; try exact Hcap.
    apply resume_keeps. rewrite processJob_processAudio_eq.
    destruct outcome; cbv zeta;
      match goal with |- context [fs ?s2 !! ?p] => destruct (fs s2 !! p) end;
      cbn [snd]; unfold failure_update; kept.
  - destruct (worker s) as [[]|]; try exact Hcap.
    apply resume_keeps. rewrite processJob_transcription_eq.
    destruct outcome; cbn [snd]; unfold failure_update; kept.
  - destruct (worker s) as [[]|]; try exact Hcap.
    apply resume_keeps. rewrite processJob_summary_eq. cbn [snd].
    destruct (generateSummary _ outcome) as [summary|error]; cbv zeta;
      [destruct (finalSummary now rand job transcription summary)|];
      unfold failure_update; kept.
Qed.

End Kept.

(** X23: nothing the service does to a job changes its id, its owner, its
    type, its file or URL, its options or its creation time, and nothing
    removes it from the registry: whatever requests and settlements follow,
    the job is still there with these fields as they were. *)
Theorem job_keeps_its_inputs (config : Config) (s : machine) (j : string)
    (r : ProcessingJob) (events : list event) :
  jobs s !! j = Some r ->
  j ∉ created_ids events ->
  exists r', jobs (run config s events) !! j = Some r' /\
             job_id r' = job_id r /\ job_userId r' = job_userId r /\
             job_type r' = job_type r /\
             job_originalFile r' = job_originalFile r /\
             job_url r' = job_url r /\ job_options r' = job_options r /\
             job_createdAt r' = job_createdAt r.
Proof.
  intros Hr Hnew.
  assert (Hcap : captured j r (run config s events)).
  { assert (Hstart : captured j r s)
      by (exists r; split; [exact Hr | apply same_inputs_refl]).
    clear Hr. revert s Hstart.
    induction events as [|e events IH]; intros s Hstart; [exact Hstart|].
    change (run config s (e :: events))
      with (run config (step config s e) events).
    assert (Hsplit : created_ids (e :: events)
                     = created_ids [e] ++ created_ids events)
      by (unfold created_ids; cbn; destruct e; reflexivity).
    rewrite Hsplit in Hnew. apply not_elem_of_app in Hnew as [Hnew1 Hnew2].
    apply (IH Hnew2). apply step_keeps; assumption. }
  destruct Hcap as (r' & Hr' & Hsame). exists r'. split; [exact Hr'|].
  exact Hsame.
Qed.

Lemma job_keeps_its_inputs_witness :
  jobs Scenario.started !! Scenario.jobId <> None /\
  exists r', jobs (run Scenario.config Scenario.started
                     Scenario.rest_of_pipeline) !! Scenario.jobId = Some r' /\
             job_userId r' = "u1".
Proof.
  destruct (jobs Scenario.started !! Scenario.jobId) as [r|] eqn:Hr;
    [|vm_compute in Hr; discriminate].
  split; [discriminate|].
  destruct (job_keeps_its_inputs Scenario.config Scenario.started
              Scenario.jobId r Scenario.rest_of_pipeline Hr)
    as (r' & Hr' & _ & Huser & _).
  { vm_compute. apply not_elem_of_nil. }
  exists r'. split; [exact Hr'|]. rewrite Huser.
  vm_compute in Hr. injection Hr as <-. reflexivity.
Defined.

(** ** Summaries and completed jobs *)

Lemma completed_before_refl (s' s : machine) :
  jobs s' = jobs s -> completed_before s' s.
Proof. intros Heq j r Hr Hst. rewrite Heq in Hr. eauto. Qed.

Lemma completed_before_trans (s2 s1 s0 : machine) :
  completed_before s2 s1 -> completed_before s1 s0 -> completed_before s2 s0.
Proof.
  intros H21 H10 j r Hr Hst. destruct (H21 j r Hr Hst) as (r1 & Hr1 & Hst1).
  exact (H10 j r1 Hr1 Hst1).
Qed.

Lemma updateJob_completed_before (now : Z) (i : string) (updates : Updates)
    (s : machine) :
  upd_status updates <> Some completed ->
  completed_before (updateJob now i updates s) s.
Proof.
  intros Hnot j r. destruct (decide (j = i)) as [->|Hne].
  - rewrite jobs_updateJob_eq. destruct (jobs s !! i) as [r0|]; [|discriminate].
    cbn. intros [= <-]. cbn. intros Hst. exists r0. split; [reflexivity|].
    destruct (upd_status updates) as [st|]; cbn in Hst; [|exact Hst].
    congruence.
  - rewrite jobs_updateJob_ne by assumption. eauto.
Qed.

Ltac before :=
  repeat first
    [ apply completed_before_refl; reflexivity
    | eapply completed_before_trans;
      [apply updateJob_completed_before; cbn; discriminate|] ].

Section Archive.

Variable config : Config.

Lemma processJob_completed_before (now : Z) (jobId : string) (s : machine) :
  completed_before (snd (processJob config now jobId s)) s /\
  stored (snd (processJob config now jobId s)) = stored s.
Proof.
  rewrite processJob_eq.
  destruct (jobs s !! jobId) as [job|];
    [|split; [apply completed_before_refl|]; reflexivity].
  cbv zeta.
  destruct (bool_decide (job_type job = file)
            && Str.truthy (job_originalFile job));
    [|destruct (bool_decide (job_type job = url)
                && Str.truthy (job_url job))];
    cbn [snd]; rewrite !stored_updateJob; (split; [before | reflexivity]).
Qed.

Lemma processQueue_loop_completed_before (now : Z) (queue : list string)
    (s : machine) :
  completed_before (processQueue_loop config now queue s) s /\
  stored (processQueue_loop config now queue s) = stored s.
Proof.
  revert s. induction queue as [|jobId rest IH]; intros s.
  - split; [apply completed_before_refl|]; reflexivity.
  - cbn [processQueue_loop].
    destruct (String.eqb jobId "").
    { destruct (IH (set_jobQueue rest s)) as [Hb Hs]. split; assumption. }
    destruct (processJob_completed_before now jobId (set_jobQueue rest s))
      as [Hb Hs].
    destruct (processJob config now jobId (set_jobQueue rest s))
      as [[[k|]|error] s']; cbn [snd] in Hb, Hs.
    + split; assumption.
    + destruct (IH s') as [Hb' Hs']. split.
      * eapply completed_before_trans; [exact Hb'|exact Hb].
      * rewrite Hs'. exact Hs.
    + split; assumption.
Qed.

Lemma resume_completed_before (now : Z)
    (out : result (option suspended) * machine) :
  completed_before (resume config now out) (snd out) /\
  stored (resume config now out) = stored (snd out).
Proof.
  destruct out as [[[k|]|error] s']; cbn [snd resume];
    try (split; [apply completed_before_refl|]; reflexivity).
  apply processQueue_loop_completed_before.
Qed.

Lemma finalSummary_job (now : Z) (rand : string) (job : ProcessingJob)
    (transcription : TranscriptionResponse) (summary : SummarizationResponse)
    (final : Summary) :
  finalSummary now rand job transcription summary = Ok final ->
  sum_jobId final = job_id job /\ sum_userId final = job_userId job.
Proof.
  unfold finalSummary.
  destruct (generateTitle (sr_overview summary)); cbn; [|discriminate].
  intros [= <-]. split; reflexivity.
Qed.

Ltac unstored :=
  left; split;
  [ rewrite (proj2 (resume_completed_before _ _));
    cbn [snd]; rewrite ?stored_updateJob; reflexivity
  | eapply completed_before_trans;
    [apply resume_completed_before|]; cbn [snd]; before ].

(** What one turn of the event loop does to the archive: nothing, or it
    stores the summary of the job it completes. *)
Lemma step_archive (s : machine) (e : event) :
  invariant s -> captured_ok s ->
  (stored (step config s e) = stored s /\ completed_before (step config s e) s)
  \/
  (exists final r',
     stored (step config s e) = final :: stored s /\
     jobs (step config s e) !! sum_jobId final = Some r' /\
     job_status r' = completed /\
     sum_userId final = job_userId r' /\
     forall j r, j <> sum_jobId final ->
                 jobs (step config s e) !! j = Some r ->
                 job_status r = completed ->
                 exists r0, jobs s !! j = Some r0 /\
                            job_status r0 = completed).
Proof.
  intros [Hreg Hworker] Hcap.
  destruct e as [now rand user request|now jobId|now outcome
                |now outcome outputSize|now outcome|now rand outcome
                |now path size|now path];
    cbn [step];
    try (left; destruct (worker s) as [[]|];
         split; [reflexivity | apply completed_before_refl; reflexivity]).
  - left. unfold createJob. cbv zeta. cbn [snd].
    assert (Hqueued : forall q,
              completed_before
                (set_jobQueue q
                   (set_jobs
                      <[generateJobId now rand
                        := {| job_id := generateJobId now rand;
                              job_userId := user_id user;
                              job_type := req_type request;
                              job_status := queued;
                              job_progress := 0;
                              job_originalFile := filename <$> req_file request;
                              job_url := req_url request;
                              job_options := req_options request;
                              job_error := None;
                              job_createdAt := now;
                              job_updatedAt := now;
                              job_completedAt := None |}]>
                      (cons (Created
                           {| job_id := generateJobId now rand;
                              job_userId := user_id user;
                              job_type := req_type request;
                              job_status := queued;
                              job_progress := 0;
                              job_originalFile := filename <$> req_file request;
                              job_url := req_url request;
                              job_options := req_options request;
                              job_error := None;
                              job_createdAt := now;
                              job_updatedAt := now;
                              job_completedAt := None |})) s)) s).
    { intros q j r. cbn. destruct (decide (j = generateJobId now rand)) as [->|Hne].
      - rewrite lookup_insert_eq. intros [= <-]. discriminate.
      - rewrite lookup_insert_ne by congruence. eauto. }
    match goal with |- context [if ?b then _ else _] => destruct b end;
      [split; [reflexivity | apply Hqueued]|].
    unfold processQueue.
    match goal with |- context [if ?b then _ else _] => destruct b end;
      [split; [reflexivity | apply Hqueued]|].
    split.
    + rewrite (proj2 (processQueue_loop_completed_before _ _ _)). reflexivity.
    + eapply completed_before_trans;
        [apply processQueue_loop_completed_before|].
      eapply completed_before_trans; [|apply (Hqueued [])].
      apply completed_before_refl. reflexivity.
  - left. unfold cancelJob. destruct (jobs s !! jobId) as [job|];
      [|split; [reflexivity | apply completed_before_refl; reflexivity]].
    destruct (bool_decide (job_status job = completed)
              || bool_decide (job_status job = failed));
      [split; [reflexivity | apply completed_before_refl; reflexivity]|].
    cbn [snd]. rewrite stored_updateJob.
    destruct (bool_decide (job_status job = queued));
      (split; [reflexivity | before]).
  - destruct (worker s) as [[]|];
      try (left; split;
           [reflexivity | apply completed_before_refl; reflexivity]).
    rewrite processJob_metadata_eq.
    destruct (getAudioMetadata_eq audioFilePath outcome s)
      as (metadata & -> & _).
    destruct metadata; unstored.
  - destruct (worker s) as [[]|];
      try (left; split;
           [reflexivity | apply completed_before_refl; reflexivity]).
    rewrite processJob_processAudio_eq.
    destruct outcome; cbv zeta;
      match goal with |- context [fs ?s2 !! ?p] => destruct (fs s2 !! p) end;
      unstored.
  - destruct (worker s) as [[]|];
      try (left; split;
           [reflexivity | apply completed_before_refl; reflexivity]).
    rewrite processJob_transcription_eq.
    destruct outcome; unstored.
  - destruct (worker s) as [[]|] eqn:Hw;
      try (left; split;
           [reflexivity | apply completed_before_refl; reflexivity]).
    rewrite processJob_summary_eq.
    destruct (generateSummary _ outcome) as [summary|error]; cbv zeta;
      [|unstored].
    destruct (finalSummary now rand job transcription summary)
      as [final|error] eqn:Hfinal; [|unstored].
    right.
    unfold worker_ok in Hworker. rewrite Hw in Hworker.
    destruct Hworker as (_ & Hout & r & Hr & _).
    unfold captured_ok in Hcap. rewrite Hw in Hcap.
    destruct Hcap as (r' & Hr' & Hsame).
    cbn [suspended_jobId suspended_job] in *.
    rewrite Hr in Hr'. injection Hr' as <-.
    destruct (finalSummary_job _ _ _ _ _ _ Hfinal) as [Hid Huser].
    assert (Hjob : sum_jobId final = jobId).
    { rewrite Hid. destruct Hsame as (<- & _).
      exact (ok_ids _ Hreg _ _ Hr). }
    exists final. eexists.
    rewrite (proj2 (resume_completed_before _ _)). cbn [snd fst resume].
    rewrite stored_updateJob. cbn [stored set_fs storeSummary set_stored].
    rewrite stored_updateJob. split; [reflexivity|].
    rewrite Hjob.
    rewrite processQueue_loop_frame
      by (rewrite jobQueue_updateJob; cbn; rewrite jobQueue_updateJob;
          exact Hout).
    rewrite jobs_updateJob_eq. cbn [jobs set_fs storeSummary set_stored].
    rewrite jobs_updateJob_eq, Hr. cbn [fmap option_fmap option_map].
    split; [reflexivity|]. split; [reflexivity|]. split.
    + cbn. rewrite Huser. destruct Hsame as (_ & <- & _). reflexivity.
    + intros j r0 Hne Hj Hst.
      destruct (proj1 (processQueue_loop_completed_before _ _ _) j r0 Hj Hst)
        as (r1 & Hr1 & Hst1).
      rewrite jobs_updateJob_ne in Hr1 by assumption.
      cbn [jobs set_fs storeSummary set_stored] in Hr1.
      rewrite jobs_updateJob_ne in Hr1 by assumption. eauto.
  - left. split; [reflexivity | apply completed_before_refl; reflexivity].
  - left. split; [reflexivity | apply completed_before_refl; reflexivity].
Qed.

Lemma step_archive_ok (s : machine) (e : event) :
  invariant s -> captured_ok s -> fresh s e -> archive_ok s ->
  archive_ok (step config s e).
Proof.
  intros Hinv Hcap Hfresh [Hstored Hcompleted].
  assert (Hkeep : forall j r,
            jobs s !! j = Some r -> job_status r = completed ->
            jobs (step config s e) !! j = Some r).
  { intros j r Hr Hst. apply (step_settled config s e j r Hinv Hfresh Hr).
    - left. exact Hst.
    - intros k Hk. destruct Hinv as [Hreg Hworker].
      unfold worker_ok in Hworker. rewrite Hk in Hworker.
      destruct Hworker as (_ & _ & r0 & Hr0 & _ & _ & Hlive).
      intros Heq. rewrite Heq, Hr in Hr0. injection Hr0 as <-.
      destruct Hlive as [Hlive|[Hlive _]]; congruence. }
  destruct (step_archive s e Hinv Hcap)
    as [[Hsame Hbefore]
       |(final & r' & Hpush & Hr' & Hst' & Huser & Hothers)].
  - split.
    + intros summary Hin. rewrite Hsame in Hin.
      destruct (Hstored summary Hin) as (r & Hr & Hst & Hu).
      exists r. split; [exact (Hkeep _ _ Hr Hst)|]. split; assumption.
    + intros j r Hr Hst. rewrite Hsame.
      destruct (Hbefore j r Hr Hst) as (r0 & Hr0 & Hst0).
      exact (Hcompleted j r0 Hr0 Hst0).
  - split.
    + intros summary Hin. rewrite Hpush in Hin.
      apply elem_of_cons in Hin as [->|Hin].
      * exists r'. split; [exact Hr'|]. split; assumption.
      * destruct (Hstored summary Hin) as (r & Hr & Hst & Hu).
        exists r. split; [exact (Hkeep _ _ Hr Hst)|]. split; assumption.
    + intros j r Hr Hst. rewrite Hpush.
      destruct (decide (j = sum_jobId final)) as [->|Hne].
      * exists final. split; [left|reflexivity].
      * destruct (Hothers j r Hne Hr Hst) as (r0 & Hr0 & Hst0).
        destruct (Hcompleted j r0 Hr0 Hst0) as (summary & Hin & Hid).
        exists summary. split; [right; exact Hin|exact Hid].
Qed.

Lemma run_archive_ok (events : list event) (s : machine) :
  invariant s /\ single_worker s -> captured_ok s -> archive_ok s ->
  NoDup (created_ids events) ->
  (forall j, j ∈ created_ids events -> jobs s !! j = None) ->
  archive_ok (run config s events).
Proof.
  revert s.
  induction events as [|e events IH];
    intros s Hok Hcap Harchive Hnodup Hfresh; [assumption|].
  change (run config s (e :: events))
    with (run config (step config s e) events).
  assert (Hsplit : created_ids (e :: events)
                   = created_ids [e] ++ created_ids events)
    by (unfold created_ids; cbn; destruct e; reflexivity).
  rewrite Hsplit in Hnodup, Hfresh.
  apply NoDup_app in Hnodup as (_ & Hdisjoint & Hnodup).
  assert (Hfresh_e : fresh s e).
  { destruct e; cbn; auto. apply Hfresh. cbn. left. }
  destruct Hok as [Hinv Hone].
  apply IH; [| | |assumption|].
  - split; [apply step_ok | apply step_single]; assumption.
  - apply step_captured; assumption.
  - apply step_archive_ok; assumption.
  - intros j Hj. apply step_ids.
    + intros Hj'. exact (Hdisjoint j Hj' Hj).
    + apply Hfresh, elem_of_app. right. assumption.
Qed.

End Archive.

(** X24: in every reachable state the summaries handed to [storeSummary] and
    the completed jobs correspond. Every such summary names a job of the
    registry that is completed and has the summary's user as its owner, and
    every completed job has had a summary handed over under its id:
    [processJob] calls [storeSummary] and marks the job completed in the
    same turn, and nothing else does either. *)
Theorem stored_summaries_match_completed_jobs (config : Config)
    (s : machine) :
  reachable config s ->
  (forall summary,
     summary ∈ stored s ->
     exists r, jobs s !! sum_jobId summary = Some r /\
               job_status r = completed /\
               sum_userId summary = job_userId r) /\
  (forall j r,
     jobs s !! j = Some r -> job_status r = completed ->
     exists summary, summary ∈ stored s /\ sum_jobId summary = j).
Proof.
  intros (files & events & Hnodup & ->).
  apply (run_archive_ok config events (boot files)).
  - apply boot_ok.
  - exact I.
  - split.
    + intros summary Hin. apply elem_of_nil in Hin. contradiction.
    + intros j r Hr. cbn in Hr. rewrite lookup_empty in Hr. discriminate.
  - exact Hnodup.
  - intros j _. apply lookup_empty.
Qed.

Lemma stored_summaries_witness :
  let s := run Scenario.config (boot Scenario.files) Scenario.full_run in
  reachable Scenario.config s /\
  (exists r, jobs s !! Scenario.jobId = Some r /\ job_status r = completed) /\
  exists summary, summary ∈ stored s /\ sum_jobId summary = Scenario.jobId.
Proof.
  intros s.
  assert (Hreach : reachable Scenario.config s)
    by (apply scenario_reachable; vm_compute; reflexivity).
  split; [exact Hreach|].
  destruct (jobs s !! Scenario.jobId) as [r|] eqn:Hr;
    [|vm_compute in Hr; discriminate].
  assert (Hst : job_status r = completed).
  { vm_compute in Hr. injection Hr as <-. reflexivity. }
  split; [exists r; split; [reflexivity | exact Hst]|].
  exact (proj2 (stored_summaries_match_completed_jobs Scenario.config s
                  Hreach) Scenario.jobId r Hr Hst).
Defined.

(** ** Query parameters *)

Section QueryRules.

Variable isValidEmail : string -> bool.
Variable isValidUrl : string -> bool.

Lemma validateObject_total (obj : value) (rules : list ValidationRule) :
  (forall key, exists v, Value.get obj key = Ok v) ->
  Forall (fun rule => rule_custom rule = None) rules ->
  exists errors, validateObject isValidEmail isValidUrl obj rules = Ok errors.
Proof.
  intros Hget Hrules. induction Hrules as [|rule rules Hrule _ IH].
  - exists []. reflexivity.
  - cbn [validateObject].
    destruct (Hget (rule_field rule)) as (v & ->). cbn [result_bind].
    destruct (validateField_total_without_custom isValidEmail isValidUrl v
                rule Hrule) as (error & ->).
    destruct IH as (errors & ->). cbn. eauto.
Qed.

Lemma validateObject_reports (obj : value) (rules : list ValidationRule)
    (errors : list ValidationError) (rule : ValidationRule) (v : value) :
  validateObject isValidEmail isValidUrl obj rules = Ok errors ->
  rule ∈ rules ->
  Value.get obj (rule_field rule) = Ok v ->
  match validateField isValidEmail isValidUrl v rule with
  | Ok (Some error) => error ∈ errors
  | Ok None => True
  | Throw _ => False
  end.
Proof.
  revert errors. induction rules as [|rule' rules IH]; intros errors Hall Hin Hv;
    [apply elem_of_nil in Hin; contradiction|].
  cbn [validateObject] in Hall.
  destruct (Value.get obj (rule_field rule')) as [v'|] eqn:Hv';
    [|discriminate].
  cbn [result_bind] in Hall.
  destruct (validateField isValidEmail isValidUrl v' rule')
    as [error'|] eqn:Hfield'; [|discriminate].
  cbn [result_bind] in Hall.
  destruct (validateObject isValidEmail isValidUrl obj rules)
    as [errors'|]; [|discriminate].
  cbn in Hall. injection Hall as <-.
  apply elem_of_cons in Hin as [->|Hin].
  - rewrite Hv' in Hv. injection Hv as <-. rewrite Hfield'.
    destruct error'; [left | exact I].
  - specialize (IH errors' eq_refl Hin Hv).
    destruct (validateField isValidEmail isValidUrl v rule) as [[error|]|];
      try exact IH.
    destruct error'; [right|]; exact IH.
Qed.

Lemma validateField_number (v : value) (rule : ValidationRule) :
  rule_type rule = Some TNumber ->
  not_provided v = false ->
  (forall x, v <> VNum x) ->
  validateField isValidEmail isValidUrl v rule
  = Ok (Some (not_a_number (rule_field rule) v)).
Proof.
  intros Htype Hprovided Hnumber. unfold validateField.
  rewrite Hprovided, andb_false_r, Htype.
  destruct v as [| | |x| | |]; try reflexivity.
  exfalso. exact (Hnumber x eq_refl).
Qed.

(** X25: the list route of the summaries declares [page] and [limit] as
    numbers, while the values of a parsed query string are strings (or
    arrays and objects of strings), so naming either parameter gets the
    request rejected: the validation of a query never throws, it passes only
    when [page] and [limit] are each absent, empty or a number, and any
    other value is answered 400 with the error "<field> must be a
    number". *)
Theorem list_query_rejects_page_and_limit (now : Z) (path : string)
    (properties : list (string * value)) :
  let outcome :=
    validateQuery isValidEmail isValidUrl list_rules now path
      (VObj properties) in
  (exists answer, outcome = Ok answer) /\
  (forall field,
     field = "page" \/ field = "limit" ->
     let v := Value.assoc field properties in
     (outcome = Ok Next ->
      not_provided v = true \/ exists x, v = VNum x) /\
     (not_provided v = false -> (forall x, v <> VNum x) ->
      exists errors,
        outcome = Ok (Sent (query_rejected now path errors)) /\
        not_a_number field v ∈ errors)).
Proof.
  cbv zeta. unfold validateQuery.
  destruct (validateObject_total (VObj properties) list_rules)
    as (errors & Herrors).
  { intros key. eexists. reflexivity. }
  { repeat constructor. }
  rewrite Herrors. cbn [result_bind]. split.
  { destruct (0 <? length errors)%nat; eauto. }
  intros field Hfield.
  assert (Hrule : exists rule,
             rule ∈ list_rules /\ rule_field rule = field /\
             rule_type rule = Some TNumber).
  { destruct Hfield as [->| ->].
    - exists page_rule. split; [left|split; reflexivity].
    - exists limit_rule. split; [right; left|split; reflexivity]. }
  destruct Hrule as (rule & Hin & Hname & Htype).
  assert (Hreported :
            not_provided (Value.assoc field properties) = false ->
            (forall x, Value.assoc field properties <> VNum x) ->
            not_a_number field (Value.assoc field properties) ∈ errors).
  { intros Hprovided Hnumber.
    pose proof (validateObject_reports (VObj properties) list_rules errors
                  rule (Value.assoc field properties) Herrors Hin) as Hrep.
    rewrite Hname in Hrep. specialize (Hrep eq_refl).
    rewrite (validateField_number _ _ Htype Hprovided Hnumber), Hname
      in Hrep.
    exact Hrep. }
  revert Hreported. generalize (Value.assoc field properties) as v.
  intros v Hreported. split.
  - intros Hnext.
    destruct (not_provided v) eqn:Hprovided; [left; reflexivity|].
    right.
    assert (Hnone : errors = [])
      by (destruct errors; [reflexivity | discriminate Hnext]).
    destruct v as [| |b|x|text|elements|fields];
      try discriminate Hprovided;
      try (exists x; reflexivity);
      exfalso; rewrite Hnone in Hreported;
      eapply not_elem_of_nil, (Hreported eq_refl); discriminate.
  - intros Hprovided Hnumber. exists errors.
    specialize (Hreported Hprovided Hnumber). split; [|exact Hreported].
    destruct errors; [apply elem_of_nil in Hreported; contradiction|].
    reflexivity.
Qed.

End QueryRules.
